(** * Regular-expression pipeline: Thompson construction and subset construction

    Shallow embedding of [regex_to_NFA.py] and [nfa_to_dfa.py].

    Conventions used throughout:
    - a Python [str] is a [string]; iterating it yields its characters;
    - a Python [set] / [frozenset] is a [gset]; iterating one is modelled by
      [elements], whose order is as unspecified as Python's, and no proof
      looks at that order;
    - a Python list used as a stack ([append] / [pop]) is a [list] whose head
      is the top of the stack, i.e. the last element of the Python list;
    - a [while] loop is a [Fixpoint] on a fuel argument that answers [None]
      when the fuel runs out; termination lemmas show which fuel suffices. *)

From stdpp Require Import gmap strings list fin_maps fin_sets.
From Stdlib Require Import Ascii.

(** ** Python helpers *)

(** [c in s] for a one-character string [c]. *)
Fixpoint char_in (c : ascii) (s : string) : bool :=
  match s with
  | EmptyString => false
  | String x s' => if decide (x = c) then true else char_in c s'
  end.

(** The only exception the modelled code can raise: [list.pop] on an empty
    list and [stack[0]] on an empty list both raise [IndexError]. *)
Inductive pyexn : Type := IndexError.

Inductive result (A : Type) : Type :=
  | Ok (a : A)
  | Raise (e : pyexn).
Arguments Ok {A} a.
Arguments Raise {A} e.

Definition raises {A} (r : result A) : Prop := ∃ e, r = Raise e.

(** Sequencing: an exception aborts everything that follows. *)
#[global] Instance result_bind : MBind result := λ A B k r,
  match r with
  | Ok a => k a
  | Raise e => Raise e
  end.

(** ** regex_to_NFA.py *)

Module RegexToNFA.

(** [EPS = None]: a transition label is [None] (epsilon) or a character. *)
Definition symbol : Type := option ascii.
Definition EPS : symbol := None.

(** *** add_concat *)

(** One iteration of [for c in r], on the pair [(out, prev)]. *)
Definition add_concat_step (acc : list ascii * option ascii) (c : ascii)
  : list ascii * option ascii :=
  let '(out, prev) := acc in
  let sep :=
    match prev with
    | Some p => negb (char_in p "|(") && negb (char_in c "|)*+?")
    | None => false
    end in
  ((if sep then out ++ ["."%char] else out) ++ [c], Some c).

Definition add_concat (r : string) : string :=
  String.string_of_list_ascii
    (fold_left add_concat_step (String.list_ascii_of_string r) ([], None)).1.

(** *** to_postfix *)

(** The dictionary [prec]; [None] when the key is absent. *)
Definition prec (c : ascii) : option nat :=
  if decide (c = "*"%char) then Some 3
  else if decide (c = "+"%char) then Some 3
  else if decide (c = "?"%char) then Some 3
  else if decide (c = "."%char) then Some 2
  else if decide (c = "|"%char) then Some 1
  else None.

(** [while st and st[-1] != '(': out.append(st.pop())] *)
Fixpoint pop_to_paren (out st : list ascii) : list ascii * list ascii :=
  match st with
  | [] => (out, [])
  | x :: st' =>
      if decide (x = "("%char) then (out, st)
      else pop_to_paren (out ++ [x]) st'
  end.

(** [while st and st[-1] != '(' and prec.get(st[-1], 0) >= prec[c]:
       out.append(st.pop())] *)
Fixpoint pop_ops (pc : nat) (out st : list ascii) : list ascii * list ascii :=
  match st with
  | [] => (out, [])
  | x :: st' =>
      if decide (x = "("%char) then (out, st)
      else if decide (pc ≤ default 0 (prec x)) then pop_ops pc (out ++ [x]) st'
      else (out, st)
  end.

(** One iteration of [for c in r], on the pair [(out, st)]. *)
Definition to_postfix_step (acc : list ascii * list ascii) (c : ascii)
  : list ascii * list ascii :=
  let '(out, st) := acc in
  if decide (c = "("%char) then (out, c :: st)
  else if decide (c = ")"%char) then
    let '(out', st') := pop_to_paren out st in
    (* [st.pop() if st else None] *)
    (out', tail st')
  else match prec c with
       | Some pc => let '(out', st') := pop_ops pc out st in (out', c :: st')
       | None => (out ++ [c], st)
       end.

Definition to_postfix (r : string) : string :=
  let '(out, st) :=
    fold_left to_postfix_step (String.list_ascii_of_string r) ([], []) in
  (* [out.extend(reversed(st))]: from the top of the stack downwards *)
  String.string_of_list_ascii (out ++ st).

(** *** build *)

(** A transition table [defaultdict(list)]: state ↦ list of (label, target). *)
Abbreviation table := (gmap nat (list (symbol * nat))).

(** [tr.get(s, [])] *)
Definition tr_get (tr : table) (s : nat) : list (symbol * nat) :=
  default [] (tr !! s).

(** [tr[k].extend(v)] on a [defaultdict(list)]: a missing key is created. *)
Definition tr_extend (tr : table) (k : nat) (v : list (symbol * nat)) : table :=
  <[k := tr_get tr k ++ v]> tr.

(** [for k, v in src.items(): dst[k].extend(v)] *)
Definition tr_merge (dst src : table) : table :=
  map_fold (λ k v acc, tr_extend acc k v) dst src.

(** [for a in acc: tr[a].extend(v)] *)
Definition tr_extend_all (tr : table) (acc : gset nat) (v : list (symbol * nat))
  : table :=
  set_fold (λ a t, tr_extend t a v) tr acc.

(** An NFA fragment, the tuple [(start, accept, transitions)]. *)
Definition fragment : Type := nat * gset nat * table.

(** [stack.pop()] *)
Definition pop (stack : list fragment) : result (fragment * list fragment) :=
  match stack with
  | [] => Raise IndexError
  | x :: stack' => Ok (x, stack')
  end.

(** One iteration of [for t in postfix], on the pair [(gen, stack)] where
    [gen] is the next value of [count()]. *)
Definition build_step (acc : nat * list fragment) (t : ascii)
  : result (nat * list fragment) :=
  let '(gen, stack) := acc in
  if decide (t = "."%char) then
    '(s2, stack) ← pop stack ;
    '(s1, stack) ← pop stack ;
    let '(st1, acc1, tr1) := s1 in
    let '(st2, acc2, tr2) := s2 in
    let tr1 := tr_extend_all tr1 acc1 [(EPS, st2)] in
    let tr1 := tr_merge tr1 tr2 in
    Ok (gen, (st1, acc2, tr1) :: stack)
  else if decide (t = "|"%char) then
    '(s2, stack) ← pop stack ;
    '(s1, stack) ← pop stack ;
    let '(st1, acc1, tr1) := s1 in
    let '(st2, acc2, tr2) := s2 in
    let s := gen in
    let f := S gen in
    let tr := tr_merge ∅ tr1 in
    let tr := tr_merge tr tr2 in
    let tr := tr_extend tr s [(EPS, st1); (EPS, st2)] in
    let tr := tr_extend_all tr (acc1 ∪ acc2) [(EPS, f)] in
    Ok (S (S gen), (s, {[f]}, tr) :: stack)
  else if char_in t "*+?" then
    '(frag, stack) ← pop stack ;
    let '(st, acc, tr0) := frag in
    let s := gen in
    let f := S gen in
    let tr := tr_merge ∅ tr0 in
    let tr :=
      tr_extend tr s
        (if decide (t = "?"%char) then [(EPS, st); (EPS, f)] else [(EPS, st)]) in
    let tr :=
      tr_extend_all tr acc
        (if decide (t ≠ "?"%char) then [(EPS, st); (EPS, f)] else [(EPS, f)]) in
    let tr := if decide (t ≠ "?"%char) then tr_extend tr s [(EPS, f)] else tr in
    Ok (S (S gen), (s, {[f]}, tr) :: stack)
  else
    let s := gen in
    let f := S gen in
    Ok (S (S gen), (s, {[f]}, {[s := [(Some t, f)]]}) :: stack).

Fixpoint build_loop (acc : nat * list fragment) (postfix : list ascii)
  : result (nat * list fragment) :=
  match postfix with
  | [] => Ok acc
  | t :: postfix' => acc' ← build_step acc t ; build_loop acc' postfix'
  end.

(** [return stack[0]]: the bottom of the stack. *)
Definition build (postfix : string) : result fragment :=
  '(_, stack) ← build_loop (0, []) (String.list_ascii_of_string postfix) ;
  match last stack with
  | Some frag => Ok frag
  | None => Raise IndexError
  end.

(** The pipeline of the [__main__] block: [build(to_postfix(add_concat(p)))]. *)
Definition compile (p : string) : result fragment :=
  build (to_postfix (add_concat p)).

(** *** eps_closure, move, matches *)

(** One iteration of [for sym, d in tr.get(s, [])], on [(res, stk)]. *)
Definition eps_visit (acc : gset nat * list nat) (e : symbol * nat)
  : gset nat * list nat :=
  let '(res, stk) := acc in
  let '(sym, d) := e in
  if decide (sym = EPS ∧ d ∉ res) then ({[d]} ∪ res, d :: stk) else (res, stk).

(** [while stk: s = stk.pop(); for ...]. *)
Fixpoint eps_closure_loop (fuel : nat) (tr : table) (res : gset nat)
    (stk : list nat) : option (gset nat) :=
  match stk with
  | [] => Some res
  | s :: stk' =>
      match fuel with
      | 0 => None
      | S fuel' =>
          let '(res', stk'') := fold_left eps_visit (tr_get tr s) (res, stk') in
          eps_closure_loop fuel' tr res' stk''
      end
  end.

(** Every target mentioned in the table. *)
Definition tr_targets (tr : table) : gset nat :=
  ⋃ ((λ kv : nat * list (symbol * nat), list_to_set (kv.2).*2) <$> map_to_list tr).

(** Number of iterations that always suffices: one per state that can be
    in the result. *)
Definition eps_closure_fuel (states : gset nat) (tr : table) : nat :=
  size (states ∪ tr_targets tr).

(** [res, stk = set(states), list(states)] followed by the loop. *)
Definition eps_closure (states : gset nat) (tr : table) : gset nat :=
  default ∅
    (eps_closure_loop (eps_closure_fuel states tr) tr states
       (reverse (elements states))).

(** [{d for s in states for sym, d in tr.get(s, []) if sym == ch}] *)
Definition move (states : gset nat) (ch : ascii) (tr : table) : gset nat :=
  list_to_set
    (s ← elements states;
     e ← tr_get tr s;
     if decide (e.1 = Some ch) then [e.2] else []).

Fixpoint matches_loop (tr : table) (acc cur : gset nat) (s : list ascii) : bool :=
  match s with
  | [] => bool_decide (cur ∩ acc ≠ ∅)
  | ch :: s' =>
      let cur := eps_closure (move cur ch tr) tr in
      if decide (cur = ∅) then false else matches_loop tr acc cur s'
  end.

Definition matches (nfa : fragment) (s : string) : bool :=
  let '(st, acc, tr) := nfa in
  matches_loop tr acc (eps_closure {[st]} tr) (String.list_ascii_of_string s).

(** [matches] after [compile]; an exception of [compile] propagates. *)
Definition run (p s : string) : result bool :=
  nfa ← compile p ; Ok (matches nfa s).

End RegexToNFA.


(** ** nfa_to_dfa.py *)

(** The class [NFA].  States are any hashable values; a symbol is a string
    key, the empty string [''] labelling the epsilon transitions. *)
Module NFA.
Section NFA.
Context `{Countable St}.

Record t : Type := mk {
  states : gset St;
  alphabet : gset string;
  transitions : gmap St (gmap string (gset St));
  start_state : St;
  accept_states : gset St
}.

(** [self.transitions.get(state, {})] *)
Definition row (N : t) (state : St) : gmap string (gset St) :=
  default ∅ (transitions N !! state).

(** One iteration of [for next_state in self.transitions[state]['']], on the
    pair [(closure, stack)]. *)
Definition epsilon_visit (acc : gset St * list St) (next_state : St)
  : gset St * list St :=
  let '(closure, stack) := acc in
  if decide (next_state ∉ closure)
  then ({[next_state]} ∪ closure, next_state :: stack)
  else (closure, stack).

(** [while stack: state = stack.pop(); if '' in ...: for ...] *)
Fixpoint epsilon_closure_loop (fuel : nat) (N : t) (closure : gset St)
    (stack : list St) : option (gset St) :=
  match stack with
  | [] => Some closure
  | state :: stack' =>
      match fuel with
      | 0 => None
      | S fuel' =>
          let '(closure', stack'') :=
            match row N state !! "" with
            | Some next => fold_left epsilon_visit (elements next) (closure, stack')
            | None => (closure, stack')
            end in
          epsilon_closure_loop fuel' N closure' stack''
      end
  end.

(** Every target mentioned in the transition table. *)
Definition targets (N : t) : gset St :=
  ⋃ (r ← (map_to_list (transitions N)).*2; (map_to_list r).*2).

(** Number of iterations that always suffices. *)
Definition epsilon_closure_fuel (N : t) (state_set : gset St) : nat :=
  size (state_set ∪ targets N).

(** [stack = list(state_set); closure = set(state_set)] followed by the loop. *)
Definition epsilon_closure (N : t) (state_set : gset St) : gset St :=
  default ∅
    (epsilon_closure_loop (epsilon_closure_fuel N state_set) N state_set
       (reverse (elements state_set))).

End NFA.
Arguments t St {_ _}.
End NFA.

(** The class [DFA], over any hashable state type [Q]. *)
Module DFA.
Section DFA.
Context `{Countable Q}.

Record t : Type := mk {
  states : gset Q;
  alphabet : gset string;
  transitions : gmap Q (gmap string Q);
  start_state : Q;
  accept_states : gset Q
}.

(** [self.transitions.get(current_state, {}).get(symbol)] *)
Definition delta (D : t) (current_state : Q) (symbol : string) : option Q :=
  default ∅ (transitions D !! current_state) !! symbol.

(** [for symbol in string: ...; return current_state in self.accept_states].
    Each character is the one-character string [String c ""]. *)
Fixpoint accepts_loop (D : t) (current_state : Q) (string : list ascii) : bool :=
  match string with
  | [] => bool_decide (current_state ∈ accept_states D)
  | c :: string' =>
      let symbol := String c "" in
      if decide (symbol ∉ alphabet D) then false
      else match delta D current_state symbol with
           | None => false
           | Some q => accepts_loop D q string'
           end
  end.

Definition accepts (D : t) (string : string) : bool :=
  accepts_loop D (start_state D) (String.list_ascii_of_string string).

(** The transitions as a list of (state, symbol, target) triples. *)
Definition edges (D : t) : list (Q * string * Q) :=
  '(q, r) ← map_to_list (transitions D);
  '(symbol, q') ← map_to_list r;
  [(q, symbol, q')].

End DFA.
Arguments t Q {_ _}.
End DFA.

Section nfa_to_dfa.
Context `{Countable St}.

(** The body of [for symbol in nfa.alphabet] up to [if next_states]:
    [next_states] after the two nested loops over [current] and the targets. *)
Definition next_states (nfa : NFA.t St) (current : gset St) (symbol : string)
  : gset St :=
  fold_left
    (λ next_states state,
       match NFA.row nfa state !! symbol with
       | Some ts =>
           fold_left
             (λ next_states target,
                next_states ∪ NFA.epsilon_closure nfa {[target]})
             (elements ts) next_states
       | None => next_states
       end)
    (elements current) ∅.

(** The state of the construction loop:
    [(dfa_states, unmarked_states, dfa_transitions)]. *)
Definition dfa_build : Type :=
  gset (gset St) * list (gset St) * gmap (gset St) (gmap string (gset St)).

(** One iteration of [for symbol in nfa.alphabet]. *)
Definition symbol_step (nfa : NFA.t St) (current : gset St)
    (acc : dfa_build) (symbol : string) : dfa_build :=
  let '(dfa_states, unmarked_states, dfa_transitions) := acc in
  let next_states := next_states nfa current symbol in
  if decide (next_states ≠ ∅) then
    let dfa_transitions :=
      <[current := <[symbol := next_states]> (default ∅ (dfa_transitions !! current))]>
        dfa_transitions in
    if decide (next_states ∉ dfa_states)
    then ({[next_states]} ∪ dfa_states, next_states :: unmarked_states,
          dfa_transitions)
    else (dfa_states, unmarked_states, dfa_transitions)
  else acc.

(** [while unmarked_states: current = unmarked_states.pop(); ...] *)
Fixpoint nfa_to_dfa_loop (fuel : nat) (nfa : NFA.t St)
    (dfa_states : gset (gset St)) (unmarked_states : list (gset St))
    (dfa_transitions : gmap (gset St) (gmap string (gset St)))
  : option (gset (gset St) * gmap (gset St) (gmap string (gset St))) :=
  match unmarked_states with
  | [] => Some (dfa_states, dfa_transitions)
  | current :: unmarked_states' =>
      match fuel with
      | 0 => None
      | S fuel' =>
          let dfa_transitions := <[current := ∅]> dfa_transitions in
          let '(dfa_states', unmarked_states'', dfa_transitions') :=
            fold_left (symbol_step nfa current) (elements (NFA.alphabet nfa))
              (dfa_states, unmarked_states', dfa_transitions) in
          nfa_to_dfa_loop fuel' nfa dfa_states' unmarked_states'' dfa_transitions'
      end
  end.

(** [any(s in nfa.accept_states for s in state_set)] *)
Definition any_accepting (nfa : NFA.t St) (state_set : gset St) : bool :=
  existsb (λ s, bool_decide (s ∈ NFA.accept_states nfa)) (elements state_set).

(** The NFA states a DFA state can be made of. *)
Definition universe (nfa : NFA.t St) : gset St :=
  {[NFA.start_state nfa]} ∪ NFA.targets nfa.

(** Number of iterations of the construction loop that always suffices:
    one per subset of [universe nfa]. *)
Definition nfa_to_dfa_fuel (nfa : NFA.t St) : nat :=
  2 ^ size (universe nfa).

(** [None] only when the fuel runs out, which [nfa_to_dfa_fuel] excludes. *)
Definition nfa_to_dfa (nfa : NFA.t St) : option (DFA.t (gset St)) :=
  let start_closure := NFA.epsilon_closure nfa {[NFA.start_state nfa]} in
  '(dfa_states, dfa_transitions) ←
    nfa_to_dfa_loop (nfa_to_dfa_fuel nfa) nfa {[start_closure]} [start_closure] ∅;
  let dfa_accept_states :=
    filter (λ state_set, any_accepting nfa state_set = true) dfa_states in
  Some (DFA.mk dfa_states (NFA.alphabet nfa) dfa_transitions start_closure
          dfa_accept_states).

End nfa_to_dfa.

(** The example of the [__main__] block of nfa_to_dfa.py. *)
Definition example_nfa : NFA.t string :=
  NFA.mk {["q0"; "q1"; "q2"]} {["a"; "b"]}
    {[ "q0" := {[ "a" := {["q1"]} ]};
       "q1" := {[ "b" := {["q1"]}; "" := {["q2"]} ]} ]}
    "q0" {["q2"]}.

(** ** From a Thompson fragment to an [NFA] object *)

(** The string key of a transition label: [''] for epsilon, the
    one-character string otherwise. *)
Definition key (sym : RegexToNFA.symbol) : string :=
  match sym with
  | None => ""
  | Some c => String c ""
  end.

(** The edges of one state grouped by key. *)
Definition group (edges : list (RegexToNFA.symbol * nat)) : gmap string (gset nat) :=
  foldr (λ e m, <[key e.1 := {[e.2]} ∪ default ∅ (m !! key e.1)]> m) ∅ edges.

(** The keys of the characters that label some transition. *)
Definition labels (tr : gmap nat (list (RegexToNFA.symbol * nat))) : gset string :=
  ⋃ ((λ kv : nat * list (RegexToNFA.symbol * nat),
        list_to_set (e ← kv.2; match e.1 with Some c => [String c ""] | None => [] end))
       <$> map_to_list tr).

(** Modelled from the spec: the conversion of the tuple returned by
    [regex_to_NFA.build] into the [NFA] object that [nfa_to_dfa] consumes is
    not in the repository.  This is the NFA record of the data model: the same
    start state, accept set and transitions, the alphabet being the characters
    that label a transition. *)
Definition to_NFA (frag : RegexToNFA.fragment) : NFA.t nat :=
  let '(st, acc, tr) := frag in
  NFA.mk ({[st]} ∪ acc ∪ dom tr ∪ RegexToNFA.tr_targets tr) (labels tr)
    (group <$> tr) st acc.

(** An [NFA] object that is the same automaton as a fragment: same start
    state, accept set and transitions, and every character that labels a
    transition is in the alphabet. *)
Definition represents (frag : RegexToNFA.fragment) (N : NFA.t nat) : Prop :=
  NFA.start_state N = frag.1.1 ∧
  NFA.accept_states N = frag.1.2 ∧
  (∀ q sym d,
     d ∈ default ∅ (NFA.row N q !! key sym) ↔ (sym, d) ∈ RegexToNFA.tr_get frag.2 q) ∧
  (∀ q c d,
     (Some c, d) ∈ RegexToNFA.tr_get frag.2 q → String c "" ∈ NFA.alphabet N).

(** ** The worklist both closure functions run *)

Section worklist.
Context `{Countable A}.
Variable succ : A → list A.

Definition visit (acc : gset A * list A) (d : A) : gset A * list A :=
  let '(res, stk) := acc in
  if decide (d ∈ res) then (res, stk) else ({[d]} ∪ res, d :: stk).

Fixpoint worklist (fuel : nat) (res : gset A) (stk : list A) : option (gset A) :=
  match stk with
  | [] => Some res
  | s :: stk' =>
      match fuel with
      | 0 => None
      | S fuel' =>
          let '(res', stk'') := fold_left visit (succ s) (res, stk') in
          worklist fuel' res' stk''
      end
  end.

(** [y] is reached from a state of [X] by zero or more [succ] steps. *)
Definition reachable (X : gset A) (y : A) : Prop :=
  ∃ x, x ∈ X ∧ rtc (λ a b, b ∈ succ a) x y.

End worklist.

(** The epsilon successors of a state, in the order each loop visits them. *)
Definition eps_succ (tr : gmap nat (list (RegexToNFA.symbol * nat))) (s : nat)
  : list nat :=
  omap (λ e : RegexToNFA.symbol * nat,
          if decide (e.1 = RegexToNFA.EPS) then Some e.2 else None)
    (RegexToNFA.tr_get tr s).

Definition epsilon_succ `{Countable St} (N : NFA.t St) (state : St) : list St :=
  match NFA.row N state !! "" with
  | Some next => elements next
  | None => []
  end.

(** Python's [s.replace(c, '')]: every occurrence of [c] deleted. *)
Fixpoint delete_char (c : ascii) (s : string) : string :=
  match s with
  | EmptyString => EmptyString
  | String x s' => if decide (x = c) then delete_char c s' else String x (delete_char c s')
  end.

(** Every subset of the set of the elements of [l]; the termination measure
    of the construction loop counts the subsets not yet met. *)
Fixpoint subsets `{Countable A} (l : list A) : list (gset A) :=
  match l with
  | [] => [∅]
  | x :: l' => subsets l' ++ ((λ Y, {[x]} ∪ Y) <$> subsets l')
  end.

(** Invariants of the construction loop of [nfa_to_dfa]. *)
Section nfa_to_dfa_invariants.
Context `{Countable St}.
Variable nfa : NFA.t St.

(** The row of [T] is final: it maps exactly the symbols of [syms] on which
    [T] has a non-empty successor, each to that successor. *)
Definition row_complete (syms : list string) (r : gmap string (gset St))
    (T : gset St) : Prop :=
  ∀ c, r !! c =
       if decide (c ∈ syms ∧ next_states nfa T c ≠ ∅)
       then Some (next_states nfa T c) else None.

(** The state of [for symbol in nfa.alphabet] once the symbols [l] are done,
    started from [(ds0, um0, dt0)]. *)
Definition symbols_done (current : gset St) (ds0 : gset (gset St))
    (um0 : list (gset St)) (dt0 : gmap (gset St) (gmap string (gset St)))
    (l : list string) (b : dfa_build) : Prop :=
  ds0 ⊆ b.1.1 ∧
  (∀ T, T ∈ b.1.1 →
        T ∈ ds0 ∨ ∃ c, c ∈ l ∧ T = next_states nfa current c ∧ T ≠ ∅) ∧
  (∀ c, c ∈ l → next_states nfa current c ≠ ∅ → next_states nfa current c ∈ b.1.1) ∧
  (∃ new, b.1.2 = new ++ um0 ∧
          (∀ T, T ∈ new ↔ T ∈ b.1.1 ∧ T ∉ ds0) ∧
          size b.1.1 = length new + size ds0) ∧
  (∀ T, T ≠ current → b.2 !! T = dt0 !! T) ∧
  (∃ r, b.2 !! current = Some r ∧ row_complete l r current).

(** The state of the [while] loop: the unmarked states are DFA states, every
    other DFA state has its final row and its successors are DFA states, DFA
    states are made of states of the NFA, and only DFA states have a row. *)
Definition construction_inv (ds : gset (gset St)) (um : list (gset St))
    (dt : gmap (gset St) (gmap string (gset St))) : Prop :=
  (∀ T, T ∈ um → T ∈ ds) ∧
  (∀ T, T ∈ ds → T ∉ um →
        row_complete (elements (NFA.alphabet nfa)) (default ∅ (dt !! T)) T ∧
        ∀ c, c ∈ NFA.alphabet nfa → next_states nfa T c ≠ ∅ →
             next_states nfa T c ∈ ds) ∧
  (∀ T, T ∈ ds → T ⊆ universe nfa) ∧
  (∀ T, is_Some (dt !! T) → T ∈ ds).

End nfa_to_dfa_invariants.

(** ** Paths of an automaton *)

Section paths.
Context {St : Type}.
Variable step : St → option ascii → St → Prop.

(** [path q w q']: the automaton can go from [q] to [q'] along transitions
    whose labels, the epsilons left out, spell [w]. *)
Inductive path : St → list ascii → St → Prop :=
  | path_nil q : path q [] q
  | path_eps q d w q' : step q None d → path d w q' → path q w q'
  | path_sym q c d w q' : step q (Some c) d → path d w q' → path q (c :: w) q'.

End paths.

(** The transitions of a table: [(sym, d) in tr.get(q, [])]. *)
Definition tr_step (tr : gmap nat (list (RegexToNFA.symbol * nat)))
  : nat → option ascii → nat → Prop :=
  λ q sym d, (sym, d) ∈ RegexToNFA.tr_get tr q.

(** The transitions of an [NFA] object:
    [d in nfa.transitions.get(q, {}).get(key, set())]. *)
Definition nfa_step `{Countable St} (N : NFA.t St)
  : St → option ascii → St → Prop :=
  λ q sym d, ∃ ts, NFA.row N q !! key sym = Some ts ∧ d ∈ ts.

(** The words a fragment accepts: those that label a path from its start
    state to one of its accept states. *)
Definition language (nfa : RegexToNFA.fragment) (w : list ascii) : Prop :=
  ∃ f, f ∈ nfa.1.2 ∧ path (tr_step nfa.2) nfa.1.1 w f.

Definition nfa_language `{Countable St} (N : NFA.t St) (w : list ascii) : Prop :=
  ∃ f, f ∈ NFA.accept_states N ∧ path (nfa_step N) (NFA.start_state N) w f.

(** One step of the subset construction between sets of NFA states. *)
Definition subset_step `{Countable St} (N : NFA.t St) (T U : gset St) : Prop :=
  ∃ c, c ∈ NFA.alphabet N ∧ U = next_states N T c ∧ U ≠ ∅.

(** A set of NFA states closed under the epsilon transitions. *)
Definition eps_closed `{Countable St} (N : NFA.t St) (T : gset St) : Prop :=
  ∀ q d, q ∈ T → nfa_step N q None d → d ∈ T.

(** ** Kinds of pattern characters *)

(** Neither parenthesis. *)
Definition non_paren (c : ascii) : Prop := c ≠ "("%char ∧ c ≠ ")"%char.

(** A character [to_postfix] sends straight to the output: no parenthesis
    and no key of [prec]. *)
Definition is_literal (c : ascii) : Prop :=
  non_paren c ∧ RegexToNFA.prec c = None.

#[global] Instance non_paren_dec c : Decision (non_paren c).
Proof. unfold non_paren. apply _. Defined.

#[global] Instance is_literal_dec c : Decision (is_literal c).
Proof. unfold is_literal. apply _. Defined.

(** The postfix of a chain of concatenations: [c1 c2 . c3 . ...]. *)
Definition concat_chain (l : list ascii) : list ascii :=
  match l with
  | [] => []
  | c :: l' => c :: (l' ≫= λ x, [x; "."%char])
  end.

(** The infix of a chain of concatenations: [c1 . c2 . c3 ...]. *)
Definition dotted (l : list ascii) : list ascii :=
  match l with
  | [] => []
  | c :: l' => c :: (l' ≫= λ x, ["."%char; x])
  end.

(** ** The fragments [build] pushes *)

(** The four branches of the loop of [build], each as a function of the
    fragments it pops and of the counter. *)
Definition frag_lit (gen : nat) (t : ascii) : RegexToNFA.fragment :=
  (gen, {[S gen]}, {[gen := [(Some t, S gen)]]}).

Definition frag_cat (s1 s2 : RegexToNFA.fragment) : RegexToNFA.fragment :=
  (s1.1.1, s2.1.2,
   RegexToNFA.tr_merge
     (RegexToNFA.tr_extend_all s1.2 s1.1.2 [(RegexToNFA.EPS, s2.1.1)]) s2.2).

Definition frag_alt (gen : nat) (s1 s2 : RegexToNFA.fragment) : RegexToNFA.fragment :=
  (gen, {[S gen]},
   RegexToNFA.tr_extend_all
     (RegexToNFA.tr_extend
        (RegexToNFA.tr_merge (RegexToNFA.tr_merge ∅ s1.2) s2.2) gen
        [(RegexToNFA.EPS, s1.1.1); (RegexToNFA.EPS, s2.1.1)])
     (s1.1.2 ∪ s2.1.2) [(RegexToNFA.EPS, S gen)]).

(** For ['*'] and ['+'] alike. *)
Definition frag_star (gen : nat) (s : RegexToNFA.fragment) : RegexToNFA.fragment :=
  (gen, {[S gen]},
   RegexToNFA.tr_extend
     (RegexToNFA.tr_extend_all
        (RegexToNFA.tr_extend (RegexToNFA.tr_merge ∅ s.2) gen
           [(RegexToNFA.EPS, s.1.1)])
        s.1.2 [(RegexToNFA.EPS, s.1.1); (RegexToNFA.EPS, S gen)])
     gen [(RegexToNFA.EPS, S gen)]).

Definition frag_opt (gen : nat) (s : RegexToNFA.fragment) : RegexToNFA.fragment :=
  (gen, {[S gen]},
   RegexToNFA.tr_extend_all
     (RegexToNFA.tr_extend (RegexToNFA.tr_merge ∅ s.2) gen
        [(RegexToNFA.EPS, s.1.1); (RegexToNFA.EPS, S gen)])
     s.1.2 [(RegexToNFA.EPS, S gen)]).

(** A token that [build] takes for a symbol: anything but the five
    operators, parentheses included. *)
Definition is_operand (t : ascii) : Prop :=
  t ≠ "."%char ∧ t ≠ "|"%char ∧ char_in t "*+?" = false.

#[global] Instance is_operand_dec t : Decision (is_operand t).
Proof. unfold is_operand. apply _. Defined.

(** The height of the stack of [build] after a token, [None] when the token
    pops more fragments than the stack holds. *)
Definition arity_step (h : nat) (t : ascii) : option nat :=
  if decide (t = "."%char ∨ t = "|"%char)
  then (if decide (2 ≤ h) then Some (h - 1) else None)
  else if char_in t "*+?" then (if decide (1 ≤ h) then Some h else None)
  else Some (S h).

Fixpoint arity_loop (h : nat) (postfix : list ascii) : option nat :=
  match postfix with
  | [] => Some h
  | t :: postfix' =>
      match arity_step h t with
      | Some h' => arity_loop h' postfix'
      | None => None
      end
  end.

(** A fragment whose states are all in [[lo, hi)] and that has one accept
    state. *)
Definition fragment_in (lo hi : nat) (nfa : RegexToNFA.fragment) : Prop :=
  lo ≤ nfa.1.1 < hi ∧
  (∃ f, nfa.1.2 = {[f]} ∧ lo ≤ f < hi) ∧
  (∀ q sym d, tr_step nfa.2 q sym d → lo ≤ q < hi ∧ lo ≤ d < hi).

(** The stack of [build]: each fragment has its own range of states, the
    ranges stacked in the order of the fragments, below the counter. *)
Fixpoint stack_in (hi : nat) (stack : list RegexToNFA.fragment) : Prop :=
  match stack with
  | [] => True
  | nfa :: stack' => ∃ lo, fragment_in lo hi nfa ∧ stack_in lo stack'
  end.

(** ** Regular expressions *)

(** The patterns without ['+']. *)
Inductive regex : Type :=
  | Lit (c : ascii)
  | Cat (e1 e2 : regex)
  | Alt (e1 e2 : regex)
  | Star (e : regex)
  | Opt (e : regex).

(** The postfix sequence of a regular expression. *)
Fixpoint postfix_of (e : regex) : list ascii :=
  match e with
  | Lit c => [c]
  | Cat e1 e2 => postfix_of e1 ++ postfix_of e2 ++ ["."%char]
  | Alt e1 e2 => postfix_of e1 ++ postfix_of e2 ++ ["|"%char]
  | Star e => postfix_of e ++ ["*"%char]
  | Opt e => postfix_of e ++ ["?"%char]
  end.

(** The number of states the builder allocates for it is twice this. *)
Fixpoint regex_size (e : regex) : nat :=
  match e with
  | Lit _ => 1
  | Cat e1 e2 => regex_size e1 + regex_size e2
  | Alt e1 e2 => S (regex_size e1 + regex_size e2)
  | Star e | Opt e => S (regex_size e)
  end.

(** Every symbol of the expression is a token [build] takes for a symbol. *)
Fixpoint regex_ok (e : regex) : Prop :=
  match e with
  | Lit c => is_operand c
  | Cat e1 e2 | Alt e1 e2 => regex_ok e1 ∧ regex_ok e2
  | Star e | Opt e => regex_ok e
  end.

(** The words a regular expression denotes. *)
Fixpoint denotes (e : regex) (w : list ascii) : Prop :=
  match e with
  | Lit c => w = [c]
  | Cat e1 e2 => ∃ w1 w2, w = w1 ++ w2 ∧ denotes e1 w1 ∧ denotes e2 w2
  | Alt e1 e2 => denotes e1 w ∨ denotes e2 w
  | Star e => ∃ ws, w = concat ws ∧ Forall (denotes e) ws
  | Opt e => w = [] ∨ denotes e w
  end.

(** Every symbol of the expression is a literal of the pattern syntax. *)
Fixpoint regex_plain (e : regex) : Prop :=
  match e with
  | Lit c => is_literal c
  | Cat e1 e2 | Alt e1 e2 => regex_plain e1 ∧ regex_plain e2
  | Star e | Opt e => regex_plain e
  end.

(** The pattern of an expression, a pair of parentheses around every
    concatenation and every alternation. *)
Fixpoint show (e : regex) : list ascii :=
  match e with
  | Lit c => [c]
  | Cat e1 e2 => ["("%char] ++ show e1 ++ show e2 ++ [")"%char]
  | Alt e1 e2 => ["("%char] ++ show e1 ++ ["|"%char] ++ show e2 ++ [")"%char]
  | Star e => show e ++ ["*"%char]
  | Opt e => show e ++ ["?"%char]
  end.

(** The same pattern with the concatenation markers. *)
Fixpoint show_marked (e : regex) : list ascii :=
  match e with
  | Lit c => [c]
  | Cat e1 e2 =>
      ["("%char] ++ show_marked e1 ++ ["."%char] ++ show_marked e2 ++ [")"%char]
  | Alt e1 e2 =>
      ["("%char] ++ show_marked e1 ++ ["|"%char] ++ show_marked e2 ++ [")"%char]
  | Star e => show_marked e ++ ["*"%char]
  | Opt e => show_marked e ++ ["?"%char]
  end.

(** The last character of [show e]. *)
Definition last_char (e : regex) : ascii :=
  match e with
  | Lit c => c
  | Cat _ _ | Alt _ _ => ")"%char
  | Star _ => "*"%char
  | Opt _ => "?"%char
  end.

(** The marker [add_concat] puts before a symbol or an opening parenthesis
    that follows [prev]. *)
Definition marker_after (prev : option ascii) : list ascii :=
  match prev with
  | Some p => if char_in p "|(" then [] else ["."%char]
  | None => []
  end.

(** The quantifier of an expression, which [to_postfix] leaves on the
    operator stack until the next operator, and the rest of its postfix. *)
Definition pending (e : regex) : list ascii :=
  match e with
  | Star _ => ["*"%char]
  | Opt _ => ["?"%char]
  | _ => []
  end.

Definition emitted (e : regex) : list ascii :=
  match e with
  | Star e' | Opt e' => postfix_of e'
  | _ => postfix_of e
  end.

(** An operator stack with no quantifier on top. *)
Definition quiet (st : list ascii) : Prop :=
  ∀ x, head st = Some x → x = "("%char ∨ default 0 (RegexToNFA.prec x) < 3.

(** ** Patterns with the usual precedences *)

(** The precedence of the operator at the root of an expression, as in the
    table [prec]; a symbol binds tightest. *)
Definition prec_of (e : regex) : nat :=
  match e with
  | Alt _ _ => 1
  | Cat _ _ => 2
  | Star _ | Opt _ => 3
  | Lit _ => 4
  end.

Definition wrap (b : bool) (body : list ascii) : list ascii :=
  if b then ["("%char] ++ body ++ [")"%char] else body.

(** The pattern of an expression where a precedence of at least [l] is
    expected: parentheses only where the precedences require them, the binary
    operators associating to the left. *)
Fixpoint pattern (l : nat) (e : regex) : list ascii :=
  wrap (bool_decide (prec_of e < l))
    match e with
    | Lit c => [c]
    | Alt e1 e2 => pattern 1 e1 ++ ["|"%char] ++ pattern 2 e2
    | Cat e1 e2 => pattern 2 e1 ++ pattern 3 e2
    | Star e' => pattern 3 e' ++ ["*"%char]
    | Opt e' => pattern 3 e' ++ ["?"%char]
    end.

(** The same pattern with the concatenation markers. *)
Fixpoint pattern_marked (l : nat) (e : regex) : list ascii :=
  wrap (bool_decide (prec_of e < l))
    match e with
    | Lit c => [c]
    | Alt e1 e2 => pattern_marked 1 e1 ++ ["|"%char] ++ pattern_marked 2 e2
    | Cat e1 e2 => pattern_marked 2 e1 ++ ["."%char] ++ pattern_marked 3 e2
    | Star e' => pattern_marked 3 e' ++ ["*"%char]
    | Opt e' => pattern_marked 3 e' ++ ["?"%char]
    end.

(** The last character of [pattern l e]. *)
Fixpoint pattern_last (l : nat) (e : regex) : ascii :=
  if bool_decide (prec_of e < l) then ")"%char
  else match e with
       | Lit c => c
       | Alt _ e2 => pattern_last 2 e2
       | Cat _ e2 => pattern_last 3 e2
       | Star _ => "*"%char
       | Opt _ => "?"%char
       end.

(** The operators of [pattern_marked l e] that [to_postfix] still holds on
    its stack when the pattern ends, the top first, and what it has emitted by
    then. *)
Fixpoint pattern_pending (l : nat) (e : regex) : list ascii :=
  if bool_decide (prec_of e < l) then []
  else match e with
       | Lit _ => []
       | Alt _ e2 => pattern_pending 2 e2 ++ ["|"%char]
       | Cat _ e2 => pattern_pending 3 e2 ++ ["."%char]
       | Star _ => ["*"%char]
       | Opt _ => ["?"%char]
       end.

Fixpoint pattern_emitted (l : nat) (e : regex) : list ascii :=
  if bool_decide (prec_of e < l) then postfix_of e
  else match e with
       | Lit c => [c]
       | Alt e1 e2 => postfix_of e1 ++ pattern_emitted 2 e2
       | Cat e1 e2 => postfix_of e1 ++ pattern_emitted 3 e2
       | Star e' | Opt e' => postfix_of e'
       end.

(** An operator stack whose top, if any, binds less than [l]. *)
Definition calm (l : nat) (st : list ascii) : Prop :=
  ∀ x, head st = Some x → default 0 (RegexToNFA.prec x) < l.

(** * Properties *)

(** ** Finite sets *)

Section set_facts.
Context `{Countable A}.

Lemma size_difference_fresh (U X : gset A) (x : A) :
  x ∈ U → x ∉ X → size (U ∖ X) = S (size (U ∖ ({[x]} ∪ X))).
Proof.
  intros HU HX.
  assert (U ∖ X = {[x]} ∪ U ∖ ({[x]} ∪ X)) as ->.
  { apply set_eq. intros y. destruct (decide (y = x)); set_solver. }
  rewrite size_union by set_solver. by rewrite size_singleton.
Qed.

Lemma size_insert_fresh (X : gset A) (x : A) :
  x ∉ X → size ({[x]} ∪ X) = S (size X).
Proof. intros. rewrite size_union by set_solver. by rewrite size_singleton. Qed.

Lemma size_split (U X : gset A) : size (X ∪ U) = size X + size (U ∖ X).
Proof.
  assert (X ∪ U = X ∪ U ∖ X) as ->.
  { apply set_eq. intros y. destruct (decide (y ∈ X)); set_solver. }
  apply size_union. set_solver.
Qed.

Lemma size_list_to_set_le (l : list A) : size (list_to_set l : gset A) ≤ length l.
Proof.
  induction l as [|x l IH]; [by rewrite list_to_set_nil, size_empty|].
  rewrite list_to_set_cons, length_cons, size_union_alt, size_singleton.
  assert (size (list_to_set l ∖ {[x]} : gset A) ≤ size (list_to_set l : gset A))
    by (apply subseteq_size; set_solver).
  lia.
Qed.

End set_facts.

Section subsets_facts.
Context `{Countable A}.

Lemma length_subsets (l : list A) : length (subsets l) = 2 ^ length l.
Proof.
  induction l as [|x l IH]; [done|].
  simpl. rewrite length_app, length_fmap, IH. lia.
Qed.

Lemma elem_of_subsets (l : list A) (Y : gset A) :
  Y ⊆ list_to_set l → Y ∈ subsets l.
Proof.
  revert Y. induction l as [|x l IH]; intros Y HY; simpl in *.
  - assert (Y = ∅) as -> by set_solver. by apply list_elem_of_singleton.
  - apply elem_of_app. destruct (decide (x ∈ Y)) as [Hx|Hx].
    + right. apply list_elem_of_fmap. exists (Y ∖ {[x]}). split.
      * apply set_eq. intros y. destruct (decide (y = x)); set_solver.
      * apply IH. set_solver.
    + left. apply IH. set_solver.
Qed.

(** A family of subsets of [U] has at most [2 ^ size U] members. *)
Lemma size_family_le (U : gset A) (F : gset (gset A)) :
  (∀ Y, Y ∈ F → Y ⊆ U) → size F ≤ 2 ^ size U.
Proof.
  intros HF.
  trans (size (list_to_set (subsets (elements U)) : gset (gset A))).
  - apply subseteq_size. intros Y HY. apply elem_of_list_to_set, elem_of_subsets.
    intros y Hy. apply elem_of_list_to_set, elem_of_elements. by apply (HF Y).
  - etrans; [apply size_list_to_set_le|]. by rewrite length_subsets.
Qed.

End subsets_facts.

(** ** The worklist *)

Section worklist_facts.
Context `{Countable A}.
Variable succ : A → list A.
Implicit Types (res r X : gset A) (stk : list A).

Local Abbreviation edge := (λ a b : A, b ∈ succ a).

(** The inner loop adds the targets it has not seen to the result and pushes
    exactly those, once each. *)
Lemma visit_fold l res stk :
  ∃ new,
    fold_left visit l (res, stk) = (list_to_set l ∪ res, new ++ stk) ∧
    (∀ x, x ∈ new → x ∈ l ∧ x ∉ res) ∧
    size (list_to_set l ∪ res) = length new + size res.
Proof.
  revert res stk. induction l as [|d l IH]; intros res stk; simpl.
  - exists []. split_and!; [f_equal; set_solver | set_solver | ].
    simpl. f_equal. set_solver.
  - destruct (decide (d ∈ res)) as [Hd|Hd].
    + destruct (IH res stk) as (new & -> & Hnew & Hsz).
      exists new. split_and!.
      * f_equal. set_solver.
      * intros x Hx. destruct (Hnew x Hx). set_solver.
      * rewrite <- Hsz. f_equal. set_solver.
    + destruct (IH ({[d]} ∪ res) (d :: stk)) as (new & -> & Hnew & Hsz).
      exists (new ++ [d]). split_and!.
      * f_equal; [set_solver | by rewrite <- app_assoc].
      * intros x [Hx| ->%list_elem_of_singleton]%elem_of_app; [|set_solver].
        destruct (Hnew x Hx). set_solver.
      * transitivity (size (list_to_set l ∪ ({[d]} ∪ res))); [f_equal; set_solver|].
        rewrite Hsz, size_insert_fresh, length_app by done. simpl. lia.
Qed.

(** The result contains the seed. *)
Lemma worklist_extensive fuel res stk r :
  worklist succ fuel res stk = Some r → res ⊆ r.
Proof.
  revert res stk. induction fuel as [|fuel IH]; intros res [|s stk] Hr;
    simpl in Hr; simplify_eq; try done.
  destruct (visit_fold (succ s) res stk) as (new & Hf & _ & _).
  rewrite Hf in Hr. apply IH in Hr. set_solver.
Qed.

(** The result is closed under [succ] and holds nothing unreachable, when the
    states of the result that are not on the stack have been expanded. *)
Lemma worklist_sound fuel res stk r :
  worklist succ fuel res stk = Some r →
  (∀ x, x ∈ stk → x ∈ res) →
  (∀ x y, x ∈ res → x ∉ stk → edge x y → y ∈ res) →
  (∀ x y, x ∈ r → edge x y → y ∈ r) ∧ (∀ y, y ∈ r → reachable succ res y).
Proof.
  revert res stk. induction fuel as [|fuel IH]; intros res [|s stk] Hr Hstk Hexp;
    simpl in Hr; simplify_eq.
  - split; [intros x y Hx; apply Hexp; set_solver|].
    intros y Hy. exists y. split; [done | apply rtc_refl].
  - split; [intros x y Hx; apply Hexp; set_solver|].
    intros y Hy. exists y. split; [done | apply rtc_refl].
  - destruct (visit_fold (succ s) res stk) as (new & Hf & Hnew & _).
    rewrite Hf in Hr. apply IH in Hr as [Hclosed Hreach].
    + split; [done|]. intros y Hy.
      destruct (Hreach y Hy) as (x & Hx & Hxy).
      apply elem_of_union in Hx as [Hx|Hx]; [|by exists x].
      apply elem_of_list_to_set in Hx.
      exists s. split; [apply Hstk; left | by eapply rtc_l].
    + intros x [Hx|Hx]%elem_of_app.
      * destruct (Hnew x Hx). set_solver.
      * apply elem_of_union_r, Hstk. by right.
    + intros x y Hx Hnotin Hxy.
      destruct (decide (x = s)) as [->|Hne]; [set_solver|].
      apply elem_of_union in Hx as [Hx|Hx].
      * apply elem_of_list_to_set in Hx.
        destruct (decide (x ∈ res)) as [Hin|Hout].
        -- apply elem_of_union_r. apply (Hexp x); [done| |done].
           intros [|]%elem_of_cons; [done|]. apply Hnotin. set_solver.
        -- exfalso. apply Hnotin. apply elem_of_app. left.
           (* a fresh target was pushed *)
           clear -Hf Hx Hout. revert res stk new Hf Hout.
           induction (succ s) as [|d l IHl]; intros res stk new Hf Hout;
             [by apply elem_of_nil in Hx|].
           simpl in Hf. destruct (decide (d ∈ res)).
           ++ apply elem_of_cons in Hx as [->|Hx]; [done|].
              eapply IHl; [done| |done].
              rewrite Hf. f_equal. set_solver.
           ++ destruct (visit_fold l ({[d]} ∪ res) (d :: stk)) as (new' & Hf' & _).
              rewrite Hf' in Hf. injection Hf as _ Hnew.
              assert (new = new' ++ [d]) as ->.
              { apply (app_inv_tail stk). by rewrite <- app_assoc. }
              apply elem_of_cons in Hx as [->|Hx]; [set_solver|].
              destruct (decide (x = d)) as [->|]; [set_solver|].
              apply elem_of_app. left.
              eapply (IHl Hx ({[d]} ∪ res) (d :: stk)); [|set_solver].
              rewrite Hf'. done.
      * apply elem_of_union_r. apply (Hexp x); [done| |done].
        intros [|]%elem_of_cons; [done|]. apply Hnotin. set_solver.
Qed.

(** One iteration per state on the stack and per state of [U] not yet in the
    result is enough fuel. *)
Lemma worklist_terminates (U : gset A) fuel res stk :
  (∀ x y, edge x y → y ∈ U) →
  length stk + size (U ∖ res) ≤ fuel →
  is_Some (worklist succ fuel res stk).
Proof.
  intros HU. revert res stk.
  induction fuel as [|fuel IH]; intros res [|s stk] Hle; simpl in *;
    eauto; try lia.
  destruct (visit_fold (succ s) res stk) as (new & -> & Hnew & Hsz).
  apply IH. rewrite length_app.
  pose proof (size_split U res) as H1.
  pose proof (size_split U (list_to_set (succ s) ∪ res)) as H2.
  assert (list_to_set (succ s) ∪ res ∪ U = res ∪ U) as Heq.
  { apply set_eq. intros y. rewrite !elem_of_union, elem_of_list_to_set.
    specialize (HU s y). tauto. }
  rewrite Heq in H2. lia.
Qed.

(** The loop takes one iteration per state on the stack and per state it
    adds to the result, no more and no fewer. *)
Lemma worklist_fuel_exact fuel m res stk r :
  worklist succ m res stk = Some r →
  worklist succ fuel res stk =
    if decide (length stk + size r ≤ fuel + size res) then Some r else None.
Proof.
  revert m res stk. induction fuel as [|fuel IH]; intros m res [|s stk] Hm.
  - destruct m; simpl in *; simplify_eq; rewrite decide_True; [done|lia| done |lia].
  - pose proof (subseteq_size _ _ (worklist_extensive _ _ _ _ Hm)).
    simpl. rewrite decide_False; [done | lia].
  - destruct m; simpl in *; simplify_eq; rewrite decide_True; [done|lia| done |lia].
  - destruct m as [|m]; [done|]. simpl in *.
    destruct (visit_fold (succ s) res stk) as (new & Hf & _ & Hsz).
    rewrite Hf in *. rewrite (IH _ _ _ Hm), length_app, Hsz.
    repeat case_decide; (done || lia).
Qed.

(** Started from a set, the loop computes its closure, in as many iterations
    as the closure has states. *)
Lemma worklist_closure (U X : gset A) :
  (∀ x y, edge x y → y ∈ U) →
  ∃ r,
    worklist succ (size (X ∪ U)) X (reverse (elements X)) = Some r ∧
    (∀ y, y ∈ r ↔ reachable succ X y) ∧
    (∀ fuel,
       worklist succ fuel X (reverse (elements X)) =
         if decide (size r ≤ fuel) then Some r else None).
Proof.
  intros HU.
  assert (length (reverse (elements X)) = size X) as Hlen
    by (by rewrite length_reverse).
  destruct (worklist_terminates U (size (X ∪ U)) X (reverse (elements X)) HU)
    as [r Hr].
  { rewrite Hlen, size_split. done. }
  exists r. split; [done|]. split.
  - pose proof (worklist_extensive _ _ _ _ Hr) as Hext.
    destruct (worklist_sound _ _ _ _ Hr) as [Hclosed Hreach].
    { intros x. rewrite elem_of_reverse, elem_of_elements. done. }
    { intros x y Hx Hn. exfalso. apply Hn.
      by rewrite elem_of_reverse, elem_of_elements. }
    intros y. split; [apply Hreach|].
    intros (x & Hx & Hxy). apply Hext in Hx.
    induction Hxy as [|a b c Hab _ IHc]; [done|]. apply IHc. by eapply Hclosed.
  - intros fuel. rewrite (worklist_fuel_exact fuel _ _ _ _ Hr), Hlen.
    repeat case_decide; (done || lia).
Qed.

(** Reachability is a closure operator. *)
Lemma reachable_seed X x : x ∈ X → reachable succ X x.
Proof. intros Hx. exists x. split; [done | apply rtc_refl]. Qed.

Lemma reachable_trans X Y y :
  (∀ x, x ∈ Y → reachable succ X x) → reachable succ Y y → reachable succ X y.
Proof.
  intros HY (x & Hx & Hxy). destruct (HY x Hx) as (x0 & Hx0 & Hx0x).
  exists x0. split; [done | by etrans].
Qed.

(** A reachable state is a seed or the target of an edge. *)
Lemma reachable_inv (U X : gset A) y :
  (∀ x y, edge x y → y ∈ U) → reachable succ X y → y ∈ X ∪ U.
Proof.
  intros HU (x & Hx & Hxy). apply rtc_inv_r in Hxy as [<-|(z & _ & Hzy)].
  - set_solver.
  - apply elem_of_union_r. by eapply HU.
Qed.

End worklist_facts.

(** ** Both closure functions are the worklist *)

Section eps_closure_facts.
Import RegexToNFA.
Implicit Types (tr : table) (res states : gset nat) (stk : list nat).

Lemma eps_visit_fold (l : list (symbol * nat)) (acc : gset nat * list nat) :
  fold_left eps_visit l acc =
  fold_left visit
    (omap (λ e : symbol * nat, if decide (e.1 = EPS) then Some e.2 else None) l) acc.
Proof.
  revert acc. induction l as [|[sym d] l IH]; intros [res stk]; [done|].
  unfold EPS in *. destruct sym as [c|]; simpl.
  - apply IH.
  - rewrite <- IH. f_equal. destruct (decide (d ∈ res)).
    + rewrite decide_False; [done | by intros [_ ?]].
    + by rewrite decide_True.
Qed.

Lemma eps_closure_loop_worklist fuel tr res stk :
  eps_closure_loop fuel tr res stk = worklist (eps_succ tr) fuel res stk.
Proof.
  revert res stk. induction fuel as [|fuel IH]; intros res [|s stk]; try done.
  simpl. unfold eps_succ. rewrite <- eps_visit_fold.
  destruct (fold_left eps_visit (tr_get tr s) (res, stk)). apply IH.
Qed.

Lemma elem_of_tr_get tr s e :
  e ∈ tr_get tr s ↔ ∃ l, tr !! s = Some l ∧ e ∈ l.
Proof.
  unfold tr_get. destruct (tr !! s) as [l|]; simpl.
  - split; [eauto | by intros (? & [= <-] & ?)].
  - split; [by intros ?%elem_of_nil | by intros (? & ? & _)].
Qed.

Lemma elem_of_tr_targets tr s sym d : (sym, d) ∈ tr_get tr s → d ∈ tr_targets tr.
Proof.
  intros (l & Hl & Hd)%elem_of_tr_get. unfold tr_targets.
  apply elem_of_union_list. exists (list_to_set l.*2). split.
  - apply list_elem_of_fmap. exists (s, l). split; [done|].
    by apply elem_of_map_to_list.
  - apply elem_of_list_to_set, list_elem_of_fmap. by exists (sym, d).
Qed.

Lemma elem_of_eps_succ tr s d : d ∈ eps_succ tr s ↔ (EPS, d) ∈ tr_get tr s.
Proof.
  unfold eps_succ. rewrite list_elem_of_omap. split.
  - intros ([sym d'] & He & Hd). simpl in Hd. case_decide; simplify_eq. done.
  - intros He. exists (EPS, d). by rewrite decide_True.
Qed.

Lemma eps_succ_targets tr x y : y ∈ eps_succ tr x → y ∈ tr_targets tr.
Proof. intros ?%elem_of_eps_succ. by eapply elem_of_tr_targets. Qed.

(** [eps_closure] is the set of states reachable over epsilon transitions. *)
Lemma eps_closure_spec states tr y :
  y ∈ eps_closure states tr ↔ reachable (eps_succ tr) states y.
Proof.
  destruct (worklist_closure (eps_succ tr) (tr_targets tr) states
              (eps_succ_targets tr)) as (r & Hr & Hspec & _).
  unfold eps_closure, eps_closure_fuel.
  rewrite eps_closure_loop_worklist, Hr. apply Hspec.
Qed.

Lemma eps_closure_empty tr : eps_closure ∅ tr = ∅.
Proof.
  apply set_eq. intros y. rewrite eps_closure_spec.
  split; [intros (x & Hx & _) | intros Hy]; set_solver.
Qed.

Lemma elem_of_move states ch tr d :
  d ∈ move states ch tr ↔ ∃ s, s ∈ states ∧ (Some ch, d) ∈ tr_get tr s.
Proof.
  unfold move. rewrite elem_of_list_to_set, list_elem_of_bind. split.
  - intros (s & (e & Hd & He)%list_elem_of_bind & Hs%elem_of_elements).
    exists s. split; [done|]. destruct e as [sym d']. simpl in *.
    case_decide; [|by apply elem_of_nil in Hd].
    apply list_elem_of_singleton in Hd. by simplify_eq.
  - intros (s & Hs & He). exists s. split; [|by apply elem_of_elements].
    apply list_elem_of_bind. exists (Some ch, d). split; [|done].
    simpl. rewrite decide_True by done. by apply list_elem_of_singleton.
Qed.

End eps_closure_facts.

Section epsilon_closure_facts.
Context `{Countable St}.
Implicit Types (N : NFA.t St) (X closure : gset St) (stack : list St).

Lemma epsilon_visit_fold (l : list St) (acc : gset St * list St) :
  fold_left NFA.epsilon_visit l acc = fold_left visit l acc.
Proof.
  revert acc. induction l as [|d l IH]; intros [closure stack]; [done|].
  simpl. rewrite <- IH. f_equal.
  destruct (decide (d ∈ closure)).
  - rewrite decide_False; [done | by intros ?].
  - by rewrite decide_True.
Qed.

Lemma epsilon_closure_loop_worklist fuel N closure stack :
  NFA.epsilon_closure_loop fuel N closure stack =
  worklist (epsilon_succ N) fuel closure stack.
Proof.
  revert closure stack.
  induction fuel as [|fuel IH]; intros closure [|state stack]; try done.
  simpl. unfold epsilon_succ. destruct (NFA.row N state !! "") as [next|].
  - rewrite <- epsilon_visit_fold.
    destruct (fold_left NFA.epsilon_visit (elements next) (closure, stack)).
    apply IH.
  - simpl. apply IH.
Qed.

Lemma elem_of_row N state symbol ts :
  NFA.row N state !! symbol = Some ts ↔
  ∃ r, NFA.transitions N !! state = Some r ∧ r !! symbol = Some ts.
Proof.
  unfold NFA.row. destruct (NFA.transitions N !! state) as [r|]; simpl.
  - split; [eauto | by intros (? & [= <-] & ?)].
  - rewrite lookup_empty. split; [done | by intros (? & ? & _)].
Qed.

Lemma elem_of_targets N state symbol ts d :
  NFA.row N state !! symbol = Some ts → d ∈ ts → d ∈ NFA.targets N.
Proof.
  intros (r & Hr & Hts)%elem_of_row Hd. unfold NFA.targets.
  apply elem_of_union_list. exists ts. split; [|done].
  apply list_elem_of_bind. exists r. split.
  - apply list_elem_of_fmap. exists (symbol, ts). split; [done|].
    by apply elem_of_map_to_list.
  - apply list_elem_of_fmap. exists (state, r). split; [done|].
    by apply elem_of_map_to_list.
Qed.

Lemma elem_of_epsilon_succ N state d :
  d ∈ epsilon_succ N state ↔ ∃ ts, NFA.row N state !! "" = Some ts ∧ d ∈ ts.
Proof.
  unfold epsilon_succ. destruct (NFA.row N state !! "") as [next|].
  - rewrite elem_of_elements. split; [eauto | by intros (? & [= <-] & ?)].
  - split; [by intros ?%elem_of_nil | by intros (? & ? & _)].
Qed.

Lemma epsilon_succ_targets N x y : y ∈ epsilon_succ N x → y ∈ NFA.targets N.
Proof. intros (ts & Hts & Hy)%elem_of_epsilon_succ. by eapply elem_of_targets. Qed.

(** [NFA.epsilon_closure] is the set of states reachable over [''] edges. *)
Lemma epsilon_closure_spec N X y :
  y ∈ NFA.epsilon_closure N X ↔ reachable (epsilon_succ N) X y.
Proof.
  destruct (worklist_closure (epsilon_succ N) (NFA.targets N) X
              (epsilon_succ_targets N)) as (r & Hr & Hspec & _).
  unfold NFA.epsilon_closure, NFA.epsilon_closure_fuel.
  rewrite epsilon_closure_loop_worklist, Hr. apply Hspec.
Qed.

End epsilon_closure_facts.

(** ** Subset construction *)

Section nfa_to_dfa_facts.
Context `{Countable St}.
Variable nfa : NFA.t St.
Implicit Types (T current : gset St) (c symbol : string) (ds : gset (gset St)).
Implicit Types (um : list (gset St)) (dt : gmap (gset St) (gmap string (gset St))).

Lemma elem_of_fold_left_union {B} (F : gset St → B → gset St)
    (P : B → St → Prop) (l : list B) (init : gset St) (y : St) :
  (∀ a b z, z ∈ F a b ↔ z ∈ a ∨ P b z) →
  y ∈ fold_left F l init ↔ y ∈ init ∨ ∃ b, b ∈ l ∧ P b y.
Proof.
  intros HF. revert init. induction l as [|b l IH]; intros init; simpl.
  - split; [by left | intros [?|(b & Hb & _)]; [done | by apply elem_of_nil in Hb]].
  - rewrite IH, HF. split.
    + intros [[?|?]|(b' & Hb' & ?)]; [by left | | ].
      * right. exists b. split; [left | done].
      * right. exists b'. split; [by right | done].
    + intros [?|(b' & [->|Hb']%elem_of_cons & ?)]; eauto.
Qed.

(** [next_states] is the union of the closures of the targets. *)
Lemma elem_of_next_states T c y :
  y ∈ next_states nfa T c ↔
  ∃ state ts target,
    state ∈ T ∧ NFA.row nfa state !! c = Some ts ∧ target ∈ ts ∧
    y ∈ NFA.epsilon_closure nfa {[target]}.
Proof.
  unfold next_states.
  rewrite (elem_of_fold_left_union _
    (λ state z, ∃ ts target, NFA.row nfa state !! c = Some ts ∧ target ∈ ts ∧
                             z ∈ NFA.epsilon_closure nfa {[target]})).
  - split.
    + intros [?|(state & Hs%elem_of_elements & ts & target & ?)]; [set_solver|].
      eauto 10.
    + intros (state & ts & target & ? & ?). right. exists state.
      rewrite elem_of_elements. eauto 10.
  - intros a state z. destruct (NFA.row nfa state !! c) as [ts|].
    + rewrite (elem_of_fold_left_union _
        (λ target z, z ∈ NFA.epsilon_closure nfa {[target]}));
        [|intros; set_solver].
      split.
      * intros [?|(target & Ht%elem_of_elements & ?)]; eauto 10.
      * intros [?|(ts' & target & [= <-] & ? & ?)]; [by left|].
        right. exists target. by rewrite elem_of_elements.
    + split; [by left|]. by intros [?|(? & ? & ? & _)].
Qed.

Lemma next_states_universe T c : next_states nfa T c ⊆ universe nfa.
Proof.
  intros y (state & ts & target & _ & Hts & Ht & Hy)%elem_of_next_states.
  apply epsilon_closure_spec in Hy.
  apply (reachable_inv _ (NFA.targets nfa)) in Hy;
    [|apply epsilon_succ_targets].
  pose proof (elem_of_targets _ _ _ _ _ Hts Ht). unfold universe. set_solver.
Qed.

Lemma start_closure_universe :
  NFA.epsilon_closure nfa {[NFA.start_state nfa]} ⊆ universe nfa.
Proof.
  intros y Hy%epsilon_closure_spec.
  apply (reachable_inv _ (NFA.targets nfa)) in Hy;
    [|apply epsilon_succ_targets].
  unfold universe. set_solver.
Qed.

Lemma symbols_done_nil current ds um dt :
  symbols_done nfa current ds um (<[current := ∅]> dt) []
    (ds, um, <[current := ∅]> dt).
Proof.
  unfold symbols_done; simpl. split_and!; try done.
  - by left.
  - by intros c ?%elem_of_nil.
  - exists []. split_and!; [done| |done]. intros T. split; [by intros ?%elem_of_nil|].
    by intros [? ?].
  - exists ∅. split; [by rewrite lookup_insert_eq|].
    intros c. rewrite lookup_empty, decide_False; [done|].
    by intros [?%elem_of_nil _].
Qed.

Lemma symbols_done_step current ds0 um0 dt0 (l : list string) (b : dfa_build) c :
  symbols_done nfa current ds0 um0 dt0 l b →
  symbols_done nfa current ds0 um0 dt0 (l ++ [c]) (symbol_step nfa current b c).
Proof.
  destruct b as [[ds um] dt]. unfold symbols_done, symbol_step; simpl.
  intros (Hsub & Hfrom & Hin & (new & -> & Hnew & Hsize) & Hother & (r & Hr & Hrow)).
  set (U := next_states nfa current c).
  destruct (decide (U ≠ ∅)) as [Hne|He]; [destruct (decide (U ∉ ds)) as [Hfresh|Hold]|];
    simpl.
  - (* a new DFA state *)
    split_and!.
    + set_solver.
    + intros T [->%elem_of_singleton|HT]%elem_of_union.
      * right. exists c. split_and!; [set_solver|done|done].
      * destruct (Hfrom T HT) as [?|(c' & ? & ? & ?)]; [by left|].
        right. exists c'. split_and!; [set_solver|done|done].
    + intros c' [Hc'| ->%list_elem_of_singleton]%elem_of_app ?; [|set_solver].
      apply elem_of_union_r. by apply Hin.
    + exists (U :: new). split_and!; [done| |].
      * intros T. rewrite elem_of_cons, Hnew. split.
        -- intros [->|[? ?]]; [|set_solver]. split; [set_solver|].
           intros ?. apply Hfresh. by apply Hsub.
        -- intros [[->%elem_of_singleton|?]%elem_of_union ?]; [by left|by right].
      * rewrite size_insert_fresh by done. simpl. lia.
    + intros T HT. rewrite lookup_insert_ne by done. by apply Hother.
    + exists (<[c := U]> r). rewrite Hr. simpl. split; [by rewrite lookup_insert_eq|].
      intros c'. destruct (decide (c' = c)) as [->|Hc'].
      * rewrite lookup_insert_eq, decide_True; [done|]. split; [set_solver|done].
      * rewrite lookup_insert_ne, Hrow by done.
        apply decide_ext. rewrite elem_of_app, list_elem_of_singleton. tauto.
  - (* a DFA state met before *)
    apply dec_stable in Hold. split_and!.
    + done.
    + intros T HT. destruct (Hfrom T HT) as [?|(c' & ? & ? & ?)]; [by left|].
      right. exists c'. split_and!; [set_solver|done|done].
    + intros c' [Hc'| ->%list_elem_of_singleton]%elem_of_app ?; [by apply Hin|done].
    + by exists new.
    + intros T HT. rewrite lookup_insert_ne by done. by apply Hother.
    + exists (<[c := U]> r). rewrite Hr. simpl. split; [by rewrite lookup_insert_eq|].
      intros c'. destruct (decide (c' = c)) as [->|Hc'].
      * rewrite lookup_insert_eq, decide_True; [done|]. split; [set_solver|done].
      * rewrite lookup_insert_ne, Hrow by done.
        apply decide_ext. rewrite elem_of_app, list_elem_of_singleton. tauto.
  - (* no successor on this symbol *)
    apply dec_stable in He. split_and!.
    + done.
    + intros T HT. destruct (Hfrom T HT) as [?|(c' & ? & ? & ?)]; [by left|].
      right. exists c'. split_and!; [set_solver|done|done].
    + intros c' [Hc'| ->%list_elem_of_singleton]%elem_of_app ?; [by apply Hin|done].
    + by exists new.
    + done.
    + exists r. split; [done|]. intros c'. rewrite Hrow. apply decide_ext.
      rewrite elem_of_app, list_elem_of_singleton. split; [tauto|].
      intros [[?| ->] ?]; [tauto|done].
Qed.

Lemma symbols_done_fold current ds um dt (l : list string) :
  symbols_done nfa current ds um (<[current := ∅]> dt) l
    (fold_left (symbol_step nfa current) l (ds, um, <[current := ∅]> dt)).
Proof.
  induction l as [|c l IH] using rev_ind; [apply symbols_done_nil|].
  rewrite fold_left_app. simpl. by apply symbols_done_step.
Qed.

(** One iteration of the [while] loop keeps the invariant; every state it
    pushes is new. *)
Lemma construction_step current ds um dt ds' um' dt' :
  construction_inv nfa ds (current :: um) dt →
  fold_left (symbol_step nfa current) (elements (NFA.alphabet nfa))
    (ds, um, <[current := ∅]> dt) = (ds', um', dt') →
  construction_inv nfa ds' um' dt' ∧ ds ⊆ ds' ∧
  length um' + size ds = length um + size ds'.
Proof.
  intros (Hum & Hrows & Huniv & Hdom) Hfold.
  pose proof (symbols_done_fold current ds um dt (elements (NFA.alphabet nfa)))
    as Hdone.
  rewrite Hfold in Hdone. unfold symbols_done in Hdone; simpl in Hdone.
  destruct Hdone
    as (Hsub & Hfrom & Hin & (new & -> & Hnew & Hsize) & Hother & (r & Hr & Hrow)).
  split_and!; [split_and!| done | rewrite length_app; lia].
  - intros T [HT|HT]%elem_of_app; [by apply Hnew|].
    apply Hsub, Hum. by right.
  - intros T HT Hnot. destruct (decide (T = current)) as [->|Hne].
    + rewrite Hr. simpl. split; [done|].
      intros c Hc. apply Hin. by apply elem_of_elements.
    + assert (T ∈ ds) as HTds.
      { destruct (decide (T ∈ ds)) as [|Hout]; [done|]. exfalso.
        apply Hnot, elem_of_app. left. by apply Hnew. }
      destruct (Hrows T HTds) as [Hrc Hsucc].
      { intros [?|?]%elem_of_cons; [done|]. apply Hnot, elem_of_app. by right. }
      rewrite Hother, lookup_insert_ne by done. split; [done|].
      intros c Hc Hc'. by apply Hsub, Hsucc.
  - intros T HT. destruct (Hfrom T HT) as [?|(c & _ & -> & _)]; [by apply Huniv|].
    apply next_states_universe.
  - intros T HT. destruct (decide (T = current)) as [->|Hne].
    + apply Hsub, Hum. by left.
    + rewrite Hother, lookup_insert_ne in HT by done. by apply Hsub, Hdom.
Qed.

(** The construction loop ends, with the invariant and nothing left unmarked,
    within one iteration per subset of the universe. *)
Lemma nfa_to_dfa_loop_spec fuel ds um dt :
  construction_inv nfa ds um dt →
  length um + 2 ^ size (universe nfa) ≤ fuel + size ds →
  ∃ ds' dt',
    nfa_to_dfa_loop fuel nfa ds um dt = Some (ds', dt') ∧
    construction_inv nfa ds' [] dt' ∧ ds ⊆ ds'.
Proof.
  revert ds um dt. induction fuel as [|fuel IH]; intros ds [|current um] dt Hinv Hle.
  - by exists ds, dt.
  - exfalso. destruct Hinv as (_ & _ & Huniv & _).
    pose proof (size_family_le _ _ Huniv). simpl in Hle. lia.
  - by exists ds, dt.
  - simpl.
    destruct (fold_left (symbol_step nfa current) (elements (NFA.alphabet nfa))
                (ds, um, <[current := ∅]> dt)) as [[ds1 um1] dt1] eqn:Hfold.
    destruct (construction_step _ _ _ _ _ _ _ Hinv Hfold) as (Hinv1 & Hsub & Hlen).
    destruct (IH ds1 um1 dt1 Hinv1) as (ds' & dt' & Hloop & Hinv' & Hsub');
      [simpl in Hle; lia|].
    exists ds', dt'. split_and!; [done|done|set_solver].
Qed.

Lemma any_accepting_spec T :
  any_accepting nfa T = true ↔ ∃ s, s ∈ T ∧ s ∈ NFA.accept_states nfa.
Proof.
  unfold any_accepting. rewrite existsb_exists. split.
  - intros (s & Hs%list_elem_of_In%elem_of_elements & Ha%bool_decide_eq_true). eauto.
  - intros (s & Hs & Ha). exists s.
    split; [by apply list_elem_of_In, elem_of_elements | by apply bool_decide_eq_true].
Qed.

(** What [nfa_to_dfa] returns. *)
Lemma nfa_to_dfa_spec :
  ∃ D,
    nfa_to_dfa nfa = Some D ∧
    DFA.start_state D = NFA.epsilon_closure nfa {[NFA.start_state nfa]} ∧
    DFA.alphabet D = NFA.alphabet nfa ∧
    DFA.start_state D ∈ DFA.states D ∧
    (∀ T c, T ∈ DFA.states D →
       DFA.delta D T c =
         if decide (c ∈ NFA.alphabet nfa ∧ next_states nfa T c ≠ ∅)
         then Some (next_states nfa T c) else None) ∧
    (∀ T c, T ∈ DFA.states D → c ∈ NFA.alphabet nfa →
       next_states nfa T c ≠ ∅ → next_states nfa T c ∈ DFA.states D) ∧
    (∀ T, is_Some (DFA.transitions D !! T) → T ∈ DFA.states D) ∧
    (∀ T, T ∈ DFA.accept_states D ↔
          T ∈ DFA.states D ∧ ∃ s, s ∈ T ∧ s ∈ NFA.accept_states nfa).
Proof.
  set (sc := NFA.epsilon_closure nfa {[NFA.start_state nfa]}).
  destruct (nfa_to_dfa_loop_spec (nfa_to_dfa_fuel nfa) {[sc]} [sc] ∅)
    as (ds & dt & Hloop & (_ & Hrows & _ & Hdom) & Hsub).
  { split_and!.
    - intros T ->%list_elem_of_singleton. by apply elem_of_singleton.
    - intros T ->%elem_of_singleton Hn. exfalso. apply Hn. by left.
    - intros T ->%elem_of_singleton. apply start_closure_universe.
    - intros T [? HT]. by rewrite lookup_empty in HT. }
  { rewrite size_singleton. unfold nfa_to_dfa_fuel. simpl. lia. }
  eexists. unfold nfa_to_dfa. fold sc. rewrite Hloop. simpl.
  split; [done|]. simpl. split_and!; try done.
  - apply Hsub. by apply elem_of_singleton.
  - intros T c HT. destruct (Hrows T HT) as [Hrc _]; [by intros ?%elem_of_nil|].
    unfold DFA.delta; simpl. rewrite Hrc. apply decide_ext.
    by rewrite elem_of_elements.
  - intros T c HT. destruct (Hrows T HT) as [_ Hsucc]; [by intros ?%elem_of_nil|].
    apply Hsucc.
  - intros T. rewrite elem_of_filter, any_accepting_spec. tauto.
Qed.

End nfa_to_dfa_facts.

(** ** NFA simulation against DFA execution *)

Section simulation_facts.
Import RegexToNFA.

Lemma key_inj sym sym' : key sym = key sym' → sym = sym'.
Proof. destruct sym, sym'; simpl; intros; by simplify_eq. Qed.

Lemma elem_of_default_lookup `{Countable K, Countable B}
    (m : gmap K (gset B)) (k : K) (d : B) :
  d ∈ default ∅ (m !! k) ↔ ∃ X, m !! k = Some X ∧ d ∈ X.
Proof.
  destruct (m !! k) as [X|]; simpl.
  - split; [eauto | by intros (? & [= <-] & ?)].
  - split; [set_solver | by intros (? & ? & _)].
Qed.

Lemma group_spec (edges : list (symbol * nat)) (k : string) (d : nat) :
  d ∈ default ∅ (group edges !! k) ↔ ∃ sym, key sym = k ∧ (sym, d) ∈ edges.
Proof.
  induction edges as [|[sym0 d0] edges IH]; simpl.
  - rewrite lookup_empty. simpl. split; [set_solver|].
    by intros (? & _ & ?%elem_of_nil).
  - destruct (decide (key sym0 = k)) as [<-|Hne].
    + rewrite lookup_insert_eq. simpl. rewrite elem_of_union, elem_of_singleton, IH.
      split.
      * intros [->|(sym & Hk & Hin)]; [exists sym0; split; [done | left]|].
        exists sym. split; [done | by right].
      * intros (sym & Hk & [[= -> ->]|Hin]%elem_of_cons); [by left|].
        right. by exists sym.
    + rewrite lookup_insert_ne, IH by done. split.
      * intros (sym & Hk & Hin). exists sym. split; [done | by right].
      * intros (sym & Hk & [[= -> ->]|Hin]%elem_of_cons); [done|]. by exists sym.
Qed.

Lemma elem_of_labels (tr : table) q c d :
  (Some c, d) ∈ tr_get tr q → String c "" ∈ labels tr.
Proof.
  intros (l & Hl & Hd)%elem_of_tr_get. unfold labels.
  apply elem_of_union_list. eexists. split.
  - apply list_elem_of_fmap. exists (q, l). split; [done|].
    by apply elem_of_map_to_list.
  - apply elem_of_list_to_set, list_elem_of_bind. exists (Some c, d).
    split; [by apply list_elem_of_singleton | done].
Qed.

(** The modelled conversion yields the same automaton. *)
Lemma to_NFA_represents (frag : fragment) : represents frag (to_NFA frag).
Proof.
  destruct frag as [[st acc] tr]. unfold represents; simpl.
  split_and!; [done|done| |].
  - intros q sym d. unfold NFA.row; simpl. rewrite lookup_fmap, elem_of_tr_get.
    destruct (tr !! q) as [l|]; simpl.
    + rewrite group_spec. split.
      * intros (sym' & ->%key_inj & ?). eauto.
      * intros (? & [= <-] & ?). eauto.
    + rewrite lookup_empty. simpl. split; [set_solver | by intros (? & ? & _)].
  - intros q c d. apply elem_of_labels.
Qed.

Section represented.
Variables (frag : fragment) (N : NFA.t nat).
Hypothesis Hrep : represents frag N.

Lemma represents_succ x y : y ∈ eps_succ frag.2 x ↔ y ∈ epsilon_succ N x.
Proof.
  destruct Hrep as (_ & _ & Htr & _).
  rewrite elem_of_eps_succ, elem_of_epsilon_succ, <- (Htr x EPS y).
  apply elem_of_default_lookup.
Qed.

Lemma represents_reachable X y :
  reachable (eps_succ frag.2) X y ↔ reachable (epsilon_succ N) X y.
Proof.
  split; intros (x & Hx & Hxy); exists x; (split; [done|]);
    (eapply rtc_subrel; [|done]); intros a b; by apply represents_succ.
Qed.

Lemma represents_closure X : eps_closure X frag.2 = NFA.epsilon_closure N X.
Proof.
  apply set_eq. intros y.
  by rewrite eps_closure_spec, epsilon_closure_spec, represents_reachable.
Qed.

Lemma represents_next_states T ch :
  next_states N T (String ch "") = eps_closure (move T ch frag.2) frag.2.
Proof.
  destruct Hrep as (_ & _ & Htr & _).
  apply set_eq. intros y. rewrite elem_of_next_states, eps_closure_spec. split.
  - intros (state & ts & target & Hs & Hts & Ht & Hy).
    rewrite <- represents_closure, eps_closure_spec in Hy.
    eapply reachable_trans; [|done].
    intros x Hx%elem_of_singleton. subst x. apply reachable_seed, elem_of_move.
    exists state. split; [done|]. apply (Htr state (Some ch) target).
    apply elem_of_default_lookup. eauto.
  - intros (x & (state & Hs & Hx)%elem_of_move & Hxy).
    apply (Htr state (Some ch) x), elem_of_default_lookup in Hx as (ts & Hts & Hx).
    exists state, ts, x. split_and!; [done|done|done|].
    rewrite <- represents_closure, eps_closure_spec. exists x. split; [set_solver|done].
Qed.

(** From a DFA state on, both matchers take the same steps. *)
Lemma matches_loop_accepts_loop (D : DFA.t (gset nat)) (s : list ascii) (T : gset nat) :
  nfa_to_dfa N = Some D → T ∈ DFA.states D →
  matches_loop frag.2 frag.1.2 T s = DFA.accepts_loop D T s.
Proof.
  intros HD. destruct (nfa_to_dfa_spec N)
    as (D' & HD' & _ & Halpha & _ & Hdelta & Hsucc & _ & Hacc).
  rewrite HD in HD'. injection HD' as <-.
  destruct Hrep as (_ & Haccept & _ & Hsym).
  revert T. induction s as [|ch s IH]; intros T HT; simpl.
  - apply bool_decide_ext. rewrite Hacc, Haccept. split.
    + intros (x & Hx)%set_choose_L. split; [done|]. exists x. set_solver.
    + intros (_ & x & ? & ?). apply (non_empty_inhabited_L x). set_solver.
  - rewrite (Hdelta _ _ HT), Halpha, <- represents_next_states.
    set (T' := next_states N T (String ch "")).
    destruct (decide (T' = ∅)) as [He|Hne].
    + case_decide; [done|]. rewrite decide_False; [done | by intros [_ ?]].
    + assert (String ch "" ∈ NFA.alphabet N) as Hin.
      { apply set_choose_L in Hne as (y & Hy). unfold T' in Hy.
        rewrite represents_next_states, eps_closure_spec in Hy.
        destruct Hy as (x & (state & _ & Hx)%elem_of_move & _). by eapply Hsym. }
      rewrite decide_False by (by intros ?). rewrite decide_True by done.
      apply IH. by apply Hsucc.
Qed.

Lemma matches_accepts (D : DFA.t (gset nat)) (s : string) :
  nfa_to_dfa N = Some D → matches frag s = DFA.accepts D s.
Proof.
  intros HD. destruct (nfa_to_dfa_spec N) as (D' & HD' & Hstart & _ & Hin & _).
  rewrite HD in HD'. injection HD' as <-.
  unfold DFA.accepts. rewrite <- (matches_loop_accepts_loop D) by done.
  rewrite Hstart, <- represents_closure.
  destruct Hrep as (-> & _). by destruct frag as [[st acc] tr].
Qed.

End represented.
End simulation_facts.

(** ** Concatenation insertion *)

Section add_concat_facts.
Import RegexToNFA.

Lemma delete_char_of_list (c : ascii) (l : list ascii) :
  delete_char c (String.string_of_list_ascii l) =
  String.string_of_list_ascii (filter (λ x, x ≠ c) l).
Proof.
  induction l as [|x l IH]; [done|]. simpl. rewrite IH.
  destruct (decide (x = c)) as [->|Hne].
  - rewrite filter_cons_False; [done | by intros ?].
  - by rewrite filter_cons_True.
Qed.

(** The loop of [add_concat] appends the characters it reads, in order,
    and nothing else but markers. *)
Lemma add_concat_fold (l out : list ascii) (prev : option ascii) :
  "."%char ∉ l →
  filter (λ x, x ≠ "."%char) (fold_left add_concat_step l (out, prev)).1 =
  filter (λ x, x ≠ "."%char) out ++ l.
Proof.
  revert out prev. induction l as [|c l IH]; intros out prev Hl; simpl.
  - by rewrite app_nil_r.
  - apply not_elem_of_cons in Hl as [Hc Hl]. rewrite IH by done.
    rewrite filter_app, filter_cons_True, filter_nil by done.
    rewrite <- app_assoc. simpl. f_equal.
    destruct (match prev with Some p => _ | None => _ end); [|done].
    rewrite filter_app, filter_cons_False, filter_nil, app_nil_r; [done|].
    by intros ?.
Qed.

Lemma elem_of_list_ascii_of_string (c : ascii) (s : string) :
  c ∈ String.list_ascii_of_string s ↔ char_in c s = true.
Proof.
  induction s as [|x s IH]; simpl.
  - split; [by intros ?%elem_of_nil | done].
  - rewrite elem_of_cons, IH. destruct (decide (x = c)); naive_solver.
Qed.

End add_concat_facts.

(** * The claims *)

Import RegexToNFA.

(** The cases of the two [__main__] blocks, but for ["ab+c"] on ["ac"],
    which is treated with the claims. *)
Example main_composite :
  (run "a(b|c)*d") <$> ["ad"; "abcd"; "a"] = [Ok true; Ok true; Ok false].
Proof. vm_compute. reflexivity. Qed.

Example main_alternation :
  (run "a|b") <$> ["a"; "b"; ""] = [Ok true; Ok true; Ok false].
Proof. vm_compute. reflexivity. Qed.

Example main_plus :
  (run "ab+c") <$> ["abc"; "abbc"] = [Ok true; Ok true].
Proof. vm_compute. reflexivity. Qed.

Example main_example_nfa :
  (λ D, DFA.accepts D <$> ["a"; "ab"; "abb"; "b"; "aa"]) <$> nfa_to_dfa example_nfa
  = Some [true; true; true; false; false].
Proof. vm_compute. reflexivity. Qed.

(** A closure over an epsilon cycle. *)
Example eps_closure_cycle :
  eps_closure {[0]} {[0 := [(EPS, 1)]; 1 := [(EPS, 0); (EPS, 2)]]} = {[0; 1; 2]}.
Proof. by apply (bool_decide_unpack _); vm_compute. Qed.

(** C10. For a pattern without the marker character ['.'], concatenation
    insertion only inserts markers: deleting every ['.'] from
    [add_concat r] gives [r] back, so no character of the pattern is removed
    or moved. *)
Theorem add_concat_only_inserts (r : string) :
  char_in "." r = false → delete_char "." (add_concat r) = r.
Proof.
  intros Hr. unfold add_concat. rewrite delete_char_of_list, add_concat_fold.
  - simpl. apply String.string_of_list_ascii_of_string.
  - rewrite elem_of_list_ascii_of_string, Hr. done.
Qed.

Lemma add_concat_only_inserts_witness :
  delete_char "." (add_concat "a(b|c)*d") = "a(b|c)*d".
Proof. apply (add_concat_only_inserts "a(b|c)*d"). reflexivity. Defined.

(** C5. The seed of a closure is in the closure, for both closure
    functions: [S ⊆ eps_closure(S, tr)] and [S ⊆ nfa.epsilon_closure(S)]. *)
Theorem closure_contains_seed :
  (∀ (states : gset nat) (tr : table), states ⊆ eps_closure states tr) ∧
  (∀ `{Countable St} (N : NFA.t St) (state_set : gset St),
     state_set ⊆ NFA.epsilon_closure N state_set).
Proof.
  split.
  - intros states tr x Hx. apply eps_closure_spec. by apply reachable_seed.
  - intros St ? ? N X x Hx. apply epsilon_closure_spec. by apply reachable_seed.
Qed.

(** C6. Closing twice is closing once, for both closure functions. *)
Theorem closure_idempotent :
  (∀ (states : gset nat) (tr : table),
     eps_closure (eps_closure states tr) tr = eps_closure states tr) ∧
  (∀ `{Countable St} (N : NFA.t St) (state_set : gset St),
     NFA.epsilon_closure N (NFA.epsilon_closure N state_set) =
     NFA.epsilon_closure N state_set).
Proof.
  split.
  - intros states tr. apply set_eq. intros y. rewrite !eps_closure_spec. split.
    + apply reachable_trans. intros x. by rewrite eps_closure_spec.
    + apply reachable_trans. intros x Hx. apply reachable_seed.
      rewrite eps_closure_spec. by apply reachable_seed.
  - intros St ? ? N X. apply set_eq. intros y. rewrite !epsilon_closure_spec. split.
    + apply reachable_trans. intros x. by rewrite epsilon_closure_spec.
    + apply reachable_trans. intros x Hx. apply reachable_seed.
      rewrite epsilon_closure_spec. by apply reachable_seed.
Qed.

(** C7. Both closure loops end on every input, epsilon cycles included: the
    loop body runs once per state of the result and no more, since a state is
    pushed only when it enters the result.  With that much fuel or more the
    loop returns the closure; the fuel the closure functions use is enough. *)
Theorem closure_terminates :
  (∀ (states : gset nat) (tr : table),
     size (eps_closure states tr) ≤ eps_closure_fuel states tr ∧
     ∀ fuel,
       eps_closure_loop fuel tr states (reverse (elements states)) =
         if decide (size (eps_closure states tr) ≤ fuel)
         then Some (eps_closure states tr) else None) ∧
  (∀ `{Countable St} (N : NFA.t St) (state_set : gset St),
     size (NFA.epsilon_closure N state_set) ≤ NFA.epsilon_closure_fuel N state_set ∧
     ∀ fuel,
       NFA.epsilon_closure_loop fuel N state_set (reverse (elements state_set)) =
         if decide (size (NFA.epsilon_closure N state_set) ≤ fuel)
         then Some (NFA.epsilon_closure N state_set) else None).
Proof.
  split.
  - intros states tr.
    destruct (worklist_closure (eps_succ tr) (tr_targets tr) states
                (eps_succ_targets tr)) as (r & Hr & _ & Hfuel).
    unfold eps_closure, eps_closure_fuel.
    rewrite eps_closure_loop_worklist, Hr. simpl. split.
    + rewrite Hfuel in Hr. by case_decide.
    + intros fuel. by rewrite eps_closure_loop_worklist.
  - intros St ? ? N X.
    destruct (worklist_closure (epsilon_succ N) (NFA.targets N) X
                (epsilon_succ_targets N)) as (r & Hr & _ & Hfuel).
    unfold NFA.epsilon_closure, NFA.epsilon_closure_fuel.
    rewrite epsilon_closure_loop_worklist, Hr. simpl. split.
    + rewrite Hfuel in Hr. by case_decide.
    + intros fuel. by rewrite epsilon_closure_loop_worklist.
Qed.

Lemma elem_of_edges `{Countable Q} (D : DFA.t Q) (q q' : Q) (symbol : string) :
  (q, symbol, q') ∈ DFA.edges D ↔ DFA.delta D q symbol = Some q'.
Proof.
  unfold DFA.edges, DFA.delta. rewrite list_elem_of_bind. split.
  - intros ([q0 r] & (e & Hin & He)%list_elem_of_bind & Hr%elem_of_map_to_list).
    destruct e as [c0 q0']. apply list_elem_of_singleton in Hin.
    apply elem_of_map_to_list in He. simplify_eq. by rewrite Hr.
  - destruct (DFA.transitions D !! q) as [r|] eqn:Hr; simpl;
      [|by rewrite lookup_empty].
    intros Hq'. exists (q, r). split; [|by apply elem_of_map_to_list].
    apply list_elem_of_bind. exists (symbol, q').
    split; [by apply list_elem_of_singleton | by apply elem_of_map_to_list].
Qed.

(** C4. The DFA that determinization returns has at most one transition per
    (state, symbol) pair, its target being the one closed set computed for
    that pair, itself a DFA state; and two DFA states with the same NFA states
    are the same DFA state, with the same transitions. *)
Theorem determinize_deterministic `{Countable St} (nfa : NFA.t St) :
  ∃ D,
    nfa_to_dfa nfa = Some D ∧
    (∀ T c U U',
       (T, c, U) ∈ DFA.edges D → (T, c, U') ∈ DFA.edges D → U = U') ∧
    (∀ T c U,
       (T, c, U) ∈ DFA.edges D →
       T ∈ DFA.states D ∧ U ∈ DFA.states D ∧ U = next_states nfa T c) ∧
    (∀ T T',
       T ∈ DFA.states D → T' ∈ DFA.states D → (∀ x, x ∈ T ↔ x ∈ T') →
       T = T' ∧ ∀ c, DFA.delta D T c = DFA.delta D T' c).
Proof.
  destruct (nfa_to_dfa_spec nfa)
    as (D & HD & _ & _ & _ & Hdelta & Hsucc & Hdom & _).
  exists D. split_and!; [done| | |].
  - intros T c U U' HU HU'. rewrite elem_of_edges in HU, HU'. congruence.
  - intros T c U HU%elem_of_edges.
    assert (T ∈ DFA.states D) as HT.
    { apply Hdom. unfold DFA.delta in HU.
      destruct (DFA.transitions D !! T); [done | by simpl in HU]. }
    rewrite (Hdelta _ _ HT) in HU. case_decide as Hc; [|done].
    destruct Hc as [Hc Hne]. injection HU as <-.
    split_and!; [done | by apply Hsucc | done].
  - intros T T' _ _ Heq. apply set_eq in Heq as ->. done.
Qed.

(** C8. A state of the DFA that determinization returns is accepting iff it
    shares a state with the accept set of the NFA. *)
Theorem determinize_accept_marking `{Countable St} (nfa : NFA.t St) :
  ∃ D,
    nfa_to_dfa nfa = Some D ∧
    ∀ T, T ∈ DFA.states D →
         (T ∈ DFA.accept_states D ↔ T ∩ NFA.accept_states nfa ≠ ∅).
Proof.
  destruct (nfa_to_dfa_spec nfa) as (D & HD & _ & _ & _ & _ & _ & _ & Hacc).
  exists D. split; [done|]. intros T HT. rewrite Hacc. split.
  - intros (_ & x & ? & ?). apply (non_empty_inhabited_L x). set_solver.
  - intros (x & Hx)%set_choose_L. split; [done|]. exists x. set_solver.
Qed.

Lemma accepts_loop_outside `{Countable Q} (D : DFA.t Q) (c : ascii)
    (s : list ascii) (q : Q) :
  c ∈ s → String c "" ∉ DFA.alphabet D → DFA.accepts_loop D q s = false.
Proof.
  intros Hc Hout. revert q. induction s as [|x s IH]; intros q;
    [by apply elem_of_nil in Hc|].
  simpl. case_decide; [done|].
  destruct (DFA.delta D q (String x "")) as [q'|]; [|done].
  apply IH. apply elem_of_cons in Hc as [->|]; done.
Qed.

Lemma move_unlabelled (tr : table) (cur : gset nat) (c : ascii) :
  (∀ q d, (Some c, d) ∉ tr_get tr q) → move cur c tr = ∅.
Proof.
  intros Hno. apply set_eq. intros d. rewrite elem_of_move. split; [|set_solver].
  intros (s & _ & Hd). by apply Hno in Hd.
Qed.

Lemma matches_loop_dead (tr : table) (acc cur : gset nat) (c : ascii)
    (s : list ascii) :
  move cur c tr = ∅ → matches_loop tr acc cur (c :: s) = false.
Proof. intros Hm. simpl. by rewrite Hm, eps_closure_empty, decide_True. Qed.

Lemma matches_loop_outside (tr : table) (acc cur : gset nat) (c : ascii)
    (s : list ascii) :
  c ∈ s → (∀ q d, (Some c, d) ∉ tr_get tr q) → matches_loop tr acc cur s = false.
Proof.
  intros Hc Hno. revert cur. induction s as [|x s IH]; intros cur;
    [by apply elem_of_nil in Hc|].
  apply elem_of_cons in Hc as [<-|Hc].
  - apply matches_loop_dead. by apply move_unlabelled.
  - simpl. case_decide; [done | by apply IH].
Qed.

(** C9. Both matchers are total functions into [bool]: nothing in them can
    raise.  An input with a symbol [c] outside the alphabet of the DFA, or
    labelling no transition of the NFA, is rejected; so is, at the point it is
    read, a symbol with no transition from the current state. *)
Theorem matcher_rejects_unknown_symbol `{Countable Q} (D : DFA.t Q)
    (nfa : fragment) (s : string) (c : ascii) :
  c ∈ String.list_ascii_of_string s →
  (String c "" ∉ DFA.alphabet D → DFA.accepts D s = false) ∧
  ((∀ q d, (Some c, d) ∉ tr_get nfa.2 q) → matches nfa s = false) ∧
  (∀ q rest, DFA.delta D q (String c "") = None →
             DFA.accepts_loop D q (c :: rest) = false) ∧
  (∀ cur rest, move cur c nfa.2 = ∅ →
               matches_loop nfa.2 nfa.1.2 cur (c :: rest) = false).
Proof.
  intros Hc. split_and!.
  - intros Hout. by eapply accepts_loop_outside.
  - intros Hno. destruct nfa as [[st acc] tr]. by eapply matches_loop_outside.
  - intros q rest Hq. simpl. case_decide; [done|]. by rewrite Hq.
  - intros cur rest. apply matches_loop_dead.
Qed.

Lemma matcher_rejects_unknown_symbol_witness :
  DFA.accepts (DFA.mk {[0]} {["a"]} {[0 := {["a" := 0]}]} 0 {[0]}) "ab" = false ∧
  matches (0, {[1]}, {[0 := [(Some "a"%char, 1)]]}) "ab" = false.
Proof.
  destruct (matcher_rejects_unknown_symbol
              (DFA.mk {[0]} {["a"]} {[0 := {["a" := 0]}]} 0 {[0]})
              (0, {[1]}, {[0 := [(Some "a"%char, 1)]]}) "ab" "b")
    as (HD & HN & _).
  { apply elem_of_list_ascii_of_string. reflexivity. }
  split.
  - apply HD. cbn [DFA.alphabet]. intros Hin%elem_of_singleton. discriminate Hin.
  - apply HN. cbn [snd]. intros q d (l & Hl & Hin)%elem_of_tr_get.
    destruct (decide (q = 0)) as [->|Hq].
    + rewrite lookup_singleton_eq in Hl. injection Hl as <-.
      apply list_elem_of_singleton in Hin. discriminate Hin.
    + rewrite lookup_singleton_ne in Hl by done. discriminate Hl.
Defined.

(** The branch of [build] for the quantifiers treats ['+'] exactly as ['*']:
    the test [t != '?'] that adds the edge from the new start to the new
    accept state holds for both. *)
Lemma build_step_plus_is_star (acc : nat * list fragment) :
  build_step acc "+" = build_step acc "*".
Proof. by destruct acc as [gen [|[[st a] tr0] stack]]. Qed.

(** C1. The pipeline on ["ab*c"] accepts ["ac"] and on ["ab+c"] accepts
    ["abbc"], as claimed; but on ["ab+c"] it accepts ["ac"] too, which the
    claim and the test table of the module say it rejects: the builder gives
    the plus fragment the zero-iteration epsilon edge. *)
Theorem plus_accepts_zero_iterations :
  run "ab*c" "ac" = Ok true ∧
  run "ab+c" "abbc" = Ok true ∧
  run "ab+c" "ac" = Ok true.
Proof. split_and!; vm_compute; reflexivity. Qed.

(** C2, as stated, fails: compiling ["(a"] raises nothing. *)
Lemma unbalanced_open_not_reported :
  ¬ (raises (compile "(a") ∧ raises (compile ")a")).
Proof.
  intros [[e He] _]. vm_compute in He. discriminate He.
Qed.

(** The unmatched [')'] of [")a"] is not reported by normalization either;
    the postfix ["a."] it yields makes [build] pop an empty stack. *)
Lemma unbalanced_close_index_error : compile ")a" = Raise IndexError.
Proof. vm_compute. reflexivity. Qed.

Lemma to_postfix_leading_close (r : string) :
  to_postfix (String ")" r) = to_postfix r.
Proof. reflexivity. Qed.

(** C3. For every pattern that compiles, NFA simulation on the automaton
    built from it and DFA execution on the determinized automaton return the
    same boolean on every input.  [N] is any [NFA] object that is the automaton
    of the pattern, the two modules having different encodings. *)
Theorem simulation_execution_equivalent (p : string) (nfa : fragment)
    (N : NFA.t nat) :
  compile p = Ok nfa → represents nfa N →
  ∃ D, nfa_to_dfa N = Some D ∧ ∀ s, matches nfa s = DFA.accepts D s.
Proof.
  intros _ Hrep. destruct (nfa_to_dfa_spec N) as (D & HD & _).
  exists D. split; [done|]. intros s. by apply (matches_accepts nfa N).
Qed.

Lemma simulation_execution_equivalent_witness :
  ∃ nfa, compile "a|b" = Ok nfa ∧
    ∃ D, nfa_to_dfa (to_NFA nfa) = Some D ∧ ∀ s, matches nfa s = DFA.accepts D s.
Proof.
  eexists. split; [vm_compute; reflexivity|].
  apply (simulation_execution_equivalent "a|b").
  - vm_compute. reflexivity.
  - apply to_NFA_represents.
Defined.

(** * Further properties *)

(** ** Paths *)

Section path_facts.
Context {St : Type}.
Variable step : St → option ascii → St → Prop.

Lemma path_app q w1 q1 w2 q2 :
  path step q w1 q1 → path step q1 w2 q2 → path step q (w1 ++ w2) q2.
Proof.
  induction 1 as [q|q d w q' Hs _ IH|q c d w q' Hs _ IH]; intros Hp; simpl.
  - done.
  - eapply path_eps; [done | by apply IH].
  - eapply path_sym; [done | by apply IH].
Qed.

Lemma path_of_rtc q d : rtc (λ a b, step a None b) q d → path step q [] d.
Proof.
  induction 1 as [|a b c Hab _ IH]; [apply path_nil | by eapply path_eps].
Qed.

Lemma rtc_of_path q w d :
  path step q w d → w = [] → rtc (λ a b, step a None b) q d.
Proof.
  induction 1 as [q|q d w q' Hs _ IH|]; intros Hw; [done| |done].
  eapply rtc_l; [done | by apply IH].
Qed.

(** A path that reads [c] first: epsilons, the transition on [c], the rest. *)
Lemma path_cons_inv q c w q' :
  path step q (c :: w) q' →
  ∃ q1 q2, rtc (λ a b, step a None b) q q1 ∧ step q1 (Some c) q2 ∧
           path step q2 w q'.
Proof.
  intros Hp. remember (c :: w) as cw eqn:Hcw. revert Hcw.
  induction Hp as [q|q d w' q' Hs _ IH|q c' d w' q' Hs Hp _]; intros Hcw.
  - done.
  - destruct (IH Hcw) as (q1 & q2 & Hq1 & Hq2 & Hrest).
    exists q1, q2. split; [by eapply rtc_l | done].
  - injection Hcw as -> ->. exists q, d. split; [apply rtc_refl | done].
Qed.

Lemma path_mono (step' : St → option ascii → St → Prop) q w q' :
  (∀ a sym b, step a sym b → step' a sym b) →
  path step q w q' → path step' q w q'.
Proof.
  intros Hsub. induction 1 as [q|q d w q' Hs _ IH|q c d w q' Hs _ IH].
  - apply path_nil.
  - eapply path_eps; [by apply Hsub | done].
  - eapply path_sym; [by apply Hsub | done].
Qed.

End path_facts.

(** ** NFA simulation decides the language of the fragment *)

Section matches_facts.
Import RegexToNFA.
Implicit Types (tr : table) (acc cur : gset nat) (w : list ascii).

Lemma eps_succ_step tr a b : b ∈ eps_succ tr a ↔ tr_step tr a None b.
Proof. apply elem_of_eps_succ. Qed.

Lemma reachable_path tr (X : gset nat) y :
  reachable (eps_succ tr) X y ↔ ∃ x, x ∈ X ∧ path (tr_step tr) x [] y.
Proof.
  split; intros (x & Hx & Hxy); exists x; (split; [done|]).
  - apply path_of_rtc. eapply rtc_subrel; [|done].
    intros a b. apply eps_succ_step.
  - eapply rtc_subrel; [|by eapply rtc_of_path].
    intros a b. apply eps_succ_step.
Qed.

(** A closure is closed under the epsilon transitions. *)
Lemma eps_closure_closed tr (X : gset nat) q d :
  q ∈ eps_closure X tr → (EPS, d) ∈ tr_get tr q → d ∈ eps_closure X tr.
Proof.
  rewrite !eps_closure_spec. intros (x & Hx & Hxq) Hd. exists x. split; [done|].
  eapply rtc_r; [done|]. by apply elem_of_eps_succ.
Qed.

Lemma matches_loop_spec tr acc w cur :
  (∀ q d, q ∈ cur → (EPS, d) ∈ tr_get tr q → d ∈ cur) →
  matches_loop tr acc cur w = true ↔
  ∃ q f, q ∈ cur ∧ f ∈ acc ∧ path (tr_step tr) q w f.
Proof.
  revert cur. induction w as [|c w IH]; intros cur Hclosed; simpl.
  - rewrite bool_decide_eq_true. split.
    + intros (f & Hf)%set_choose_L. exists f, f.
      split_and!; [set_solver | set_solver | apply path_nil].
    + intros (q & f & Hq & Hf & Hp). apply (non_empty_inhabited_L f).
      apply elem_of_intersection. split; [|done].
      apply rtc_of_path in Hp; [|done]. clear Hf.
      induction Hp as [|a b c Hab _ IHp]; [done|]. apply IHp. by eapply Hclosed.
  - set (cur' := eps_closure (move cur c tr) tr).
    assert ((∃ q f, q ∈ cur ∧ f ∈ acc ∧ path (tr_step tr) q (c :: w) f) ↔
            (∃ q f, q ∈ cur' ∧ f ∈ acc ∧ path (tr_step tr) q w f)) as ->.
    { split.
      - intros (q & f & Hq & Hf & (q1 & q2 & Heps & Hc & Hp)%path_cons_inv).
        exists q2, f. split_and!; [|done|done].
        apply eps_closure_spec, reachable_seed, elem_of_move. exists q1.
        split; [|done]. clear Hc. induction Heps as [|a b c' Hab _ IHp]; [done|].
        apply IHp. by eapply Hclosed.
      - intros (q & f & Hq & Hf & Hp).
        apply eps_closure_spec, reachable_path in Hq as (x & Hx & Hxq).
        apply elem_of_move in Hx as (q0 & Hq0 & Hx).
        exists q0, f. split_and!; [done|done|].
        eapply path_sym; [done|]. by apply (path_app _ x [] q w f). }
    destruct (decide (cur' = ∅)) as [He|Hne].
    + split; [done|]. intros (q & _ & Hq & _). rewrite He in Hq. set_solver.
    + apply IH. intros q d. apply eps_closure_closed.
Qed.

Lemma matches_language (nfa : fragment) (s : string) :
  matches nfa s = true ↔ language nfa (String.list_ascii_of_string s).
Proof.
  destruct nfa as [[st acc] tr]. unfold matches, language; simpl.
  rewrite matches_loop_spec by (intros q d; apply eps_closure_closed). split.
  - intros (q & f & Hq & Hf & Hp). exists f. split; [done|].
    apply eps_closure_spec, reachable_path in Hq as (x & ->%elem_of_singleton & Hxq).
    by apply (path_app _ st [] q _ f).
  - intros (f & Hf & Hp). exists st, f. split_and!; [|done|done].
    apply eps_closure_spec, reachable_seed. set_solver.
Qed.

End matches_facts.

(** X1. NFA simulation is exact: [matches(nfa, s)] is [True] iff some path of
    the transition table leads from the start state to an accept state and
    spells [s]. *)
Theorem matches_decides_language (nfa : fragment) (s : string) :
  matches nfa s = true ↔ language nfa (String.list_ascii_of_string s).
Proof. apply matches_language. Qed.

(** X2. Both closure functions return the least set that contains the seed
    and is closed under the epsilon transitions. *)
Theorem closure_least_closed :
  (∀ (states : gset nat) (tr : table),
     (∀ q d, q ∈ eps_closure states tr → (EPS, d) ∈ tr_get tr q →
             d ∈ eps_closure states tr) ∧
     (∀ Y : gset nat,
        states ⊆ Y → (∀ q d, q ∈ Y → (EPS, d) ∈ tr_get tr q → d ∈ Y) →
        eps_closure states tr ⊆ Y)) ∧
  (∀ `{Countable St} (N : NFA.t St) (state_set : gset St),
     (∀ q d ts, q ∈ NFA.epsilon_closure N state_set →
                NFA.row N q !! "" = Some ts → d ∈ ts →
                d ∈ NFA.epsilon_closure N state_set) ∧
     (∀ Y : gset St,
        state_set ⊆ Y →
        (∀ q d ts, q ∈ Y → NFA.row N q !! "" = Some ts → d ∈ ts → d ∈ Y) →
        NFA.epsilon_closure N state_set ⊆ Y)).
Proof.
  split.
  - intros states tr. split; [intros q d; apply eps_closure_closed|].
    intros Y Hsub Hclosed y (x & Hx & Hxy)%eps_closure_spec.
    apply Hsub in Hx. induction Hxy as [|a b c Hab _ IH]; [done|].
    apply IH. eapply Hclosed; [done|]. by apply elem_of_eps_succ.
  - intros St ? ? N X. split.
    + intros q d ts. rewrite !epsilon_closure_spec.
      intros (x & Hx & Hxq) Hts Hd. exists x. split; [done|].
      eapply rtc_r; [done|]. apply elem_of_epsilon_succ. eauto.
    + intros Y Hsub Hclosed y (x & Hx & Hxy)%epsilon_closure_spec.
      apply Hsub in Hx. induction Hxy as [|a b c Hab _ IH]; [done|].
      apply IH. apply elem_of_epsilon_succ in Hab as (ts & Hts & Hb).
      by eapply Hclosed.
Qed.

Lemma reachable_union `{Countable A} (succ : A → list A) (X Y : gset A) (y : A) :
  reachable succ (X ∪ Y) y ↔ reachable succ X y ∨ reachable succ Y y.
Proof.
  split.
  - intros (x & [Hx|Hx]%elem_of_union & Hxy); [left | right]; by exists x.
  - intros [(x & Hx & Hxy)|(x & Hx & Hxy)]; exists x; (split; [set_solver | done]).
Qed.

(** X3. Both closure functions distribute over union, hence are monotone:
    the closure of a set is the union of the closures of its states. *)
Theorem closure_union :
  (∀ (X Y : gset nat) (tr : table),
     eps_closure (X ∪ Y) tr = eps_closure X tr ∪ eps_closure Y tr ∧
     (X ⊆ Y → eps_closure X tr ⊆ eps_closure Y tr)) ∧
  (∀ `{Countable St} (N : NFA.t St) (X Y : gset St),
     NFA.epsilon_closure N (X ∪ Y) =
       NFA.epsilon_closure N X ∪ NFA.epsilon_closure N Y ∧
     (X ⊆ Y → NFA.epsilon_closure N X ⊆ NFA.epsilon_closure N Y)).
Proof.
  split.
  - intros X Y tr. split.
    + apply set_eq. intros y.
      by rewrite elem_of_union, !eps_closure_spec, reachable_union.
    + intros Hsub y. rewrite !eps_closure_spec. intros (x & Hx & Hxy).
      exists x. split; [by apply Hsub | done].
  - intros St ? ? N X Y. split.
    + apply set_eq. intros y.
      by rewrite elem_of_union, !epsilon_closure_spec, reachable_union.
    + intros Hsub y. rewrite !epsilon_closure_spec. intros (x & Hx & Hxy).
      exists x. split; [by apply Hsub | done].
Qed.

(** X4. A closure invents no state: what it adds to the seed is the target
    of an epsilon transition of the table. *)
Theorem closure_adds_only_targets :
  (∀ (states : gset nat) (tr : table) (y : nat),
     y ∈ eps_closure states tr →
     y ∈ states ∨ ∃ q, q ∈ eps_closure states tr ∧ (EPS, y) ∈ tr_get tr q) ∧
  (∀ `{Countable St} (N : NFA.t St) (state_set : gset St) (y : St),
     y ∈ NFA.epsilon_closure N state_set →
     y ∈ state_set ∨
     ∃ q ts, q ∈ NFA.epsilon_closure N state_set ∧
             NFA.row N q !! "" = Some ts ∧ y ∈ ts).
Proof.
  split.
  - intros states tr y (x & Hx & Hxy)%eps_closure_spec.
    apply rtc_inv_r in Hxy as [<-|(z & Hxz & Hzy)]; [by left|].
    right. exists z. split; [|by apply elem_of_eps_succ].
    apply eps_closure_spec. by exists x.
  - intros St ? ? N X y (x & Hx & Hxy)%epsilon_closure_spec.
    apply rtc_inv_r in Hxy as [<-|(z & Hxz & Hzy)]; [by left|].
    right. apply elem_of_epsilon_succ in Hzy as (ts & Hts & Hy).
    exists z, ts. split_and!; [|done|done].
    apply epsilon_closure_spec. by exists x.
Qed.

(** ** More on the subset construction *)

Section determinize_facts.
Context `{Countable St}.
Variable nfa : NFA.t St.
Implicit Types (T current : gset St) (c symbol : string) (ds : gset (gset St)).
Implicit Types (um : list (gset St)) (dt : gmap (gset St) (gmap string (gset St))).

(** What holds of the states the loop starts with, and is kept by a step of
    the construction, holds of every state the loop ends with. *)
Lemma nfa_to_dfa_loop_states (P : gset St → Prop) fuel ds um dt ds' dt' :
  (∀ T c, P T → c ∈ NFA.alphabet nfa → next_states nfa T c ≠ ∅ →
          P (next_states nfa T c)) →
  nfa_to_dfa_loop fuel nfa ds um dt = Some (ds', dt') →
  (∀ T, T ∈ ds → P T) → (∀ T, T ∈ um → T ∈ ds) →
  ∀ T, T ∈ ds' → P T.
Proof.
  intros Hstep. revert ds um dt.
  induction fuel as [|fuel IH]; intros ds [|current um] dt Hloop HP Hum;
    simpl in Hloop; simplify_eq; try done.
  pose proof (symbols_done_fold nfa current ds um dt (elements (NFA.alphabet nfa)))
    as Hdone.
  destruct (fold_left (symbol_step nfa current) (elements (NFA.alphabet nfa))
              (ds, um, <[current := ∅]> dt)) as [[ds1 um1] dt1].
  unfold symbols_done in Hdone; simpl in Hdone.
  destruct Hdone as (Hsub & Hfrom & _ & (new & -> & Hnew & _) & _).
  eapply IH; [done| |].
  - intros T HT. destruct (Hfrom T HT) as [?|(c & Hc%elem_of_elements & -> & Hne)];
      [by apply HP|].
    apply Hstep; [|done|done]. apply HP, Hum. by left.
  - intros T [HT|HT]%elem_of_app; [by apply Hnew|]. apply Hsub, Hum. by right.
Qed.

Lemma nfa_to_dfa_states_ind (P : gset St → Prop) (D : DFA.t (gset St)) :
  P (NFA.epsilon_closure nfa {[NFA.start_state nfa]}) →
  (∀ T c, P T → c ∈ NFA.alphabet nfa → next_states nfa T c ≠ ∅ →
          P (next_states nfa T c)) →
  nfa_to_dfa nfa = Some D → ∀ T, T ∈ DFA.states D → P T.
Proof.
  intros Hstart Hstep HD. unfold nfa_to_dfa in HD.
  destruct (nfa_to_dfa_loop _ _ _ _ _) as [[ds dt]|] eqn:Hloop; [|done].
  simpl in HD. injection HD as <-. simpl.
  eapply nfa_to_dfa_loop_states; [done|done| |].
  - by intros T ->%elem_of_singleton.
  - intros T ->%list_elem_of_singleton. by apply elem_of_singleton.
Qed.

(** Every state the loop ends with has a row. *)
Lemma nfa_to_dfa_loop_rows fuel ds um dt ds' dt' :
  nfa_to_dfa_loop fuel nfa ds um dt = Some (ds', dt') →
  (∀ T, T ∈ ds → T ∉ um → is_Some (dt !! T)) → (∀ T, T ∈ um → T ∈ ds) →
  ∀ T, T ∈ ds' → is_Some (dt' !! T).
Proof.
  revert ds um dt.
  induction fuel as [|fuel IH]; intros ds [|current um] dt Hloop Hrows Hum;
    simpl in Hloop; simplify_eq.
  - intros T HT. apply Hrows; [done | by intros ?%elem_of_nil].
  - intros T HT. apply Hrows; [done | by intros ?%elem_of_nil].
  - pose proof (symbols_done_fold nfa current ds um dt
                  (elements (NFA.alphabet nfa))) as Hdone.
    destruct (fold_left (symbol_step nfa current) (elements (NFA.alphabet nfa))
                (ds, um, <[current := ∅]> dt)) as [[ds1 um1] dt1].
    unfold symbols_done in Hdone; simpl in Hdone.
    destruct Hdone as (Hsub & _ & _ & (new & -> & Hnew & _) & Hother & (r & Hr & _)).
    eapply IH; [done| |].
    + intros T HT Hnot. destruct (decide (T = current)) as [->|Hne]; [by rewrite Hr|].
      rewrite Hother, lookup_insert_ne by done. apply Hrows.
      * destruct (decide (T ∈ ds)) as [|Hout]; [done|]. exfalso.
        apply Hnot, elem_of_app. left. by apply Hnew.
      * intros [?|?]%elem_of_cons; [done|]. apply Hnot, elem_of_app. by right.
    + intros T [HT|HT]%elem_of_app; [by apply Hnew|]. apply Hsub, Hum. by right.
Qed.

Lemma nfa_to_dfa_rows (D : DFA.t (gset St)) T :
  nfa_to_dfa nfa = Some D → T ∈ DFA.states D → is_Some (DFA.transitions D !! T).
Proof.
  intros HD. unfold nfa_to_dfa in HD.
  destruct (nfa_to_dfa_loop _ _ _ _ _) as [[ds dt]|] eqn:Hloop; [|done].
  simpl in HD. injection HD as <-. simpl.
  eapply nfa_to_dfa_loop_rows; [done| |].
  - intros T' ->%elem_of_singleton Hn. exfalso. apply Hn. by left.
  - intros T' ->%list_elem_of_singleton. by apply elem_of_singleton.
Qed.

Lemma epsilon_succ_step (a b : St) :
  b ∈ epsilon_succ nfa a ↔ nfa_step nfa a None b.
Proof. apply elem_of_epsilon_succ. Qed.

Lemma epsilon_closure_path (X : gset St) y :
  y ∈ NFA.epsilon_closure nfa X ↔ ∃ x, x ∈ X ∧ path (nfa_step nfa) x [] y.
Proof.
  rewrite epsilon_closure_spec.
  split; intros (x & Hx & Hxy); exists x; (split; [done|]).
  - apply path_of_rtc. eapply rtc_subrel; [|done].
    intros a b. apply epsilon_succ_step.
  - eapply rtc_subrel; [|by eapply rtc_of_path].
    intros a b. apply epsilon_succ_step.
Qed.

Lemma epsilon_closure_eps_closed (X : gset St) :
  eps_closed nfa (NFA.epsilon_closure nfa X).
Proof.
  intros q d. rewrite !epsilon_closure_spec. intros (x & Hx & Hxq) Hd.
  exists x. split; [done|]. eapply rtc_r; [done|]. by apply epsilon_succ_step.
Qed.

Lemma next_states_eps_closed T c : eps_closed nfa (next_states nfa T c).
Proof.
  intros q d (state & ts & target & Hs & Hts & Ht & Hq)%elem_of_next_states Hd.
  apply elem_of_next_states. exists state, ts, target. split_and!; try done.
  by eapply epsilon_closure_eps_closed.
Qed.

Lemma eps_closed_rtc T q d :
  eps_closed nfa T → q ∈ T → rtc (λ a b, nfa_step nfa a None b) q d → d ∈ T.
Proof.
  intros Hcl Hq Hqd. induction Hqd as [|a b c Hab _ IH]; [done|].
  apply IH. by eapply Hcl.
Qed.

Lemma dfa_states_eps_closed (D : DFA.t (gset St)) T :
  nfa_to_dfa nfa = Some D → T ∈ DFA.states D → eps_closed nfa T.
Proof.
  intros HD. apply (nfa_to_dfa_states_ind (eps_closed nfa) D); [| |done].
  - apply epsilon_closure_eps_closed.
  - intros T' c _ _ _. apply next_states_eps_closed.
Qed.

(** Reading [c] from a closed set [T] leads exactly to [next_states]. *)
Lemma next_states_path T (ch : ascii) w (F : gset St) :
  eps_closed nfa T →
  (∃ q f, q ∈ T ∧ f ∈ F ∧ path (nfa_step nfa) q (ch :: w) f) ↔
  (∃ q f, q ∈ next_states nfa T (String ch "") ∧ f ∈ F ∧
          path (nfa_step nfa) q w f).
Proof.
  intros Hcl. split.
  - intros (q & f & Hq & Hf & (q1 & q2 & Heps & (ts & Hts & Hq2) & Hp)%path_cons_inv).
    exists q2, f. split_and!; [|done|done].
    apply elem_of_next_states. exists q1, ts, q2.
    split_and!; [by eapply eps_closed_rtc|done|done|].
    apply epsilon_closure_path. exists q2. split; [set_solver | apply path_nil].
  - intros (q & f & (state & ts & target & Hs & Hts & Ht & Hq)%elem_of_next_states
              & Hf & Hp).
    apply epsilon_closure_path in Hq as (x & ->%elem_of_singleton & Hxq).
    exists state, f. split_and!; [done|done|].
    eapply path_sym; [by exists ts|]. by apply (path_app _ target [] q w f).
Qed.

Lemma accepts_loop_spec (D : DFA.t (gset St)) w T :
  nfa_to_dfa nfa = Some D → T ∈ DFA.states D →
  DFA.accepts_loop D T w = true ↔
  Forall (λ ch, String ch "" ∈ NFA.alphabet nfa) w ∧
  ∃ q f, q ∈ T ∧ f ∈ NFA.accept_states nfa ∧ path (nfa_step nfa) q w f.
Proof.
  intros HD. destruct (nfa_to_dfa_spec nfa)
    as (D' & HD' & _ & Halpha & _ & Hdelta & Hsucc & _ & Hacc).
  rewrite HD in HD'. injection HD' as <-.
  revert T. induction w as [|ch w IH]; intros T HT; simpl.
  - rewrite bool_decide_eq_true, Hacc. split.
    + intros (_ & x & Hx & Hf). split; [done|]. exists x, x.
      split_and!; [done | done | apply path_nil].
    + intros (_ & q & f & Hq & Hf & Hp). split; [done|]. exists f. split; [|done].
      eapply eps_closed_rtc; [by eapply dfa_states_eps_closed | done |].
      by eapply rtc_of_path.
  - rewrite Forall_cons, Halpha.
    rewrite (next_states_path T ch w) by (by eapply dfa_states_eps_closed).
    case_decide as Hout; [naive_solver|].
    rewrite (Hdelta _ _ HT). case_decide as Hnext.
    + destruct Hnext as [_ Hne]. rewrite IH by (by apply Hsucc). tauto.
    + split; [done|]. intros ([_ _] & q & f & Hq & Hf & Hp). exfalso. apply Hnext.
      split; [done|]. by apply (non_empty_inhabited_L q).
Qed.

End determinize_facts.

(** X5. The DFA that [nfa_to_dfa] returns is well formed: it has the
    alphabet of the NFA, its start state and its accept states are among its
    states, it has a row, empty or not, for each of its states and for nothing
    else, and every transition is on a symbol of the alphabet. *)
Theorem determinize_well_formed `{Countable St} (nfa : NFA.t St) :
  ∃ D,
    nfa_to_dfa nfa = Some D ∧
    DFA.alphabet D = NFA.alphabet nfa ∧
    DFA.start_state D ∈ DFA.states D ∧
    DFA.accept_states D ⊆ DFA.states D ∧
    dom (DFA.transitions D) = DFA.states D ∧
    (∀ T c U, (T, c, U) ∈ DFA.edges D → c ∈ DFA.alphabet D).
Proof.
  destruct (nfa_to_dfa_spec nfa)
    as (D & HD & _ & Halpha & Hstart & Hdelta & _ & Hdom & Hacc).
  exists D. split_and!; try done.
  - intros T HT. by apply Hacc in HT as [? _].
  - apply set_eq. intros T. rewrite elem_of_dom. split; [apply Hdom|].
    by apply (nfa_to_dfa_rows nfa).
  - intros T c U HU%elem_of_edges.
    assert (T ∈ DFA.states D) as HT.
    { apply Hdom. unfold DFA.delta in HU.
      destruct (DFA.transitions D !! T); [done | by simpl in HU]. }
    rewrite (Hdelta _ _ HT) in HU. case_decide as Hc; [|done].
    rewrite Halpha. by destruct Hc.
Qed.

(** X6. No state of the DFA is the empty set: the construction has no dead
    state, a missing transition stands for it. *)
Theorem determinize_no_empty_state `{Countable St} (nfa : NFA.t St) :
  ∃ D, nfa_to_dfa nfa = Some D ∧ ∅ ∉ DFA.states D.
Proof.
  destruct (nfa_to_dfa_spec nfa) as (D & HD & _).
  exists D. split; [done|]. intros Hempty.
  apply (nfa_to_dfa_states_ind nfa (λ T, T ≠ ∅) D) in Hempty; [done| |done|done].
  apply (non_empty_inhabited_L (NFA.start_state nfa)).
  apply epsilon_closure_spec, reachable_seed. set_solver.
Qed.

(** X7. Every state of the DFA is closed under the epsilon transitions of
    the NFA: closing it again changes nothing. *)
Theorem determinize_states_closed `{Countable St} (nfa : NFA.t St) :
  ∃ D,
    nfa_to_dfa nfa = Some D ∧
    ∀ T, T ∈ DFA.states D → NFA.epsilon_closure nfa T = T.
Proof.
  destruct (nfa_to_dfa_spec nfa) as (D & HD & _).
  exists D. split; [done|]. intros T HT. apply set_eq. intros y. split.
  - intros (x & Hx & Hxy)%epsilon_closure_path.
    eapply eps_closed_rtc; [by eapply dfa_states_eps_closed | done |].
    by eapply rtc_of_path.
  - intros Hy. by apply epsilon_closure_spec, reachable_seed.
Qed.

(** X8. The states of the DFA are exactly the sets the subset construction
    reaches from the closure of the start state: none is missing and none is
    unreachable. *)
Theorem determinize_states_reachable `{Countable St} (nfa : NFA.t St) :
  ∃ D,
    nfa_to_dfa nfa = Some D ∧
    ∀ T, T ∈ DFA.states D ↔
         rtc (subset_step nfa)
           (NFA.epsilon_closure nfa {[NFA.start_state nfa]}) T.
Proof.
  destruct (nfa_to_dfa_spec nfa)
    as (D & HD & Hstart & _ & Hin & _ & Hsucc & _).
  exists D. split; [done|]. intros T. split.
  - apply (nfa_to_dfa_states_ind nfa
             (rtc (subset_step nfa)
                (NFA.epsilon_closure nfa {[NFA.start_state nfa]})) D);
      [apply rtc_refl | | done].
    intros T' c HT' Hc Hne. eapply rtc_r; [done|]. by exists c.
  - revert T. apply rtc_ind_r; [by rewrite <- Hstart|].
    intros T1 T2 _ (c & Hc & -> & Hne) IH. by apply Hsucc.
Qed.

(** X9. Every state of the DFA is made of the start state and of targets of
    the NFA, so the DFA has at most [2 ^ n] states for [n] such NFA states. *)
Theorem determinize_size `{Countable St} (nfa : NFA.t St) :
  ∃ D,
    nfa_to_dfa nfa = Some D ∧
    (∀ T, T ∈ DFA.states D → T ⊆ {[NFA.start_state nfa]} ∪ NFA.targets nfa) ∧
    size (DFA.states D) ≤ 2 ^ size ({[NFA.start_state nfa]} ∪ NFA.targets nfa).
Proof.
  destruct (nfa_to_dfa_spec nfa) as (D & HD & _).
  assert (∀ T, T ∈ DFA.states D → T ⊆ universe nfa) as Huniv.
  { apply (nfa_to_dfa_states_ind nfa (λ T, T ⊆ universe nfa) D); [| |done].
    - apply start_closure_universe.
    - intros T c _ _ _. apply next_states_universe. }
  exists D. split_and!; [done | done | by apply size_family_le].
Qed.

(** X10. Determinization keeps the language: the DFA accepts a string iff
    all its characters are in the alphabet and some path of the NFA leads from
    the start state to an accept state and spells it. *)
Theorem determinize_language `{Countable St} (nfa : NFA.t St) :
  ∃ D,
    nfa_to_dfa nfa = Some D ∧
    ∀ s,
      DFA.accepts D s = true ↔
      Forall (λ ch, String ch "" ∈ NFA.alphabet nfa) (String.list_ascii_of_string s) ∧
      nfa_language nfa (String.list_ascii_of_string s).
Proof.
  destruct (nfa_to_dfa_spec nfa) as (D & HD & Hstart & _ & Hin & _).
  exists D. split; [done|]. intros s. unfold DFA.accepts.
  rewrite (accepts_loop_spec nfa D) by done. rewrite Hstart.
  apply and_iff_compat_l. unfold nfa_language. split.
  - intros (q & f & (x & ->%elem_of_singleton & Hxq)%epsilon_closure_path & Hf & Hp).
    exists f. split; [done|]. by apply (path_app _ _ [] q _ f).
  - intros (f & Hf & Hp). exists (NFA.start_state nfa), f. split_and!; [|done|done].
    apply epsilon_closure_spec, reachable_seed. set_solver.
Qed.

(** ** Infix to postfix *)

Section to_postfix_facts.
Implicit Types (out st l : list ascii) (c : ascii).

Lemma filter_none {A} (P : A → Prop) `{!∀ x, Decision (P x)} (l : list A) :
  Forall (λ x, ¬ P x) l → filter P l = [].
Proof.
  induction 1 as [|x l Hx _ IH]; [done|]. by rewrite filter_cons_False.
Qed.

(** Both popping loops move a prefix of the stack to the end of the output. *)
Lemma pop_to_paren_spec out st :
  ∃ moved rest,
    pop_to_paren out st = (out ++ moved, rest) ∧ st = moved ++ rest ∧
    (rest = [] ∨ ∃ rest', rest = "("%char :: rest').
Proof.
  revert out. induction st as [|x st IH]; intros out; simpl.
  - exists [], []. rewrite app_nil_r. eauto.
  - destruct (decide (x = "("%char)) as [->|Hx].
    + exists [], ("("%char :: st). rewrite app_nil_r. eauto.
    + destruct (IH (out ++ [x])) as (moved & rest & -> & -> & Hrest).
      exists (x :: moved), rest. rewrite <- app_assoc. eauto.
Qed.

Lemma pop_ops_spec pc out st :
  ∃ moved rest, pop_ops pc out st = (out ++ moved, rest) ∧ st = moved ++ rest.
Proof.
  revert out. induction st as [|x st IH]; intros out; simpl.
  - exists [], []. rewrite app_nil_r. eauto.
  - destruct (decide (x = "("%char)) as [->|Hx].
    + exists [], ("("%char :: st). rewrite app_nil_r. eauto.
    + destruct (decide (pc ≤ default 0 (prec x))).
      * destruct (IH (out ++ [x])) as (moved & rest & -> & ->).
        exists (x :: moved), rest. rewrite <- app_assoc. eauto.
      * exists [], (x :: st). rewrite app_nil_r. eauto.
Qed.

Lemma filter_middle_False {A} (P : A → Prop) `{!∀ x, Decision (P x)}
    (l1 l2 : list A) (x : A) :
  ¬ P x → filter P (l1 ++ x :: l2) = filter P (l1 ++ l2).
Proof. intros Hx. by rewrite !filter_app, filter_cons_False. Qed.

Lemma filter_middle_True {A} (P : A → Prop) `{!∀ x, Decision (P x)}
    (l1 l2 : list A) (x : A) :
  P x → filter P (l1 ++ x :: l2) ≡ₚ filter P (l1 ++ l2) ++ [x].
Proof.
  intros Hx. rewrite !filter_app, filter_cons_True by done.
  rewrite <- app_assoc. apply Permutation_app_head.
  apply Permutation_cons_append.
Qed.

Lemma filter_one_False {A} (P : A → Prop) `{!∀ x, Decision (P x)} (x : A) :
  ¬ P x → filter P [x] = [].
Proof. intros Hx. by rewrite filter_cons_False. Qed.

Lemma filter_one_True {A} (P : A → Prop) `{!∀ x, Decision (P x)} (x : A) :
  P x → filter P [x] = [x].
Proof. intros Hx. by rewrite filter_cons_True. Qed.

(** What one iteration of the loop of [to_postfix] keeps. *)
Lemma to_postfix_step_spec out st c :
  Forall (λ x, ¬ is_literal x) st → ")"%char ∉ out ++ st →
  let '(out1, st1) := to_postfix_step (out, st) c in
  Forall (λ x, ¬ is_literal x) st1 ∧
  (")"%char ∉ out1 ++ st1) ∧
  filter non_paren (out1 ++ st1) ≡ₚ filter non_paren (out ++ st) ++ filter non_paren [c] ∧
  filter is_literal (out1 ++ st1) = filter is_literal (out ++ st) ++ filter is_literal [c] ∧
  length (out1 ++ st1) ≤ S (length (out ++ st)).
Proof.
  intros Hst Hclose. unfold to_postfix_step.
  destruct (decide (c = "("%char)) as [->|Hopen];
    [|destruct (decide (c = ")"%char)) as [->|Hcl]].
  - (* an opening parenthesis is pushed *)
    assert (¬ non_paren "("%char) as Hnp by (by intros [? _]).
    assert (¬ is_literal "("%char) as Hnl by (by intros [? _]).
    rewrite !filter_middle_False, !filter_one_False, !app_nil_r by done.
    split_and!; [by constructor | | done | done | rewrite !length_app; simpl; lia].
    rewrite elem_of_app, elem_of_cons. rewrite elem_of_app in Hclose.
    intros [?|[?|?]]; [tauto | done | tauto].
  - (* a closing parenthesis pops to the matching one, if any *)
    assert (¬ non_paren ")"%char) as Hnp by (by intros [_ ?]).
    assert (¬ is_literal ")"%char) as Hnl by (by intros [? _]).
    assert (¬ non_paren "("%char) as Hnp' by (by intros [? _]).
    assert (¬ is_literal "("%char) as Hnl' by (by intros [? _]).
    destruct (pop_to_paren_spec out st) as (moved & rest & -> & -> & Hrest).
    rewrite !filter_one_False, !app_nil_r by done.
    rewrite app_assoc in Hclose. apply Forall_app in Hst as [_ Hst].
    rewrite !(app_assoc out moved rest).
    destruct Hrest as [->|(rest' & ->)]; simpl.
    + split_and!; [done | done | done | done | lia].
    + apply Forall_cons in Hst as [_ Hst].
      rewrite !filter_middle_False by done.
      split_and!; [done | | done | done | rewrite !length_app; simpl; lia].
      rewrite elem_of_app in *. rewrite elem_of_cons in Hclose. tauto.
  - destruct (prec c) as [pc|] eqn:Hprec.
    + (* an operator pops the operators that bind as tightly, then is pushed *)
      assert (non_paren c) as Hnp by done.
      assert (¬ is_literal c) as Hnl by (intros [_ ?]; congruence).
      destruct (pop_ops_spec pc out st) as (moved & rest & -> & ->).
      rewrite (filter_one_False is_literal), (filter_one_True non_paren), !app_nil_r
        by done.
      rewrite app_assoc in Hclose. apply Forall_app in Hst as [_ Hst].
      rewrite !(app_assoc out moved rest).
      rewrite (filter_middle_False is_literal) by done.
      split_and!; [by constructor | | by apply filter_middle_True | done
                  | rewrite !length_app; simpl; lia].
      rewrite elem_of_app in *. rewrite elem_of_cons.
      intros [?|[?|?]]; [tauto | congruence | tauto].
    + (* a literal goes to the output *)
      assert (is_literal c) as Hlit by done.
      assert (non_paren c) as Hnp by done.
      rewrite !filter_one_True by done. rewrite <- !(app_assoc out [c] st). simpl.
      split_and!; [done | | by apply filter_middle_True |
                  | rewrite !length_app; simpl; lia].
      * rewrite elem_of_app, elem_of_cons. rewrite elem_of_app in Hclose.
        intros [?|[?|?]]; [tauto | congruence | tauto].
      * rewrite !filter_app, filter_cons_True by done.
        rewrite (filter_none is_literal st), !app_nil_r by done. done.
Qed.

Lemma to_postfix_fold_spec l out st :
  Forall (λ x, ¬ is_literal x) st → ")"%char ∉ out ++ st →
  let '(out1, st1) := fold_left to_postfix_step l (out, st) in
  (")"%char ∉ out1 ++ st1) ∧
  filter non_paren (out1 ++ st1) ≡ₚ filter non_paren (out ++ st) ++ filter non_paren l ∧
  filter is_literal (out1 ++ st1) = filter is_literal (out ++ st) ++ filter is_literal l ∧
  length (out1 ++ st1) ≤ length (out ++ st) + length l.
Proof.
  revert out st. induction l as [|c l IH]; intros out st Hst Hclose;
    cbn [fold_left].
  - rewrite !filter_nil, !app_nil_r. split_and!; [done | done | done | simpl; lia].
  - pose proof (to_postfix_step_spec out st c Hst Hclose) as Hstep.
    destruct (to_postfix_step (out, st) c) as [out1 st1].
    destruct Hstep as (Hst1 & Hclose1 & Hperm & Hlit & Hlen).
    specialize (IH out1 st1 Hst1 Hclose1).
    destruct (fold_left to_postfix_step l (out1, st1)) as [out2 st2].
    destruct IH as (Hclose2 & Hperm2 & Hlit2 & Hlen2).
    split_and!; [done | | | simpl; lia].
    + rewrite Hperm2, Hperm, <- app_assoc. apply Permutation_app_head.
      by rewrite <- filter_app.
    + rewrite Hlit2, Hlit, <- app_assoc. f_equal. by rewrite <- filter_app.
Qed.

Lemma to_postfix_spec (r : string) :
  let out := String.list_ascii_of_string (to_postfix r) in
  let l := String.list_ascii_of_string r in
  (")"%char ∉ out) ∧
  filter non_paren out ≡ₚ filter non_paren l ∧
  filter is_literal out = filter is_literal l ∧
  length out ≤ length l.
Proof.
  simpl. unfold to_postfix.
  pose proof (to_postfix_fold_spec (String.list_ascii_of_string r) [] []) as Hfold.
  destruct (fold_left to_postfix_step (String.list_ascii_of_string r) ([], []))
    as [out st].
  rewrite String.list_ascii_of_string_of_list_ascii.
  apply Hfold; [done | by intros ?%elem_of_nil].
Qed.

End to_postfix_facts.

(** X11. [to_postfix] never emits a closing parenthesis. *)
Theorem to_postfix_never_emits_close (r : string) :
  ")"%char ∉ String.list_ascii_of_string (to_postfix r).
Proof. by destruct (to_postfix_spec r) as (? & _). Qed.

(** X12. [to_postfix] only drops parentheses and reorders: its output has
    the characters of the pattern other than parentheses, each as many times,
    and is no longer than the pattern. *)
Theorem to_postfix_keeps_characters (r : string) :
  filter non_paren (String.list_ascii_of_string (to_postfix r))
    ≡ₚ filter non_paren (String.list_ascii_of_string r) ∧
  length (String.list_ascii_of_string (to_postfix r))
    ≤ length (String.list_ascii_of_string r).
Proof. by destruct (to_postfix_spec r) as (_ & ? & _ & ?). Qed.

(** X13. [to_postfix] keeps the literal characters in the order of the
    pattern: only operators move. *)
Theorem to_postfix_literals_in_order (r : string) :
  filter is_literal (String.list_ascii_of_string (to_postfix r)) =
  filter is_literal (String.list_ascii_of_string r).
Proof. by destruct (to_postfix_spec r) as (_ & _ & ? & _). Qed.

(** ** Normalizing a chain of literals *)

Section chain_facts.
Implicit Types (out st l : list ascii) (c p : ascii).

Lemma is_literal_plain c :
  is_literal c →
  char_in c "|(" = false ∧ char_in c "|)*+?" = false ∧ c ≠ "."%char.
Proof.
  intros [[Ho Hc] Hp]. unfold prec in Hp. repeat case_decide; try done.
  simpl. rewrite !decide_False by (by intros ?). done.
Qed.

Lemma add_concat_step_literal out p c :
  is_literal p → is_literal c →
  add_concat_step (out, Some p) c = ((out ++ ["."%char]) ++ [c], Some c).
Proof.
  intros Hp Hc. unfold add_concat_step.
  destruct (is_literal_plain _ Hp) as (-> & _ & _).
  destruct (is_literal_plain _ Hc) as (_ & -> & _). done.
Qed.

Lemma add_concat_fold_literals l out p :
  Forall is_literal l → is_literal p →
  (fold_left add_concat_step l (out, Some p)).1 =
  out ++ (l ≫= λ x, ["."%char; x]).
Proof.
  revert out p. induction l as [|c l IH]; intros out p Hl Hp.
  - simpl. by rewrite app_nil_r.
  - apply Forall_cons in Hl as [Hc Hl]. cbn [fold_left].
    rewrite add_concat_step_literal, IH by done.
    by rewrite <- !app_assoc.
Qed.

Lemma add_concat_literals l :
  Forall is_literal l →
  add_concat (String.string_of_list_ascii l) = String.string_of_list_ascii (dotted l).
Proof.
  intros Hl. unfold add_concat. rewrite String.list_ascii_of_string_of_list_ascii.
  f_equal. destruct Hl as [|c l Hc Hl]; [done|]. simpl.
  by rewrite add_concat_fold_literals.
Qed.

Lemma to_postfix_fold_chain l out :
  Forall is_literal l →
  fold_left to_postfix_step (l ≫= λ x, ["."%char; x]) (out, ["."%char]) =
  (out ++ (l ≫= λ x, ["."%char; x]), ["."%char]).
Proof.
  revert out. induction l as [|c l IH]; intros out Hl.
  - simpl. by rewrite app_nil_r.
  - apply Forall_cons in Hl as [Hc Hl].
    destruct Hc as [[Ho Hcl] Hp].
    cbn [mbind list_bind app fold_left]. 
    assert (to_postfix_step (out, ["."%char]) "."%char = (out ++ ["."%char], ["."%char]))
      as -> by done.
    assert (to_postfix_step (out ++ ["."%char], ["."%char]) c =
            ((out ++ ["."%char]) ++ [c], ["."%char])) as ->.
    { unfold to_postfix_step. rewrite !decide_False by done. by rewrite Hp. }
    rewrite IH by done. by rewrite <- !app_assoc.
Qed.

Lemma bind_shift (a : ascii) l :
  (l ≫= λ x, [a; x]) ++ [a] = a :: (l ≫= λ x, [x; a]).
Proof.
  induction l as [|x l IH]; [done|].
  rewrite !bind_cons. simpl. f_equal. f_equal. apply IH.
Qed.

Lemma to_postfix_dotted l :
  Forall is_literal l →
  to_postfix (String.string_of_list_ascii (dotted l)) =
  String.string_of_list_ascii (concat_chain l).
Proof.
  intros Hl. unfold to_postfix. rewrite String.list_ascii_of_string_of_list_ascii.
  destruct Hl as [|c l [[Ho Hc] Hp] Hl]; [done|].
  cbn [dotted concat_chain fold_left].
  assert (to_postfix_step ([], []) c = ([c], [])) as ->.
  { unfold to_postfix_step. rewrite !decide_False by done. by rewrite Hp. }
  destruct Hl as [|x l [[Hxo Hxc] Hxp] Hl]; [done|].
  cbn [mbind list_bind app fold_left].
  assert (to_postfix_step ([c], []) "."%char = ([c], ["."%char])) as -> by done.
  assert (to_postfix_step ([c], ["."%char]) x = ([c; x], ["."%char])) as ->.
  { unfold to_postfix_step. rewrite !decide_False by done. by rewrite Hxp. }
  rewrite to_postfix_fold_chain by done. f_equal.
  rewrite <- app_assoc, bind_shift. done.
Qed.

End chain_facts.

(** X14. A pattern made of literal characters only is normalized to the
    left-nested chain of concatenations: [add_concat] puts a marker between
    every two characters and [to_postfix] turns [c1.c2.c3...] into
    [c1 c2 . c3 . ...]. *)
Theorem normalize_literals (l : list ascii) :
  Forall is_literal l →
  add_concat (String.string_of_list_ascii l) = String.string_of_list_ascii (dotted l) ∧
  to_postfix (add_concat (String.string_of_list_ascii l)) =
    String.string_of_list_ascii (concat_chain l).
Proof.
  intros Hl. rewrite add_concat_literals by done.
  split; [done | by apply to_postfix_dotted].
Qed.

Lemma normalize_literals_witness :
  add_concat "abc" = "a.b.c" ∧ to_postfix (add_concat "abc") = "ab.c.".
Proof.
  apply (normalize_literals ["a"; "b"; "c"]%char).
  repeat constructor; by intros ?.
Defined.

(** ** The branches of [build] *)

Section build_facts.
Implicit Types (gen : nat) (stack : list fragment) (s nfa : fragment) (t : ascii).

Lemma build_step_operand gen stack t :
  is_operand t →
  build_step (gen, stack) t = Ok (S (S gen), frag_lit gen t :: stack).
Proof.
  intros (Hdot & Hbar & Hq). unfold build_step.
  rewrite !decide_False by done. by rewrite Hq.
Qed.

Lemma build_step_cat gen s1 s2 stack :
  build_step (gen, s2 :: s1 :: stack) "." = Ok (gen, frag_cat s1 s2 :: stack).
Proof. by destruct s1 as [[st1 acc1] tr1], s2 as [[st2 acc2] tr2]. Qed.

Lemma build_step_alt gen s1 s2 stack :
  build_step (gen, s2 :: s1 :: stack) "|" =
  Ok (S (S gen), frag_alt gen s1 s2 :: stack).
Proof. by destruct s1 as [[st1 acc1] tr1], s2 as [[st2 acc2] tr2]. Qed.

Lemma build_step_star gen s stack t :
  t = "*"%char ∨ t = "+"%char →
  build_step (gen, s :: stack) t = Ok (S (S gen), frag_star gen s :: stack).
Proof. by destruct s as [[st acc] tr]; intros [->| ->]. Qed.

Lemma build_step_opt gen s stack :
  build_step (gen, s :: stack) "?" = Ok (S (S gen), frag_opt gen s :: stack).
Proof. by destruct s as [[st acc] tr]. Qed.

(** The tokens by kind. *)
Lemma token_cases t :
  t = "."%char ∨ t = "|"%char ∨ t = "*"%char ∨ t = "+"%char ∨ t = "?"%char ∨
  is_operand t.
Proof.
  unfold is_operand. simpl.
  destruct (decide (t = "."%char)); [tauto|].
  destruct (decide (t = "|"%char)); [tauto|].
  destruct (decide ("*"%char = t)); [naive_solver|].
  destruct (decide ("+"%char = t)); [naive_solver|].
  destruct (decide ("?"%char = t)); [naive_solver|].
  naive_solver.
Qed.

(** [build_step] fails exactly when the token pops too much. *)
Lemma build_step_arity gen stack t :
  match arity_step (length stack) t with
  | Some h =>
      ∃ gen' stack',
        build_step (gen, stack) t = Ok (gen', stack') ∧ length stack' = h ∧
        gen' = (if decide (t = "."%char) then gen else S (S gen))
  | None => build_step (gen, stack) t = Raise IndexError
  end.
Proof.
  destruct (token_cases t) as [->|[->|[->|[->|[->|Hop]]]]].
  - destruct stack as [|s2 [|s1 stack]]; [done|done|].
    rewrite build_step_cat. simpl. eexists _, _. split_and!; [done | simpl; lia | done].
  - destruct stack as [|s2 [|s1 stack]]; [done|done|].
    rewrite build_step_alt. simpl. eexists _, _. split_and!; [done | simpl; lia | done].
  - destruct stack as [|s stack]; [done|].
    rewrite build_step_star by tauto. simpl. eexists _, _. done.
  - destruct stack as [|s stack]; [done|].
    rewrite build_step_star by tauto. simpl. eexists _, _. done.
  - destruct stack as [|s stack]; [done|].
    rewrite build_step_opt. simpl. eexists _, _. done.
  - rewrite build_step_operand by done. destruct Hop as (Hdot & Hbar & Hq).
    unfold arity_step. rewrite decide_False by tauto. rewrite Hq.
    rewrite decide_False by done. eexists _, _. done.
Qed.

Lemma build_loop_arity gen stack (postfix : list ascii) :
  match arity_loop (length stack) postfix with
  | Some h =>
      ∃ gen' stack',
        build_loop (gen, stack) postfix = Ok (gen', stack') ∧ length stack' = h ∧
        gen' = gen + 2 * length (filter (λ t, t ≠ "."%char) postfix)
  | None => build_loop (gen, stack) postfix = Raise IndexError
  end.
Proof.
  revert gen stack. induction postfix as [|t postfix IH]; intros gen stack.
  - simpl. exists gen, stack. split_and!; [done | done | lia].
  - cbn [arity_loop build_loop].
    pose proof (build_step_arity gen stack t) as Hstep.
    destruct (arity_step (length stack) t) as [h|]; [|by rewrite Hstep].
    destruct Hstep as (gen1 & stack1 & -> & <- & ->).
    specialize (IH (if decide (t = "."%char) then gen else S (S gen)) stack1).
    cbn [mbind result_bind].
    destruct (arity_loop (length stack1) postfix) as [h|]; [|done].
    destruct IH as (gen' & stack' & -> & <- & ->).
    eexists _, stack'. split_and!; [done | done |].
    destruct (decide (t = "."%char)) as [->|Ht].
    + rewrite filter_cons_False; [lia | by intros ?].
    + rewrite filter_cons_True by done. simpl. lia.
Qed.

End build_facts.

(** X16. [build] raises [IndexError] exactly when the postfix sequence is
    not well formed, that is when a binary operator finds fewer than two
    fragments on the stack, a quantifier finds none, or nothing is left at the
    end; otherwise it returns a fragment. *)
Theorem build_raises_iff_ill_formed (postfix : string) :
  match arity_loop 0 (String.list_ascii_of_string postfix) with
  | Some (S _) => ∃ nfa, build postfix = Ok nfa
  | _ => build postfix = Raise IndexError
  end.
Proof.
  unfold build.
  pose proof (build_loop_arity 0 [] (String.list_ascii_of_string postfix)) as Hloop.
  simpl in Hloop.
  destruct (arity_loop 0 (String.list_ascii_of_string postfix)) as [h|];
    [|by rewrite Hloop].
  destruct Hloop as (gen & stack & -> & <- & _). cbn [mbind result_bind].
  destruct stack as [|s stack _] using rev_ind; [done|].
  rewrite length_app. simpl. rewrite Nat.add_1_r, last_snoc. by exists s.
Qed.

(** ** The transitions of the tables [build] makes *)

Section table_facts.
Implicit Types (tr dst src : table) (q d k : nat) (sym : symbol).
Implicit Types (v : list (symbol * nat)) (acc : gset nat).

Lemma tr_step_empty q sym d : ¬ tr_step ∅ q sym d.
Proof. unfold tr_step, tr_get. rewrite lookup_empty. by intros ?%elem_of_nil. Qed.

Lemma tr_step_singleton k v q sym d :
  tr_step {[k := v]} q sym d ↔ q = k ∧ (sym, d) ∈ v.
Proof.
  unfold tr_step, tr_get. destruct (decide (q = k)) as [->|Hne].
  - rewrite lookup_singleton_eq. simpl. tauto.
  - rewrite lookup_singleton_ne by done. simpl.
    split; [by intros ?%elem_of_nil | tauto].
Qed.

Lemma tr_step_extend tr k v q sym d :
  tr_step (tr_extend tr k v) q sym d ↔
  tr_step tr q sym d ∨ (q = k ∧ (sym, d) ∈ v).
Proof.
  unfold tr_step, tr_extend. destruct (decide (q = k)) as [->|Hne].
  - unfold tr_get at 1. rewrite lookup_insert_eq. simpl.
    rewrite elem_of_app. tauto.
  - unfold tr_get at 1. rewrite lookup_insert_ne by done. fold (tr_get tr q). tauto.
Qed.

Lemma tr_step_merge dst src q sym d :
  tr_step (tr_merge dst src) q sym d ↔ tr_step dst q sym d ∨ tr_step src q sym d.
Proof.
  unfold tr_merge. revert q sym d.
  apply (map_fold_weak_ind
    (λ r m, ∀ q sym d, tr_step r q sym d ↔ tr_step dst q sym d ∨ tr_step m q sym d)).
  - intros q sym d. pose proof (tr_step_empty q sym d). tauto.
  - intros k v m r Hk IH q sym d. rewrite tr_step_extend, IH.
    unfold tr_step at 4, tr_get. destruct (decide (q = k)) as [->|Hne].
    + rewrite lookup_insert_eq. simpl.
      assert (¬ tr_step m k sym d).
      { unfold tr_step, tr_get. rewrite Hk. by intros ?%elem_of_nil. }
      tauto.
    + rewrite lookup_insert_ne by done. fold (tr_get m q). fold (tr_step m q sym d).
      tauto.
Qed.

Lemma tr_step_extend_all tr acc v q sym d :
  tr_step (tr_extend_all tr acc v) q sym d ↔
  tr_step tr q sym d ∨ (q ∈ acc ∧ (sym, d) ∈ v).
Proof.
  unfold tr_extend_all. revert q sym d.
  apply (set_fold_ind_L
    (λ r (X : gset nat), ∀ q sym d,
       tr_step r q sym d ↔ tr_step tr q sym d ∨ (q ∈ X ∧ (sym, d) ∈ v))).
  - intros q sym d. set_solver.
  - intros x X r Hx IH q sym d. rewrite tr_step_extend, IH, elem_of_union,
      elem_of_singleton. tauto.
Qed.

(** The transitions of each fragment [build] pushes. *)
Lemma frag_lit_step gen t q sym d :
  tr_step (frag_lit gen t).2 q sym d ↔ q = gen ∧ sym = Some t ∧ d = S gen.
Proof.
  unfold frag_lit; simpl. rewrite tr_step_singleton, list_elem_of_singleton.
  naive_solver.
Qed.

Lemma frag_cat_step s1 s2 q sym d :
  tr_step (frag_cat s1 s2).2 q sym d ↔
  tr_step s1.2 q sym d ∨ (q ∈ s1.1.2 ∧ sym = None ∧ d = s2.1.1) ∨
  tr_step s2.2 q sym d.
Proof.
  unfold frag_cat; simpl.
  rewrite tr_step_merge, tr_step_extend_all, list_elem_of_singleton.
  unfold EPS. naive_solver.
Qed.

Lemma frag_alt_step gen s1 s2 q sym d :
  tr_step (frag_alt gen s1 s2).2 q sym d ↔
  tr_step s1.2 q sym d ∨ tr_step s2.2 q sym d ∨
  (q = gen ∧ sym = None ∧ (d = s1.1.1 ∨ d = s2.1.1)) ∨
  ((q ∈ s1.1.2 ∨ q ∈ s2.1.2) ∧ sym = None ∧ d = S gen).
Proof.
  unfold frag_alt; simpl.
  rewrite tr_step_extend_all, tr_step_extend, !tr_step_merge,
    list_elem_of_singleton, !elem_of_cons, elem_of_union.
  pose proof (tr_step_empty q sym d). pose proof (elem_of_nil (sym, d)).
  unfold EPS. naive_solver.
Qed.

Lemma frag_star_step gen s q sym d :
  tr_step (frag_star gen s).2 q sym d ↔
  tr_step s.2 q sym d ∨
  (q = gen ∧ sym = None ∧ (d = s.1.1 ∨ d = S gen)) ∨
  (q ∈ s.1.2 ∧ sym = None ∧ (d = s.1.1 ∨ d = S gen)).
Proof.
  unfold frag_star; simpl.
  rewrite !tr_step_extend, tr_step_extend_all, tr_step_extend, tr_step_merge,
    !list_elem_of_singleton, !elem_of_cons.
  pose proof (tr_step_empty q sym d). pose proof (elem_of_nil (sym, d)).
  unfold EPS. naive_solver.
Qed.

Lemma frag_opt_step gen s q sym d :
  tr_step (frag_opt gen s).2 q sym d ↔
  tr_step s.2 q sym d ∨
  (q = gen ∧ sym = None ∧ (d = s.1.1 ∨ d = S gen)) ∨
  (q ∈ s.1.2 ∧ sym = None ∧ d = S gen).
Proof.
  unfold frag_opt; simpl.
  rewrite tr_step_extend_all, tr_step_extend, tr_step_merge,
    !list_elem_of_singleton, !elem_of_cons.
  pose proof (tr_step_empty q sym d). pose proof (elem_of_nil (sym, d)).
  unfold EPS. naive_solver.
Qed.

End table_facts.

(** ** The states of the fragments [build] makes *)

Section fragment_facts.
Implicit Types (gen lo mid hi : nat) (stack : list fragment) (s nfa : fragment).

Lemma frag_lit_in gen t : fragment_in gen (S (S gen)) (frag_lit gen t).
Proof.
  split; [|split].
  - simpl. lia.
  - exists (S gen). split; [done | lia].
  - intros q sym d (-> & _ & ->)%frag_lit_step. lia.
Qed.

Lemma frag_cat_in lo mid hi s1 s2 :
  fragment_in lo mid s1 → fragment_in mid hi s2 →
  fragment_in lo hi (frag_cat s1 s2).
Proof.
  intros (Hst1 & (f1 & Hacc1 & Hf1) & Htr1) (Hst2 & (f2 & Hacc2 & Hf2) & Htr2).
  split; [|split].
  - simpl. lia.
  - exists f2. split; [done | lia].
  - intros q sym d [H1|[(Hq & _ & ->)|H2]]%frag_cat_step.
    + apply Htr1 in H1. lia.
    + rewrite Hacc1 in Hq. apply elem_of_singleton in Hq as ->. lia.
    + apply Htr2 in H2. lia.
Qed.

Lemma frag_alt_in lo mid gen s1 s2 :
  fragment_in lo mid s1 → fragment_in mid gen s2 →
  fragment_in lo (S (S gen)) (frag_alt gen s1 s2).
Proof.
  intros (Hst1 & (f1 & Hacc1 & Hf1) & Htr1) (Hst2 & (f2 & Hacc2 & Hf2) & Htr2).
  split; [|split].
  - simpl. lia.
  - exists (S gen). split; [done | lia].
  - intros q sym d [H1|[H2|[(-> & _ & Hd)|(Hq & _ & ->)]]]%frag_alt_step.
    + apply Htr1 in H1. lia.
    + apply Htr2 in H2. lia.
    + destruct Hd as [-> | ->]; lia.
    + rewrite Hacc1, Hacc2, !elem_of_singleton in Hq. destruct Hq as [-> | ->]; lia.
Qed.

Lemma frag_star_in lo gen s :
  fragment_in lo gen s → fragment_in lo (S (S gen)) (frag_star gen s).
Proof.
  intros (Hst & (f & Hacc & Hf) & Htr). split; [|split].
  - simpl. lia.
  - exists (S gen). split; [done | lia].
  - intros q sym d [H1|[(-> & _ & Hd)|(Hq & _ & Hd)]]%frag_star_step.
    + apply Htr in H1. lia.
    + destruct Hd as [-> | ->]; lia.
    + rewrite Hacc, elem_of_singleton in Hq. subst q. destruct Hd as [-> | ->]; lia.
Qed.

Lemma frag_opt_in lo gen s :
  fragment_in lo gen s → fragment_in lo (S (S gen)) (frag_opt gen s).
Proof.
  intros (Hst & (f & Hacc & Hf) & Htr). split; [|split].
  - simpl. lia.
  - exists (S gen). split; [done | lia].
  - intros q sym d [H1|[(-> & _ & Hd)|(Hq & _ & ->)]]%frag_opt_step.
    + apply Htr in H1. lia.
    + destruct Hd as [-> | ->]; lia.
    + rewrite Hacc, elem_of_singleton in Hq. subst q. lia.
Qed.

(** An iteration of [build] keeps the ranges of the stack apart. *)
Lemma build_step_stack_in gen stack t gen' stack' :
  build_step (gen, stack) t = Ok (gen', stack') →
  stack_in gen stack → stack_in gen' stack'.
Proof.
  destruct (token_cases t) as [->|[->|[->|[->|[->|Hop]]]]].
  - destruct stack as [|s2 [|s1 stack]]; [done|done|].
    rewrite build_step_cat. intros [= <- <-] (lo2 & H2 & lo1 & H1 & Hrest).
    exists lo1. split; [by eapply frag_cat_in | done].
  - destruct stack as [|s2 [|s1 stack]]; [done|done|].
    rewrite build_step_alt. intros [= <- <-] (lo2 & H2 & lo1 & H1 & Hrest).
    exists lo1. split; [by eapply frag_alt_in | done].
  - destruct stack as [|s stack]; [done|].
    rewrite build_step_star by tauto. intros [= <- <-] (lo & Hs & Hrest).
    exists lo. split; [by apply frag_star_in | done].
  - destruct stack as [|s stack]; [done|].
    rewrite build_step_star by tauto. intros [= <- <-] (lo & Hs & Hrest).
    exists lo. split; [by apply frag_star_in | done].
  - destruct stack as [|s stack]; [done|].
    rewrite build_step_opt. intros [= <- <-] (lo & Hs & Hrest).
    exists lo. split; [by apply frag_opt_in | done].
  - rewrite build_step_operand by done. intros [= <- <-] Hstack.
    exists gen. split; [apply frag_lit_in | done].
Qed.

Lemma build_loop_stack_in (postfix : list ascii) gen stack gen' stack' :
  build_loop (gen, stack) postfix = Ok (gen', stack') →
  stack_in gen stack → stack_in gen' stack'.
Proof.
  revert gen stack. induction postfix as [|t postfix IH]; intros gen stack.
  - by intros [= <- <-].
  - cbn [build_loop]. destruct (build_step (gen, stack) t) as [[gen1 stack1]|] eqn:Hs;
      [|done].
    cbn [mbind result_bind]. intros Hloop Hstack. eapply IH; [done|].
    by eapply build_step_stack_in.
Qed.

Lemma stack_in_last hi stack nfa :
  stack_in hi stack → last stack = Some nfa →
  ∃ lo hi', hi' ≤ hi ∧ fragment_in lo hi' nfa.
Proof.
  revert hi. induction stack as [|s stack IH]; intros hi; [done|].
  intros (lo & Hs & Hrest) Hlast. destruct stack as [|s' stack].
  - injection Hlast as <-. exists lo, hi. done.
  - destruct (IH lo Hrest Hlast) as (lo' & hi' & Hle & Hin).
    exists lo', hi'. split; [|done].
    destruct Hs as [? _]. lia.
Qed.

End fragment_facts.

(** X17. The fragment [build] returns has one accept state, and its
    states, the start state, the accept state and the ends of every
    transition, are numbers below twice the number of tokens other than the
    concatenation marker: two states per such token. *)
Theorem build_states_bounded (postfix : string) (nfa : fragment) :
  build postfix = Ok nfa →
  let n := 2 * length (filter (λ t, t ≠ "."%char) (String.list_ascii_of_string postfix)) in
  nfa.1.1 < n ∧
  (∃ f, nfa.1.2 = {[f]} ∧ f < n) ∧
  (∀ q sym d, (sym, d) ∈ tr_get nfa.2 q → q < n ∧ d < n).
Proof.
  unfold build. intros Hbuild.
  pose proof (build_loop_arity 0 [] (String.list_ascii_of_string postfix)) as Harity.
  destruct (build_loop (0, []) (String.list_ascii_of_string postfix))
    as [[gen stack]|] eqn:Hloop; [|done].
  cbn [mbind result_bind] in Hbuild.
  destruct (last stack) as [s|] eqn:Hlast; [|done]. injection Hbuild as ->.
  destruct (arity_loop _ _) as [h|]; [|done].
  destruct Harity as (gen' & stack' & [= <- <-] & _ & Hgen). simpl in Hgen.
  apply build_loop_stack_in in Hloop; [|done].
  destruct (stack_in_last _ _ _ Hloop Hlast)
    as (lo & hi & Hle & Hst & (f & Hacc & Hf) & Htr).
  simpl. rewrite Nat.add_0_r in *. rewrite <- Hgen. split; [|split].
  - lia.
  - exists f. split; [done | lia].
  - intros q sym d Hd. apply Htr in Hd. lia.
Qed.

Lemma build_states_bounded_witness :
  ∃ nfa, build "ab.*" = Ok nfa ∧ nfa.1.1 < 6 ∧ ∃ f, nfa.1.2 = {[f]} ∧ f < 6.
Proof.
  assert (∃ nfa, build "ab.*" = Ok nfa) as [nfa Hnfa]
    by (eexists; vm_compute; reflexivity).
  exists nfa. split; [done|].
  destruct (build_states_bounded "ab.*" nfa Hnfa) as (Hst & Hacc & _).
  split; [exact Hst | exact Hacc].
Defined.

(** ** The language of the fragments [build] makes *)

Section thompson_facts.
Implicit Types (gen lo mid hi q d f : nat) (s nfa : fragment) (w : list ascii).

Lemma language_singleton nfa f w :
  nfa.1.2 = {[f]} → language nfa w ↔ path (tr_step nfa.2) nfa.1.1 w f.
Proof.
  intros Hacc. unfold language. rewrite Hacc. split.
  - by intros (f' & ->%elem_of_singleton & Hp).
  - intros Hp. exists f. split; [by apply elem_of_singleton | done].
Qed.

Lemma frag_lit_language gen t w : language (frag_lit gen t) w ↔ w = [t].
Proof.
  rewrite (language_singleton _ (S gen)) by done. simpl. split.
  - intros Hp. inversion Hp as [|? d ? ? Hs Hp'|? c d w' ? Hs Hp']; subst.
    + lia.
    + apply (frag_lit_step gen t) in Hs as (_ & [=] & _).
    + apply (frag_lit_step gen t) in Hs as (_ & [= ->] & ->).
      inversion Hp' as [|? d ? ? Hs' _|? c' d w'' ? Hs' _]; subst; [done| |];
        apply (frag_lit_step gen t) in Hs' as (? & _); lia.
  - intros ->. eapply path_sym; [|apply path_nil].
    by apply (frag_lit_step gen t).
Qed.

Lemma frag_cat_path lo mid hi s1 s2 f1 f2 q w f :
  fragment_in lo mid s1 → fragment_in mid hi s2 →
  s1.1.2 = {[f1]} → s2.1.2 = {[f2]} →
  path (tr_step (frag_cat s1 s2).2) q w f → f = f2 →
  (mid ≤ q < hi → path (tr_step s2.2) q w f2) ∧
  (lo ≤ q < mid →
   ∃ w1 w2, w = w1 ++ w2 ∧ path (tr_step s1.2) q w1 f1 ∧
            path (tr_step s2.2) s2.1.1 w2 f2).
Proof.
  intros (Hst1 & (f1' & Hacc1 & Hf1) & Htr1) (Hst2 & (f2' & Hacc2 & Hf2) & Htr2).
  intros Hacc1' Hacc2'. rewrite Hacc1' in Hacc1. rewrite Hacc2' in Hacc2.
  apply singleton_inj in Hacc1 as <-. apply singleton_inj in Hacc2 as <-.
  induction 1 as [q|q d w f Hs Hp IH|q c d w f Hs Hp IH]; intros ->.
  - split; [intros _; apply path_nil | lia].
  - specialize (IH eq_refl) as [IH2 IH1].
    apply frag_cat_step in Hs as [Hs|[(Hq & _ & ->)|Hs]].
    + pose proof (Htr1 _ _ _ Hs). split; [lia|]. intros _.
      destruct IH1 as (w1 & w2 & -> & Hp1 & Hp2); [lia|].
      exists w1, w2. split; [done|]. split; [by eapply path_eps | done].
    + rewrite Hacc1' in Hq. apply elem_of_singleton in Hq as ->.
      split; [lia|]. intros _. exists [], w.
      split; [done|]. split; [apply path_nil | apply IH2; lia].
    + pose proof (Htr2 _ _ _ Hs). split; [|lia]. intros _.
      eapply path_eps; [done | apply IH2; lia].
  - specialize (IH eq_refl) as [IH2 IH1].
    apply frag_cat_step in Hs as [Hs|[(_ & [=] & _)|Hs]].
    + pose proof (Htr1 _ _ _ Hs). split; [lia|]. intros _.
      destruct IH1 as (w1 & w2 & -> & Hp1 & Hp2); [lia|].
      exists (c :: w1), w2. split; [done|]. split; [by eapply path_sym | done].
    + pose proof (Htr2 _ _ _ Hs). split; [|lia]. intros _.
      eapply path_sym; [done | apply IH2; lia].
Qed.

Lemma frag_cat_language lo mid hi s1 s2 w :
  fragment_in lo mid s1 → fragment_in mid hi s2 →
  language (frag_cat s1 s2) w ↔
  ∃ w1 w2, w = w1 ++ w2 ∧ language s1 w1 ∧ language s2 w2.
Proof.
  intros H1 H2.
  destruct H1 as (Hst1 & (f1 & Hacc1 & Hf1) & Htr1) eqn:E1.
  destruct H2 as (Hst2 & (f2 & Hacc2 & Hf2) & Htr2) eqn:E2.
  rewrite (language_singleton (frag_cat s1 s2) f2) by done.
  setoid_rewrite (language_singleton s1 f1); [|done].
  setoid_rewrite (language_singleton s2 f2); [|done].
  split.
  - intros Hp.
    eapply (frag_cat_path lo mid hi s1 s2 f1 f2) in Hp as [_ Hp]; try done.
    apply Hp. simpl. lia.
  - intros (w1 & w2 & -> & Hp1 & Hp2). simpl. apply path_app with f1.
    + eapply path_mono; [|done]. intros a sym b Hs. apply frag_cat_step. by left.
    + eapply path_eps.
      * apply frag_cat_step. right. left. rewrite Hacc1.
        split; [by apply elem_of_singleton | done].
      * eapply path_mono; [|done]. intros a sym b Hs. apply frag_cat_step.
        by right; right.
Qed.

Lemma frag_alt_path lo mid gen s1 s2 f1 f2 q w f :
  fragment_in lo mid s1 → fragment_in mid gen s2 →
  s1.1.2 = {[f1]} → s2.1.2 = {[f2]} →
  path (tr_step (frag_alt gen s1 s2).2) q w f → f = S gen →
  (lo ≤ q < mid → path (tr_step s1.2) q w f1) ∧
  (mid ≤ q < gen → path (tr_step s2.2) q w f2) ∧
  (q = gen → path (tr_step s1.2) s1.1.1 w f1 ∨ path (tr_step s2.2) s2.1.1 w f2) ∧
  (q = S gen → w = []).
Proof.
  intros (Hst1 & (f1' & Hacc1 & Hf1) & Htr1) (Hst2 & (f2' & Hacc2 & Hf2) & Htr2).
  intros Hacc1' Hacc2'. rewrite Hacc1' in Hacc1. rewrite Hacc2' in Hacc2.
  apply singleton_inj in Hacc1 as <-. apply singleton_inj in Hacc2 as <-.
  induction 1 as [q|q d w f Hs Hp IH|q c d w f Hs Hp IH]; intros ->.
  - split_and!; [lia | lia | lia | done].
  - specialize (IH eq_refl) as (IH1 & IH2 & IHs & IHf).
    apply frag_alt_step in Hs as [Hs|[Hs|[(-> & _ & Hd)|(Hq & _ & ->)]]].
    + pose proof (Htr1 _ _ _ Hs).
      split_and!; [intros _; eapply path_eps; [done | apply IH1; lia]
                  | lia | lia | lia].
    + pose proof (Htr2 _ _ _ Hs).
      split_and!; [lia | intros _; eapply path_eps; [done | apply IH2; lia]
                  | lia | lia].
    + split_and!; [lia | lia | | lia]. intros _.
      destruct Hd as [-> | ->]; [left; apply IH1; lia | right; apply IH2; lia].
    + rewrite Hacc1', Hacc2', !elem_of_singleton in Hq.
      rewrite (IHf eq_refl).
      destruct Hq as [-> | ->];
        (split_and!; [try lia; intros _; apply path_nil ..]); lia.
  - specialize (IH eq_refl) as (IH1 & IH2 & IHs & IHf).
    apply frag_alt_step in Hs as [Hs|[Hs|[(_ & [=] & _)|(_ & [=] & _)]]].
    + pose proof (Htr1 _ _ _ Hs).
      split_and!; [intros _; eapply path_sym; [done | apply IH1; lia]
                  | lia | lia | lia].
    + pose proof (Htr2 _ _ _ Hs).
      split_and!; [lia | intros _; eapply path_sym; [done | apply IH2; lia]
                  | lia | lia].
Qed.

Lemma frag_alt_language lo mid gen s1 s2 w :
  fragment_in lo mid s1 → fragment_in mid gen s2 →
  language (frag_alt gen s1 s2) w ↔ language s1 w ∨ language s2 w.
Proof.
  intros H1 H2.
  destruct H1 as (Hst1 & (f1 & Hacc1 & Hf1) & Htr1) eqn:E1.
  destruct H2 as (Hst2 & (f2 & Hacc2 & Hf2) & Htr2) eqn:E2.
  rewrite (language_singleton (frag_alt gen s1 s2) (S gen)) by done.
  rewrite (language_singleton s1 f1), (language_singleton s2 f2) by done.
  split.
  - intros Hp.
    eapply (frag_alt_path lo mid gen s1 s2 f1 f2) in Hp as (_ & _ & Hp & _);
      try done.
    by apply Hp.
  - assert (∀ a sym b, tr_step s1.2 a sym b →
                       tr_step (frag_alt gen s1 s2).2 a sym b) as Hsub1.
    { intros a sym b Hs. apply frag_alt_step. by left. }
    assert (∀ a sym b, tr_step s2.2 a sym b →
                       tr_step (frag_alt gen s1 s2).2 a sym b) as Hsub2.
    { intros a sym b Hs. apply frag_alt_step. by right; left. }
    intros Hp. change (path (tr_step (frag_alt gen s1 s2).2) gen w (S gen)).
    destruct Hp as [Hp|Hp]; rewrite <- (app_nil_r w).
    + apply path_eps with s1.1.1.
      { apply frag_alt_step. right; right; left. eauto. }
      apply path_app with f1; [exact (path_mono _ _ _ _ _ Hsub1 Hp)|].
      eapply path_eps; [|apply path_nil].
      apply frag_alt_step. do 3 right. rewrite Hacc1, elem_of_singleton. eauto.
    + apply path_eps with s2.1.1.
      { apply frag_alt_step. right; right; left. eauto. }
      apply path_app with f2; [exact (path_mono _ _ _ _ _ Hsub2 Hp)|].
      eapply path_eps; [|apply path_nil].
      apply frag_alt_step. do 3 right. rewrite Hacc2, elem_of_singleton. eauto.
Qed.

Lemma frag_star_path lo gen s f0 q w f :
  fragment_in lo gen s → s.1.2 = {[f0]} →
  path (tr_step (frag_star gen s).2) q w f → f = S gen →
  (lo ≤ q < gen →
   ∃ w0 ws, w = w0 ++ concat ws ∧ path (tr_step s.2) q w0 f0 ∧
            Forall (λ w', path (tr_step s.2) s.1.1 w' f0) ws) ∧
  (q = gen →
   ∃ ws, w = concat ws ∧ Forall (λ w', path (tr_step s.2) s.1.1 w' f0) ws) ∧
  (q = S gen → w = []).
Proof.
  intros (Hst & (f0' & Hacc & Hf0) & Htr) Hacc'. rewrite Hacc' in Hacc.
  apply singleton_inj in Hacc as <-.
  induction 1 as [q|q d w f Hs Hp IH|q c d w f Hs Hp IH]; intros ->.
  - split_and!; [lia | lia | done].
  - specialize (IH eq_refl) as (IH0 & IHs & IHf).
    apply frag_star_step in Hs as [Hs|[(-> & _ & Hd)|(Hq & _ & Hd)]].
    + pose proof (Htr _ _ _ Hs). split_and!; [|lia|lia]. intros _.
      destruct IH0 as (w0 & ws & -> & Hp0 & Hws); [lia|].
      exists w0, ws. split_and!; [done | by eapply path_eps | done].
    + split_and!; [lia| |lia]. intros _. destruct Hd as [-> | ->].
      * destruct IH0 as (w0 & ws & -> & Hp0 & Hws); [lia|].
        exists (w0 :: ws). split; [done | by constructor].
      * rewrite (IHf eq_refl). by exists [].
    + rewrite Hacc', elem_of_singleton in Hq. subst q.
      split_and!; [|lia|lia]. intros _. destruct Hd as [-> | ->].
      * destruct IH0 as (w0 & ws & -> & Hp0 & Hws); [lia|].
        exists [], (w0 :: ws). split_and!; [done | apply path_nil | by constructor].
      * rewrite (IHf eq_refl). exists [], []. split_and!; [done | apply path_nil | done].
  - specialize (IH eq_refl) as (IH0 & IHs & IHf).
    apply frag_star_step in Hs as [Hs|[(_ & [=] & _)|(_ & [=] & _)]].
    pose proof (Htr _ _ _ Hs). split_and!; [|lia|lia]. intros _.
    destruct IH0 as (w0 & ws & -> & Hp0 & Hws); [lia|].
    exists (c :: w0), ws. split_and!; [done | by eapply path_sym | done].
Qed.

Lemma frag_star_language lo gen s w :
  fragment_in lo gen s →
  language (frag_star gen s) w ↔ ∃ ws, w = concat ws ∧ Forall (language s) ws.
Proof.
  intros Hin. destruct Hin as (Hst & (f0 & Hacc & Hf0) & Htr) eqn:E.
  rewrite (language_singleton (frag_star gen s) (S gen)) by done.
  assert (∀ ws, Forall (language s) ws ↔
                Forall (λ w', path (tr_step s.2) s.1.1 w' f0) ws) as Hlang.
  { intros ws. apply Forall_proper; [|done]. intros w'.
    by apply language_singleton. }
  setoid_rewrite Hlang. split.
  - intros Hp.
    eapply (frag_star_path lo gen s f0) in Hp as (_ & Hp & _); try done.
    by apply Hp.
  - assert (∀ a sym b, tr_step s.2 a sym b →
                       tr_step (frag_star gen s).2 a sym b) as Hsub.
    { intros a sym b Hs. apply frag_star_step. by left. }
    assert (∀ ws, Forall (λ w', path (tr_step s.2) s.1.1 w' f0) ws →
                  path (tr_step (frag_star gen s).2) f0 (concat ws) (S gen)) as Hloop.
    { induction 1 as [|w' ws Hw' _ IH]; simpl.
      - eapply path_eps; [|apply path_nil].
        apply frag_star_step. right; right. rewrite Hacc, elem_of_singleton. eauto.
      - apply path_eps with s.1.1.
        { apply frag_star_step. right; right. rewrite Hacc, elem_of_singleton. eauto. }
        apply path_app with f0; [exact (path_mono _ _ _ _ _ Hsub Hw') | done]. }
    intros (ws & -> & Hws).
    change (path (tr_step (frag_star gen s).2) gen (concat ws) (S gen)).
    destruct Hws as [|w' ws Hw' Hws]; simpl.
    + eapply path_eps; [|apply path_nil]. apply frag_star_step. right; left. eauto.
    + apply path_eps with s.1.1.
      { apply frag_star_step. right; left. eauto. }
      apply path_app with f0; [exact (path_mono _ _ _ _ _ Hsub Hw') | by apply Hloop].
Qed.

Lemma frag_opt_path lo gen s f0 q w f :
  fragment_in lo gen s → s.1.2 = {[f0]} →
  path (tr_step (frag_opt gen s).2) q w f → f = S gen →
  (lo ≤ q < gen → path (tr_step s.2) q w f0) ∧
  (q = gen → w = [] ∨ path (tr_step s.2) s.1.1 w f0) ∧
  (q = S gen → w = []).
Proof.
  intros (Hst & (f0' & Hacc & Hf0) & Htr) Hacc'. rewrite Hacc' in Hacc.
  apply singleton_inj in Hacc as <-.
  induction 1 as [q|q d w f Hs Hp IH|q c d w f Hs Hp IH]; intros ->.
  - split_and!; [lia | lia | done].
  - specialize (IH eq_refl) as (IH0 & IHs & IHf).
    apply frag_opt_step in Hs as [Hs|[(-> & _ & Hd)|(Hq & _ & ->)]].
    + pose proof (Htr _ _ _ Hs). split_and!; [|lia|lia]. intros _.
      eapply path_eps; [done | apply IH0; lia].
    + split_and!; [lia| |lia]. intros _. destruct Hd as [-> | ->].
      * right. apply IH0. lia.
      * left. by apply IHf.
    + rewrite Hacc', elem_of_singleton in Hq. subst q.
      split_and!; [|lia|lia]. intros _. rewrite (IHf eq_refl). apply path_nil.
  - specialize (IH eq_refl) as (IH0 & IHs & IHf).
    apply frag_opt_step in Hs as [Hs|[(_ & [=] & _)|(_ & [=] & _)]].
    pose proof (Htr _ _ _ Hs). split_and!; [|lia|lia]. intros _.
    eapply path_sym; [done | apply IH0; lia].
Qed.

Lemma frag_opt_language lo gen s w :
  fragment_in lo gen s →
  language (frag_opt gen s) w ↔ w = [] ∨ language s w.
Proof.
  intros Hin. destruct Hin as (Hst & (f0 & Hacc & Hf0) & Htr) eqn:E.
  rewrite (language_singleton (frag_opt gen s) (S gen)) by done.
  rewrite (language_singleton s f0) by done. split.
  - intros Hp.
    eapply (frag_opt_path lo gen s f0) in Hp as (_ & Hp & _); try done.
    by apply Hp.
  - assert (∀ a sym b, tr_step s.2 a sym b →
                       tr_step (frag_opt gen s).2 a sym b) as Hsub.
    { intros a sym b Hs. apply frag_opt_step. by left. }
    intros Hp. change (path (tr_step (frag_opt gen s).2) gen w (S gen)).
    destruct Hp as [->|Hp].
    + eapply path_eps; [|apply path_nil]. apply frag_opt_step. right; left. eauto.
    + rewrite <- (app_nil_r w). apply path_eps with s.1.1.
      { apply frag_opt_step. right; left. eauto. }
      apply path_app with f0; [exact (path_mono _ _ _ _ _ Hsub Hp)|].
      eapply path_eps; [|apply path_nil].
      apply frag_opt_step. right; right. rewrite Hacc, elem_of_singleton. eauto.
Qed.

Lemma build_loop_app (acc : nat * list fragment) (l1 l2 : list ascii) :
  build_loop acc (l1 ++ l2) = (acc' ← build_loop acc l1; build_loop acc' l2).
Proof.
  revert acc. induction l1 as [|t l1 IH]; intros acc; [done|].
  simpl. destruct (build_step acc t) as [acc1|]; [apply IH | done].
Qed.

(** [build] on the postfix of an expression, whatever comes before and
    after: it pushes one fragment, with states of its own, that accepts the
    words of the expression. *)
Lemma build_loop_postfix_of (e : regex) gen (stack : list fragment)
    (rest : list ascii) :
  regex_ok e →
  ∃ nfa,
    build_loop (gen, stack) (postfix_of e ++ rest) =
      build_loop (gen + 2 * regex_size e, nfa :: stack) rest ∧
    fragment_in gen (gen + 2 * regex_size e) nfa ∧
    ∀ w, language nfa w ↔ denotes e w.
Proof.
  revert gen stack rest.
  induction e as [c|e1 IH1 e2 IH2|e1 IH1 e2 IH2|e IH|e IH];
    intros gen stack rest Hok; simpl in Hok.
  - exists (frag_lit gen c). cbn [postfix_of regex_size app build_loop].
    rewrite build_step_operand by done. cbn [mbind result_bind].
    replace (gen + 2 * 1) with (S (S gen)) by lia.
    split_and!; [done | apply frag_lit_in | apply frag_lit_language].
  - destruct Hok as [Hok1 Hok2]. cbn [postfix_of regex_size].
    rewrite <- !app_assoc.
    destruct (IH1 gen stack (postfix_of e2 ++ ["."%char] ++ rest) Hok1)
      as (s1 & -> & Hin1 & Hlang1).
    destruct (IH2 (gen + 2 * regex_size e1) (s1 :: stack) (["."%char] ++ rest) Hok2)
      as (s2 & -> & Hin2 & Hlang2).
    exists (frag_cat s1 s2). cbn [app build_loop].
    rewrite build_step_cat. cbn [mbind result_bind].
    replace (gen + 2 * (regex_size e1 + regex_size e2))
      with (gen + 2 * regex_size e1 + 2 * regex_size e2) by lia.
    split_and!; [done | by eapply frag_cat_in |].
    intros w. rewrite (frag_cat_language _ _ _ _ _ _ Hin1 Hin2). simpl. split.
    + intros (w1 & w2 & -> & H1%Hlang1 & H2%Hlang2). eauto.
    + intros (w1 & w2 & -> & H1%Hlang1 & H2%Hlang2). eauto.
  - destruct Hok as [Hok1 Hok2]. cbn [postfix_of regex_size].
    rewrite <- !app_assoc.
    destruct (IH1 gen stack (postfix_of e2 ++ ["|"%char] ++ rest) Hok1)
      as (s1 & -> & Hin1 & Hlang1).
    destruct (IH2 (gen + 2 * regex_size e1) (s1 :: stack) (["|"%char] ++ rest) Hok2)
      as (s2 & -> & Hin2 & Hlang2).
    exists (frag_alt (gen + 2 * regex_size e1 + 2 * regex_size e2) s1 s2).
    cbn [app build_loop]. rewrite build_step_alt. cbn [mbind result_bind].
    replace (gen + 2 * S (regex_size e1 + regex_size e2))
      with (S (S (gen + 2 * regex_size e1 + 2 * regex_size e2))) by lia.
    split_and!; [done | by eapply frag_alt_in |].
    intros w. rewrite (frag_alt_language _ _ _ _ _ _ Hin1 Hin2). simpl.
    by rewrite Hlang1, Hlang2.
  - cbn [postfix_of regex_size]. rewrite <- !app_assoc.
    destruct (IH gen stack (["*"%char] ++ rest) Hok) as (s & -> & Hin & Hlang).
    exists (frag_star (gen + 2 * regex_size e) s).
    cbn [app build_loop]. rewrite build_step_star by tauto. cbn [mbind result_bind].
    replace (gen + 2 * S (regex_size e))
      with (S (S (gen + 2 * regex_size e))) by lia.
    split_and!; [done | by eapply frag_star_in |].
    intros w. rewrite (frag_star_language _ _ _ _ Hin). simpl.
    split; intros (ws & -> & Hws); exists ws; (split; [done|]);
      (eapply Forall_impl; [done|]); intros w'; apply Hlang.
  - cbn [postfix_of regex_size]. rewrite <- !app_assoc.
    destruct (IH gen stack (["?"%char] ++ rest) Hok) as (s & -> & Hin & Hlang).
    exists (frag_opt (gen + 2 * regex_size e) s).
    cbn [app build_loop]. rewrite build_step_opt. cbn [mbind result_bind].
    replace (gen + 2 * S (regex_size e))
      with (S (S (gen + 2 * regex_size e))) by lia.
    split_and!; [done | by eapply frag_opt_in |].
    intros w. rewrite (frag_opt_language _ _ _ _ Hin). simpl. by rewrite Hlang.
Qed.

End thompson_facts.

(** X18. Thompson's construction is correct on the patterns without ['+']:
    for an expression made of symbols, concatenation, alternation, star and
    optional, [build] on its postfix sequence returns an automaton, and
    [matches] accepts a string on it iff the expression denotes the string. *)
Theorem build_matches_denotation (e : regex) :
  regex_ok e →
  ∃ nfa,
    build (String.string_of_list_ascii (postfix_of e)) = Ok nfa ∧
    ∀ s, matches nfa s = true ↔ denotes e (String.list_ascii_of_string s).
Proof.
  intros Hok.
  destruct (build_loop_postfix_of e 0 [] [] Hok) as (nfa & Hloop & _ & Hlang).
  exists nfa. split.
  - unfold build. rewrite String.list_ascii_of_string_of_list_ascii.
    rewrite app_nil_r in Hloop. by rewrite Hloop.
  - intros s. by rewrite matches_language, Hlang.
Qed.

Lemma build_matches_denotation_witness :
  ∃ nfa,
    build "ab*." = Ok nfa ∧
    ∀ s, matches nfa s = true ↔
         denotes (Cat (Lit "a") (Star (Lit "b"))) (String.list_ascii_of_string s).
Proof.
  apply (build_matches_denotation (Cat (Lit "a") (Star (Lit "b")))).
  repeat split; by intros ?.
Defined.

(** ** Normalizing a fully parenthesized pattern *)

Section show_facts.
Implicit Types (e : regex) (out st rest : list ascii) (prev : option ascii).

Lemma is_literal_operand c : is_literal c → is_operand c.
Proof.
  intros Hc. destruct (is_literal_plain c Hc) as (_ & Hq & Hdot).
  destruct Hc as [_ Hp]. split_and!; [done | by intros -> |].
  simpl in *. repeat case_decide; done.
Qed.

Lemma regex_plain_ok e : regex_plain e → regex_ok e.
Proof.
  induction e; simpl; [apply is_literal_operand | | | |]; naive_solver.
Qed.

Lemma last_char_marker e : regex_plain e → marker_after (Some (last_char e)) = ["."%char].
Proof.
  destruct e as [c| | | |]; try done.
  intros Hc. unfold marker_after, last_char.
  by destruct (is_literal_plain _ Hc) as (-> & _).
Qed.

Lemma add_concat_step_operator out prev c :
  char_in c "|)*+?" = true → add_concat_step (out, prev) c = (out ++ [c], Some c).
Proof.
  intros Hc. unfold add_concat_step. rewrite Hc.
  destruct prev; [by rewrite andb_false_r | done].
Qed.

Lemma add_concat_step_open out prev :
  add_concat_step (out, prev) "("%char =
  (out ++ marker_after prev ++ ["("%char], Some "("%char).
Proof.
  unfold add_concat_step, marker_after. destruct prev as [p|]; [|done].
  destruct (char_in p "|("); simpl; [done | by rewrite <- app_assoc].
Qed.

Lemma marker_after_open : marker_after (Some "("%char) = [].
Proof. done. Qed.

Lemma marker_after_bar : marker_after (Some "|"%char) = [].
Proof. done. Qed.

(** [add_concat] on a pattern, whatever comes before and after. *)
Lemma add_concat_fold_show e out prev rest :
  regex_plain e →
  fold_left add_concat_step (show e ++ rest) (out, prev) =
  fold_left add_concat_step rest
    (out ++ marker_after prev ++ show_marked e, Some (last_char e)).
Proof.
  revert out prev rest.
  induction e as [c|e1 IH1 e2 IH2|e1 IH1 e2 IH2|e IH|e IH];
    intros out prev rest Hok; simpl in Hok.
  - cbn [show show_marked last_char app fold_left]. f_equal.
    unfold add_concat_step, marker_after.
    destruct (is_literal_plain _ Hok) as (_ & -> & _).
    destruct prev as [p|]; [|by rewrite app_nil_l].
    destruct (char_in p "|("); simpl; [done | by rewrite <- app_assoc].
  - destruct Hok as [Hok1 Hok2]. cbn [show show_marked last_char].
    rewrite <- !app_assoc. cbn [app fold_left].
    rewrite add_concat_step_open, IH1, IH2 by done.
    rewrite last_char_marker, marker_after_open by done. cbn [app fold_left].
    rewrite add_concat_step_operator by done. f_equal. f_equal.
    by rewrite <- !app_assoc.
  - destruct Hok as [Hok1 Hok2]. cbn [show show_marked last_char].
    rewrite <- !app_assoc. cbn [app fold_left].
    rewrite add_concat_step_open, IH1 by done. cbn [app fold_left].
    rewrite add_concat_step_operator, IH2 by done.
    rewrite marker_after_open, marker_after_bar. cbn [app fold_left].
    rewrite add_concat_step_operator by done. f_equal. f_equal.
    by rewrite <- !app_assoc.
  - cbn [show show_marked last_char]. rewrite <- !app_assoc.
    rewrite IH by done. cbn [app fold_left].
    rewrite add_concat_step_operator by done. f_equal. f_equal.
    by rewrite <- !app_assoc.
  - cbn [show show_marked last_char]. rewrite <- !app_assoc.
    rewrite IH by done. cbn [app fold_left].
    rewrite add_concat_step_operator by done. f_equal. f_equal.
    by rewrite <- !app_assoc.
Qed.

Lemma add_concat_show e :
  regex_plain e →
  add_concat (String.string_of_list_ascii (show e)) =
  String.string_of_list_ascii (show_marked e).
Proof.
  intros Hok. unfold add_concat. rewrite String.list_ascii_of_string_of_list_ascii.
  rewrite <- (app_nil_r (show e)), add_concat_fold_show by done. done.
Qed.

Lemma emitted_pending e : emitted e ++ pending e = postfix_of e.
Proof. destruct e; simpl; by rewrite ?app_nil_r. Qed.

Lemma pop_ops_pending pc e out st :
  pc ≤ 3 → pop_ops pc out (pending e ++ st) = pop_ops pc (out ++ pending e) st.
Proof.
  intros Hpc. destruct e; simpl; rewrite ?app_nil_r; try done;
    by rewrite decide_True by done.
Qed.

Lemma pop_ops_quiet out st : quiet st → pop_ops 3 out st = (out, st).
Proof.
  intros Hq. destruct st as [|x st]; [done|]. simpl.
  destruct (decide (x = "("%char)); [done|].
  destruct (Hq x eq_refl) as [?|?]; [done|]. rewrite decide_False; [done | lia].
Qed.

Lemma pop_to_paren_pending e out st :
  pop_to_paren out (pending e ++ st) = pop_to_paren (out ++ pending e) st.
Proof. destruct e; simpl; by rewrite ?app_nil_r. Qed.

Lemma quiet_open st : quiet ("("%char :: st).
Proof. intros x [= <-]. by left. Qed.

Lemma quiet_binary c st : c = "."%char ∨ c = "|"%char → quiet (c :: st).
Proof. intros [-> | ->] x [= <-]; right; simpl; lia. Qed.

(** [to_postfix] on a marked pattern, whatever comes before and after, the
    operator stack having no quantifier on top. *)
Lemma to_postfix_fold_show e out st rest :
  regex_plain e → quiet st →
  fold_left to_postfix_step (show_marked e ++ rest) (out, st) =
  fold_left to_postfix_step rest (out ++ emitted e, pending e ++ st).
Proof.
  revert out st rest.
  induction e as [c|e1 IH1 e2 IH2|e1 IH1 e2 IH2|e IH|e IH];
    intros out st rest Hok Hq; simpl in Hok.
  - cbn [show_marked emitted pending postfix_of app fold_left]. f_equal.
    destruct Hok as [[Ho Hc] Hp]. unfold to_postfix_step.
    rewrite !decide_False by done. by rewrite Hp.
  - destruct Hok as [Hok1 Hok2]. cbn [show_marked emitted pending postfix_of].
    rewrite <- !app_assoc. cbn [app fold_left].
    change (to_postfix_step (out, st) "("%char) with (out, "("%char :: st).
    rewrite IH1 by (done || apply quiet_open). cbn [app fold_left].
    change (to_postfix_step (out ++ emitted e1, pending e1 ++ "("%char :: st) "."%char)
      with (let '(o, s) := pop_ops 2 (out ++ emitted e1) (pending e1 ++ "("%char :: st)
            in (o, "."%char :: s)).
    rewrite pop_ops_pending by lia. cbn [pop_ops]. rewrite decide_True by done.
    rewrite IH2 by (done || apply quiet_binary; tauto). cbn [app fold_left].
    change (to_postfix_step ?a ")"%char)
      with (let '(o, s) := pop_to_paren a.1 a.2 in (o, tail s)).
    cbn [fst snd]. rewrite pop_to_paren_pending. cbn [pop_to_paren].
    rewrite decide_False, decide_True by done. cbn [tail]. f_equal. f_equal.
    rewrite <- !app_assoc, !(app_assoc (emitted _)), !emitted_pending.
    by rewrite <- ?app_assoc.
  - destruct Hok as [Hok1 Hok2]. cbn [show_marked emitted pending postfix_of].
    rewrite <- !app_assoc. cbn [app fold_left].
    change (to_postfix_step (out, st) "("%char) with (out, "("%char :: st).
    rewrite IH1 by (done || apply quiet_open). cbn [app fold_left].
    change (to_postfix_step (out ++ emitted e1, pending e1 ++ "("%char :: st) "|"%char)
      with (let '(o, s) := pop_ops 1 (out ++ emitted e1) (pending e1 ++ "("%char :: st)
            in (o, "|"%char :: s)).
    rewrite pop_ops_pending by lia. cbn [pop_ops]. rewrite decide_True by done.
    rewrite IH2 by (done || apply quiet_binary; tauto). cbn [app fold_left].
    change (to_postfix_step ?a ")"%char)
      with (let '(o, s) := pop_to_paren a.1 a.2 in (o, tail s)).
    cbn [fst snd]. rewrite pop_to_paren_pending. cbn [pop_to_paren].
    rewrite decide_False, decide_True by done. cbn [tail]. f_equal. f_equal.
    rewrite <- !app_assoc, !(app_assoc (emitted _)), !emitted_pending.
    by rewrite <- ?app_assoc.
  - cbn [show_marked emitted pending]. rewrite <- !app_assoc.
    rewrite IH by done. cbn [app fold_left]. f_equal.
    change (to_postfix_step (out ++ emitted e, pending e ++ st) "*"%char)
      with (let '(o, s) := pop_ops 3 (out ++ emitted e) (pending e ++ st)
            in (o, "*"%char :: s)).
    rewrite pop_ops_pending, pop_ops_quiet by (done || lia).
    by rewrite <- app_assoc, emitted_pending.
  - cbn [show_marked emitted pending]. rewrite <- !app_assoc.
    rewrite IH by done. cbn [app fold_left]. f_equal.
    change (to_postfix_step (out ++ emitted e, pending e ++ st) "?"%char)
      with (let '(o, s) := pop_ops 3 (out ++ emitted e) (pending e ++ st)
            in (o, "?"%char :: s)).
    rewrite pop_ops_pending, pop_ops_quiet by (done || lia).
    by rewrite <- app_assoc, emitted_pending.
Qed.

Lemma to_postfix_show e :
  regex_plain e →
  to_postfix (String.string_of_list_ascii (show_marked e)) =
  String.string_of_list_ascii (postfix_of e).
Proof.
  intros Hok. unfold to_postfix. rewrite String.list_ascii_of_string_of_list_ascii.
  rewrite <- (app_nil_r (show_marked e)), to_postfix_fold_show
    by (done || by intros x [=]).
  cbn [fold_left]. by rewrite app_nil_r, <- app_assoc, app_nil_l, emitted_pending.
Qed.

End show_facts.

Lemma build_postfix_of (e : regex) :
  regex_ok e →
  ∃ nfa,
    build (String.string_of_list_ascii (postfix_of e)) = Ok nfa ∧
    ∀ s, matches nfa s = true ↔ denotes e (String.list_ascii_of_string s).
Proof.
  intros Hok.
  destruct (build_loop_postfix_of e 0 [] [] Hok) as (nfa & Hloop & _ & Hlang).
  exists nfa. split.
  - unfold build. rewrite String.list_ascii_of_string_of_list_ascii.
    rewrite app_nil_r in Hloop. by rewrite Hloop.
  - intros s. by rewrite matches_language, Hlang.
Qed.

(** X19. On a pattern with a pair of parentheses around every concatenation
    and every alternation, normalization is right: [add_concat] puts the
    marker between the two operands of each concatenation and nowhere else,
    and [to_postfix] then gives the postfix sequence of the expression. *)
Theorem normalize_parenthesized (e : regex) :
  regex_plain e →
  add_concat (String.string_of_list_ascii (show e)) =
    String.string_of_list_ascii (show_marked e) ∧
  to_postfix (add_concat (String.string_of_list_ascii (show e))) =
    String.string_of_list_ascii (postfix_of e).
Proof.
  intros Hok. rewrite add_concat_show by done.
  split; [done | by apply to_postfix_show].
Qed.

Lemma normalize_parenthesized_witness :
  add_concat "(a(b|c)*)" = "(a.(b|c)*)" ∧
  to_postfix (add_concat "(a(b|c)*)") = "abc|*.".
Proof.
  apply (normalize_parenthesized (Cat (Lit "a") (Star (Alt (Lit "b") (Lit "c"))))).
  repeat split; by intros ?.
Defined.

(** X20. The whole pipeline is correct on the fully parenthesized patterns
    without ['+']: compiling the pattern of an expression returns an automaton,
    and [matches] accepts a string on it iff the expression denotes it. *)
Theorem compile_matches_denotation (e : regex) :
  regex_plain e →
  ∃ nfa,
    compile (String.string_of_list_ascii (show e)) = Ok nfa ∧
    ∀ s, matches nfa s = true ↔ denotes e (String.list_ascii_of_string s).
Proof.
  intros Hok. unfold compile.
  rewrite add_concat_show, to_postfix_show by done.
  by apply build_postfix_of, regex_plain_ok.
Qed.

Lemma compile_matches_denotation_witness :
  ∃ nfa,
    compile "(a(b|c)*)" = Ok nfa ∧
    ∀ s, matches nfa s = true ↔
         denotes (Cat (Lit "a") (Star (Alt (Lit "b") (Lit "c"))))
           (String.list_ascii_of_string s).
Proof.
  apply (compile_matches_denotation (Cat (Lit "a") (Star (Alt (Lit "b") (Lit "c"))))).
  repeat split; by intros ?.
Defined.

Lemma add_concat_fold_length (l out : list ascii) (prev : option ascii) :
  let r := (fold_left add_concat_step l (out, prev)).1 in
  length out + length l ≤ length r ∧
  length r + (if prev is Some _ then 0 else if l is [] then 0 else 1)
    ≤ length out + 2 * length l.
Proof.
  revert out prev. induction l as [|c l IH]; intros out prev.
  - simpl. destruct prev; lia.
  - cbn [fold_left]. unfold add_concat_step at 2 4.
    set (sep := match prev with Some p => _ | None => _ end).
    specialize (IH ((if sep then out ++ ["."%char] else out) ++ [c]) (Some c)).
    simpl in IH. destruct IH as [IH1 IH2].
    assert (length ((if sep then out ++ ["."%char] else out) ++ [c])
            = length out + (if sep then 2 else 1)) as Hlen.
    { destruct sep; rewrite !length_app; simpl; lia. }
    assert (prev = None → sep = false) as Hnone by (by intros ->).
    simpl. rewrite Hlen in IH1, IH2. destruct prev, sep; try lia.
    by specialize (Hnone eq_refl).
Qed.

Lemma string_length_list (s : string) :
  String.length s = length (String.list_ascii_of_string s).
Proof. induction s as [|c s IH]; [done|]. simpl. by rewrite IH. Qed.

(** X15. [add_concat] at most doubles the pattern: its result has all the
    characters of the pattern and fewer markers than the pattern has
    characters. *)
Theorem add_concat_length (r : string) :
  String.length r ≤ String.length (add_concat r) ∧
  String.length (add_concat r) ≤ 2 * String.length r - 1.
Proof.
  pose proof (add_concat_fold_length (String.list_ascii_of_string r) [] None) as H.
  unfold add_concat. rewrite !string_length_list.
  rewrite String.list_ascii_of_string_of_list_ascii.
  simpl in H. destruct (String.list_ascii_of_string r); simpl in *; lia.
Qed.

(** ** Normalizing a pattern with the usual precedences *)

Section pattern_facts.
Implicit Types (e : regex) (l : nat) (out st rest : list ascii).
Implicit Types (prev : option ascii).

Lemma add_concat_fold_wrap (b : bool) (body body' : list ascii) (lastc : ascii) :
  (∀ out prev rest,
     fold_left add_concat_step (body ++ rest) (out, prev) =
     fold_left add_concat_step rest (out ++ marker_after prev ++ body', Some lastc)) →
  ∀ out prev rest,
    fold_left add_concat_step (wrap b body ++ rest) (out, prev) =
    fold_left add_concat_step rest
      (out ++ marker_after prev ++ wrap b body',
       Some (if b then ")"%char else lastc)).
Proof.
  intros Hbody out prev rest. destruct b; [|apply Hbody].
  unfold wrap. rewrite <- !app_assoc. cbn [app fold_left].
  rewrite add_concat_step_open, Hbody, marker_after_open. cbn [app fold_left].
  rewrite add_concat_step_operator by done. f_equal. f_equal.
  by rewrite <- !app_assoc.
Qed.

Lemma pattern_last_marker e l :
  regex_plain e → marker_after (Some (pattern_last l e)) = ["."%char].
Proof.
  revert l. induction e as [c|e1 IH1 e2 IH2|e1 IH1 e2 IH2|e IH|e IH];
    intros l Hok; simpl in Hok; cbn [pattern_last]; case_bool_decide; try done.
  - unfold marker_after. by destruct (is_literal_plain _ Hok) as (-> & _).
  - apply IH2. tauto.
  - apply IH2. tauto.
Qed.

(** [add_concat] on a pattern, whatever comes before and after. *)
Lemma add_concat_fold_pattern e :
  regex_plain e →
  ∀ l out prev rest,
    fold_left add_concat_step (pattern l e ++ rest) (out, prev) =
    fold_left add_concat_step rest
      (out ++ marker_after prev ++ pattern_marked l e, Some (pattern_last l e)).
Proof.
  induction e as [c|e1 IH1 e2 IH2|e1 IH1 e2 IH2|e IH|e IH];
    intros Hok l; simpl in Hok; cbn [pattern pattern_marked pattern_last];
    apply add_concat_fold_wrap; intros out prev rest.
  - cbn [app fold_left]. f_equal. unfold add_concat_step, marker_after.
    destruct (is_literal_plain _ Hok) as (_ & -> & _).
    destruct prev as [p|]; [|by rewrite app_nil_l].
    destruct (char_in p "|("); simpl; [done | by rewrite <- app_assoc].
  - destruct Hok as [Hok1 Hok2]. rewrite <- !app_assoc.
    rewrite IH1, IH2, pattern_last_marker by done. f_equal. f_equal.
    by rewrite <- !app_assoc.
  - destruct Hok as [Hok1 Hok2]. rewrite <- !app_assoc.
    rewrite IH1 by done. cbn [app fold_left].
    rewrite add_concat_step_operator, IH2, marker_after_bar by done.
    f_equal. f_equal. by rewrite <- !app_assoc.
  - rewrite <- !app_assoc. rewrite IH by done. cbn [app fold_left].
    rewrite add_concat_step_operator by done. f_equal. f_equal.
    by rewrite <- !app_assoc.
  - rewrite <- !app_assoc. rewrite IH by done. cbn [app fold_left].
    rewrite add_concat_step_operator by done. f_equal. f_equal.
    by rewrite <- !app_assoc.
Qed.

Lemma add_concat_pattern e :
  regex_plain e →
  add_concat (String.string_of_list_ascii (pattern 1 e)) =
  String.string_of_list_ascii (pattern_marked 1 e).
Proof.
  intros Hok. unfold add_concat. rewrite String.list_ascii_of_string_of_list_ascii.
  rewrite <- (app_nil_r (pattern 1 e)), add_concat_fold_pattern by done. done.
Qed.

Lemma calm_mono l l' st : l ≤ l' → calm l st → calm l' st.
Proof. intros Hle Hc x Hx. specialize (Hc x Hx). lia. Qed.

Lemma calm_cons l x st : default 0 (prec x) < l → calm l (x :: st).
Proof. by intros Hx y [= <-]. Qed.

Lemma pop_ops_calm pc out st : calm pc st → pop_ops pc out st = (out, st).
Proof.
  intros Hc. destruct st as [|x st]; [done|]. simpl.
  destruct (decide (x = "("%char)); [done|].
  specialize (Hc x eq_refl). rewrite decide_False; [done | lia].
Qed.

Lemma pop_ops_all pc (p : list ascii) out st :
  Forall (λ x, x ≠ "("%char ∧ pc ≤ default 0 (prec x)) p →
  pop_ops pc out (p ++ st) = pop_ops pc (out ++ p) st.
Proof.
  intros Hp. revert out. induction Hp as [|x p [Hx Hpc] _ IH]; intros out.
  - by rewrite app_nil_r.
  - simpl. rewrite decide_False, decide_True by done.
    by rewrite IH, <- app_assoc.
Qed.

Lemma pop_to_paren_all (p : list ascii) out st :
  Forall (λ x, x ≠ "("%char ∧ 1 ≤ default 0 (prec x)) p →
  pop_to_paren out (p ++ st) = pop_to_paren (out ++ p) st.
Proof.
  intros Hp. revert out. induction Hp as [|x p [Hx _] _ IH]; intros out.
  - by rewrite app_nil_r.
  - simpl. rewrite decide_False by done. by rewrite IH, <- app_assoc.
Qed.

Lemma to_postfix_step_op c pc out st :
  c ≠ "("%char → c ≠ ")"%char → prec c = Some pc →
  to_postfix_step (out, st) c = (let '(o, s) := pop_ops pc out st in (o, c :: s)).
Proof.
  intros Ho Hc Hp. unfold to_postfix_step. rewrite !decide_False by done.
  by rewrite Hp.
Qed.

(** The operators left on the stack bind at least as tightly as expected. *)
Lemma pattern_pending_ops e l :
  Forall (λ x, x ≠ "("%char ∧ l ≤ default 0 (prec x)) (pattern_pending l e).
Proof.
  revert l. induction e as [c|e1 IH1 e2 IH2|e1 IH1 e2 IH2|e IH|e IH];
    intros l; cbn [pattern_pending]; case_bool_decide as Hl; simpl in Hl;
    try done.
  - apply Forall_app. split.
    + eapply Forall_impl; [apply (IH2 3)|]. simpl. intros x [? ?]. split; [done|lia].
    + constructor; [|done]. split; [done | simpl; lia].
  - apply Forall_app. split.
    + eapply Forall_impl; [apply (IH2 2)|]. simpl. intros x [? ?]. split; [done|lia].
    + constructor; [|done]. split; [done | simpl; lia].
  - constructor; [|done]. split; [done | simpl; lia].
  - constructor; [|done]. split; [done | simpl; lia].
Qed.

Lemma pattern_emitted_pending e l :
  pattern_emitted l e ++ pattern_pending l e = postfix_of e.
Proof.
  revert l. induction e as [c|e1 IH1 e2 IH2|e1 IH1 e2 IH2|e IH|e IH];
    intros l; cbn [pattern_emitted pattern_pending postfix_of];
    case_bool_decide; rewrite ?app_nil_r; try done.
  - by rewrite <- app_assoc, (app_assoc (pattern_emitted 3 e2)), IH2.
  - by rewrite <- app_assoc, (app_assoc (pattern_emitted 2 e2)), IH2.
Qed.

Lemma prec_of_pos e : 1 ≤ prec_of e.
Proof. destruct e; simpl; lia. Qed.

(** Parentheses around a body: the body is handled with nothing of the
    context above the opening parenthesis, and the closing one flushes it. *)
Lemma to_postfix_fold_wrap e l (body em pend : list ascii) :
  (∀ lc out st rest,
     lc ≤ prec_of e → calm lc st →
     fold_left to_postfix_step (body ++ rest) (out, st) =
     fold_left to_postfix_step rest (out ++ em, pend ++ st)) →
  Forall (λ x, x ≠ "("%char ∧ 1 ≤ default 0 (prec x)) pend →
  em ++ pend = postfix_of e →
  ∀ out st rest,
    calm l st →
    fold_left to_postfix_step (wrap (bool_decide (prec_of e < l)) body ++ rest)
      (out, st) =
    fold_left to_postfix_step rest
      (out ++ (if bool_decide (prec_of e < l) then postfix_of e else em),
       (if bool_decide (prec_of e < l) then [] else pend) ++ st).
Proof.
  intros Hcore Hpend Hpost out st rest Hcalm. case_bool_decide as Hl.
  - unfold wrap. rewrite <- !app_assoc. cbn [app fold_left].
    change (to_postfix_step (out, st) "("%char) with (out, "("%char :: st).
    rewrite (Hcore 1) by (apply prec_of_pos || (apply calm_cons; simpl; lia)).
    cbn [fold_left]. f_equal.
    change (to_postfix_step ?a ")"%char)
      with (let '(o, s) := pop_to_paren a.1 a.2 in (o, tail s)).
    cbn [fst snd]. rewrite pop_to_paren_all by done. cbn [pop_to_paren].
    rewrite decide_True by done. cbn [tail]. by rewrite <- app_assoc, Hpost.
  - apply (Hcore l); [lia | done].
Qed.

(** [to_postfix] on a marked pattern, whatever comes before and after, the
    top of the operator stack binding less than what is expected. *)
Lemma to_postfix_fold_pattern e :
  regex_plain e →
  ∀ l out st rest,
    calm l st →
    fold_left to_postfix_step (pattern_marked l e ++ rest) (out, st) =
    fold_left to_postfix_step rest
      (out ++ pattern_emitted l e, pattern_pending l e ++ st).
Proof.
  induction e as [c|e1 IH1 e2 IH2|e1 IH1 e2 IH2|e IH|e IH];
    intros Hok l; simpl in Hok;
    cbn [pattern_marked pattern_emitted pattern_pending].
  - apply (to_postfix_fold_wrap (Lit c)); [|done|done].
    intros lc out st rest _ _. cbn [app fold_left]. f_equal.
    destruct Hok as [[Ho Hc] Hp]. unfold to_postfix_step.
    rewrite !decide_False by done. by rewrite Hp.
  - destruct Hok as [Hok1 Hok2].
    apply (to_postfix_fold_wrap (Cat e1 e2)).
    + intros lc out st rest Hlc Hcalm. simpl in Hlc. rewrite <- !app_assoc.
      rewrite IH1 by (done || by eapply calm_mono). cbn [app fold_left].
      rewrite (to_postfix_step_op "." 2) by done.
      rewrite pop_ops_all by apply pattern_pending_ops.
      rewrite pop_ops_calm by (by eapply calm_mono).
      rewrite IH2 by (done || (apply calm_cons; simpl; lia)). f_equal. f_equal.
      by rewrite <- !app_assoc, (app_assoc (pattern_emitted 2 e1)),
        pattern_emitted_pending.
    + apply Forall_app. split; [|constructor; [split; [done | simpl; lia] | constructor]].
      eapply Forall_impl; [apply (pattern_pending_ops e2 3)|].
      simpl. intros x [? ?]. split; [done|lia].
    + cbn [postfix_of]. by rewrite <- app_assoc,
        (app_assoc (pattern_emitted 3 e2)), pattern_emitted_pending.
  - destruct Hok as [Hok1 Hok2].
    apply (to_postfix_fold_wrap (Alt e1 e2)).
    + intros lc out st rest Hlc Hcalm. simpl in Hlc. rewrite <- !app_assoc.
      rewrite IH1 by (done || by eapply calm_mono). cbn [app fold_left].
      rewrite (to_postfix_step_op "|" 1) by done.
      rewrite pop_ops_all by apply pattern_pending_ops.
      rewrite pop_ops_calm by (by eapply calm_mono).
      rewrite IH2 by (done || (apply calm_cons; simpl; lia)). f_equal. f_equal.
      by rewrite <- !app_assoc, (app_assoc (pattern_emitted 1 e1)),
        pattern_emitted_pending.
    + apply Forall_app. split; [|constructor; [split; [done | simpl; lia] | constructor]].
      eapply Forall_impl; [apply (pattern_pending_ops e2 2)|].
      simpl. intros x [? ?]. split; [done|lia].
    + cbn [postfix_of]. by rewrite <- app_assoc,
        (app_assoc (pattern_emitted 2 e2)), pattern_emitted_pending.
  - apply (to_postfix_fold_wrap (Star e)).
    + intros lc out st rest Hlc Hcalm. simpl in Hlc. rewrite <- !app_assoc.
      rewrite IH by (done || by eapply calm_mono). cbn [app fold_left].
      rewrite (to_postfix_step_op "*" 3) by done.
      rewrite pop_ops_all by apply pattern_pending_ops.
      rewrite pop_ops_calm by (by eapply calm_mono). f_equal. f_equal.
      by rewrite <- app_assoc, pattern_emitted_pending.
    + constructor; [split; [done | simpl; lia] | constructor].
    + done.
  - apply (to_postfix_fold_wrap (Opt e)).
    + intros lc out st rest Hlc Hcalm. simpl in Hlc. rewrite <- !app_assoc.
      rewrite IH by (done || by eapply calm_mono). cbn [app fold_left].
      rewrite (to_postfix_step_op "?" 3) by done.
      rewrite pop_ops_all by apply pattern_pending_ops.
      rewrite pop_ops_calm by (by eapply calm_mono). f_equal. f_equal.
      by rewrite <- app_assoc, pattern_emitted_pending.
    + constructor; [split; [done | simpl; lia] | constructor].
    + done.
Qed.

Lemma to_postfix_pattern e :
  regex_plain e →
  to_postfix (String.string_of_list_ascii (pattern_marked 1 e)) =
  String.string_of_list_ascii (postfix_of e).
Proof.
  intros Hok. unfold to_postfix. rewrite String.list_ascii_of_string_of_list_ascii.
  rewrite <- (app_nil_r (pattern_marked 1 e)), to_postfix_fold_pattern
    by (done || by intros x [=]).
  cbn [fold_left]. by rewrite app_nil_r, app_nil_l, pattern_emitted_pending.
Qed.

End pattern_facts.

(** X21. Normalization is right on the patterns written with the usual
    precedences (quantifiers, then concatenation, then alternation, the binary
    operators associating to the left) and parentheses only where these
    require them: [add_concat] puts the marker between the operands of each
    concatenation and nowhere else, and [to_postfix] then gives the postfix
    sequence of the expression. *)
Theorem normalize_pattern (e : regex) :
  regex_plain e →
  add_concat (String.string_of_list_ascii (pattern 1 e)) =
    String.string_of_list_ascii (pattern_marked 1 e) ∧
  to_postfix (add_concat (String.string_of_list_ascii (pattern 1 e))) =
    String.string_of_list_ascii (postfix_of e).
Proof.
  intros Hok. rewrite add_concat_pattern by done.
  split; [done | by apply to_postfix_pattern].
Qed.

Lemma normalize_pattern_witness :
  add_concat "a(b|c)*d|e?" = "a.(b|c)*.d|e?" ∧
  to_postfix (add_concat "a(b|c)*d|e?") = "abc|*.d.e?|".
Proof.
  apply (normalize_pattern
           (Alt (Cat (Cat (Lit "a") (Star (Alt (Lit "b") (Lit "c")))) (Lit "d"))
                (Opt (Lit "e")))).
  repeat split; by intros ?.
Defined.

(** X22. The whole pipeline is correct on the patterns without ['+'] written
    with the usual precedences: compiling the pattern of an expression returns
    an automaton, and [matches] accepts a string on it iff the expression
    denotes it. *)
Theorem compile_pattern_matches_denotation (e : regex) :
  regex_plain e →
  ∃ nfa,
    compile (String.string_of_list_ascii (pattern 1 e)) = Ok nfa ∧
    ∀ s, matches nfa s = true ↔ denotes e (String.list_ascii_of_string s).
Proof.
  intros Hok. unfold compile.
  rewrite add_concat_pattern, to_postfix_pattern by done.
  by apply build_postfix_of, regex_plain_ok.
Qed.

Lemma compile_pattern_matches_denotation_witness :
  ∃ nfa,
    compile "a(b|c)*d" = Ok nfa ∧
    ∀ s, matches nfa s = true ↔
         denotes (Cat (Cat (Lit "a") (Star (Alt (Lit "b") (Lit "c")))) (Lit "d"))
           (String.list_ascii_of_string s).
Proof.
  apply (compile_pattern_matches_denotation
           (Cat (Cat (Lit "a") (Star (Alt (Lit "b") (Lit "c")))) (Lit "d"))).
  repeat split; by intros ?.
Defined.

(** ** Unbalanced parentheses *)

Section unbalanced_facts.
Implicit Types (out st l : list ascii) (c : ascii) (prev : option ascii).

Lemma list_ascii_of_string_app (a b : string) :
  String.list_ascii_of_string (a +:+ b) =
  String.list_ascii_of_string a ++ String.list_ascii_of_string b.
Proof. induction a as [|x a IH]; [done|]. simpl. by rewrite IH. Qed.

Lemma string_of_list_ascii_app l1 l2 :
  String.string_of_list_ascii (l1 ++ l2) =
  String.string_of_list_ascii l1 +:+ String.string_of_list_ascii l2.
Proof. induction l1 as [|x l1 IH]; [done|]. simpl. by rewrite IH. Qed.

(** The output so far is only ever appended to. *)
Lemma pop_to_paren_out out st :
  pop_to_paren out st = (out ++ (pop_to_paren [] st).1, (pop_to_paren [] st).2).
Proof.
  revert out. induction st as [|x st IH]; intros out; simpl.
  - by rewrite app_nil_r.
  - destruct (decide (x = "("%char)); [by rewrite app_nil_r|].
    rewrite (IH (out ++ [x])), (IH [x]). simpl. by rewrite <- app_assoc.
Qed.

Lemma pop_ops_out pc out st :
  pop_ops pc out st = (out ++ (pop_ops pc [] st).1, (pop_ops pc [] st).2).
Proof.
  revert out. induction st as [|x st IH]; intros out; simpl.
  - by rewrite app_nil_r.
  - destruct (decide (x = "("%char)); [by rewrite app_nil_r|].
    destruct (decide (pc ≤ default 0 (prec x))); [|by rewrite app_nil_r].
    rewrite (IH (out ++ [x])), (IH [x]). simpl. by rewrite <- app_assoc.
Qed.

Lemma to_postfix_step_out out st c :
  to_postfix_step (out, st) c =
  (out ++ (to_postfix_step ([], st) c).1, (to_postfix_step ([], st) c).2).
Proof.
  unfold to_postfix_step.
  destruct (decide (c = "("%char)); [by rewrite app_nil_r|].
  destruct (decide (c = ")"%char)).
  - rewrite (pop_to_paren_out out). by destruct (pop_to_paren [] st).
  - destruct (prec c) as [pc|]; [|done].
    rewrite (pop_ops_out pc out). by destruct (pop_ops pc [] st).
Qed.

Lemma to_postfix_fold_out l out st :
  fold_left to_postfix_step l (out, st) =
  (out ++ (fold_left to_postfix_step l ([], st)).1,
   (fold_left to_postfix_step l ([], st)).2).
Proof.
  revert out st. induction l as [|c l IH]; intros out st; cbn [fold_left].
  - by rewrite app_nil_r.
  - rewrite to_postfix_step_out.
    destruct (to_postfix_step ([], st) c) as [o1 s1]. cbn [fst snd].
    rewrite (IH (out ++ o1) s1), (IH o1 s1). cbn [fst snd].
    by rewrite <- app_assoc.
Qed.

(** With no opening parenthesis on the stack, a closing one moves the whole
    stack to the output. *)
Lemma pop_to_paren_unmatched out st :
  "("%char ∉ st → pop_to_paren out st = (out ++ st, []).
Proof.
  revert out. induction st as [|x st IH]; intros out Hst; simpl.
  - by rewrite app_nil_r.
  - apply not_elem_of_cons in Hst as [Hx Hst].
    rewrite decide_False by done. rewrite IH by done. by rewrite <- app_assoc.
Qed.

Lemma to_postfix_step_unmatched out st :
  "("%char ∉ st → to_postfix_step (out, st) ")" = (out ++ st, []).
Proof.
  intros Hst.
  change (to_postfix_step (out, st) ")"%char)
    with (let '(o, s) := pop_to_paren out st in (o, tail s)).
  by rewrite pop_to_paren_unmatched.
Qed.

Lemma to_postfix_unmatched (r1 r2 : string) :
  "("%char ∉ (fold_left to_postfix_step (String.list_ascii_of_string r1) ([], [])).2 →
  to_postfix (r1 +:+ String ")" r2) = to_postfix r1 +:+ to_postfix r2.
Proof.
  intros Hst. unfold to_postfix. rewrite list_ascii_of_string_app.
  cbn [String.list_ascii_of_string]. rewrite fold_left_app. cbn [fold_left].
  destruct (fold_left to_postfix_step (String.list_ascii_of_string r1) ([], []))
    as [out1 st1]. cbn [snd] in Hst.
  rewrite to_postfix_step_unmatched, to_postfix_fold_out by done.
  destruct (fold_left to_postfix_step (String.list_ascii_of_string r2) ([], []))
    as [out2 st2]. cbn [fst snd].
  by rewrite <- app_assoc, string_of_list_ascii_app.
Qed.

(** An opening parenthesis never reaches the output before the final flush. *)
Lemma pop_to_paren_no_open out st :
  "("%char ∉ out → "("%char ∉ (pop_to_paren out st).1.
Proof.
  revert out. induction st as [|x st IH]; intros out Hout; simpl; [done|].
  destruct (decide (x = "("%char)); [done|]. apply IH.
  rewrite elem_of_app, list_elem_of_singleton. intros [?|?]; [done | congruence].
Qed.

Lemma pop_ops_no_open pc out st :
  "("%char ∉ out → "("%char ∉ (pop_ops pc out st).1.
Proof.
  revert out. induction st as [|x st IH]; intros out Hout; simpl; [done|].
  destruct (decide (x = "("%char)); [done|].
  destruct (decide (pc ≤ default 0 (prec x))); [|done]. apply IH.
  rewrite elem_of_app, list_elem_of_singleton. intros [?|?]; [done | congruence].
Qed.

Lemma to_postfix_step_no_open out st c :
  "("%char ∉ out → "("%char ∉ (to_postfix_step (out, st) c).1.
Proof.
  intros Hout. unfold to_postfix_step.
  destruct (decide (c = "("%char)); [done|].
  destruct (decide (c = ")"%char)).
  - pose proof (pop_to_paren_no_open out st Hout).
    by destruct (pop_to_paren out st).
  - destruct (prec c) as [pc|].
    + pose proof (pop_ops_no_open pc out st Hout). by destruct (pop_ops pc out st).
    + simpl. rewrite elem_of_app, list_elem_of_singleton.
      intros [?|?]; [done | congruence].
Qed.

Lemma to_postfix_fold_no_open l out st :
  "("%char ∉ out → "("%char ∉ (fold_left to_postfix_step l (out, st)).1.
Proof.
  revert out st. induction l as [|c l IH]; intros out st Hout; [done|].
  cbn [fold_left]. pose proof (to_postfix_step_no_open out st c Hout) as Hstep.
  destruct (to_postfix_step (out, st) c) as [o1 s1]. by apply IH.
Qed.

Lemma to_postfix_open_iff (r : string) :
  "("%char ∈ String.list_ascii_of_string (to_postfix r) ↔
  "("%char ∈ (fold_left to_postfix_step (String.list_ascii_of_string r) ([], [])).2.
Proof.
  unfold to_postfix.
  pose proof (to_postfix_fold_no_open (String.list_ascii_of_string r) [] []) as Hout.
  destruct (fold_left to_postfix_step (String.list_ascii_of_string r) ([], []))
    as [out st]. rewrite String.list_ascii_of_string_of_list_ascii, elem_of_app.
  cbn [fst snd] in *. split; [|tauto].
  intros [Ho|?]; [|done]. exfalso. apply Hout; [by intros ?%elem_of_nil | done].
Qed.

Lemma add_concat_fold_out l out prev :
  (fold_left add_concat_step l (out, prev)).1 =
  out ++ (fold_left add_concat_step l ([], prev)).1.
Proof.
  revert out prev. induction l as [|c l IH]; intros out prev; cbn [fold_left].
  - simpl. by rewrite app_nil_r.
  - unfold add_concat_step at 2 4.
    set (sep := match prev with Some p => _ | None => _ end).
    rewrite (IH ((if sep then out ++ ["."%char] else out) ++ [c])),
      (IH ((if sep then [] ++ ["."%char] else []) ++ [c])).
    destruct sep; simpl; by rewrite <- !app_assoc.
Qed.

(** A leading opening parenthesis takes no marker. *)
Lemma add_concat_open (r : string) :
  add_concat (String "(" r) = String "(" (add_concat r).
Proof.
  unfold add_concat. cbn [String.list_ascii_of_string fold_left].
  change (add_concat_step ([], None) "("%char) with (["("%char], Some "("%char).
  rewrite add_concat_fold_out. cbn [app String.string_of_list_ascii]. f_equal. f_equal.
  destruct (String.list_ascii_of_string r) as [|c l]; [done|].
  cbn [fold_left]. f_equal.
Qed.

Lemma add_concat_fold_no_close l out prev :
  ")"%char ∉ out → ")"%char ∉ l →
  ")"%char ∉ (fold_left add_concat_step l (out, prev)).1.
Proof.
  revert out prev. induction l as [|c l IH]; intros out prev Hout Hl; [done|].
  apply not_elem_of_cons in Hl as [Hc Hl]. cbn [fold_left].
  unfold add_concat_step at 2.
  set (sep := match prev with Some p => _ | None => _ end).
  apply IH; [|done]. destruct sep; rewrite !elem_of_app, !list_elem_of_singleton;
    intros H; decompose [or] H; done || congruence.
Qed.

(** An opening parenthesis at the bottom of the stack, never closed, stays
    there and changes nothing above it. *)
Lemma pop_ops_bottom pc out st :
  pop_ops pc out (st ++ ["("%char]) =
  ((pop_ops pc out st).1, (pop_ops pc out st).2 ++ ["("%char]).
Proof.
  revert out. induction st as [|x st IH]; intros out; simpl; [done|].
  destruct (decide (x = "("%char)); [done|].
  destruct (decide (pc ≤ default 0 (prec x))); [apply IH | done].
Qed.

Lemma to_postfix_step_bottom out st c :
  c ≠ ")"%char →
  to_postfix_step (out, st ++ ["("%char]) c =
  ((to_postfix_step (out, st) c).1, (to_postfix_step (out, st) c).2 ++ ["("%char]).
Proof.
  intros Hc. unfold to_postfix_step.
  destruct (decide (c = "("%char)); [done|].
  destruct (decide (c = ")"%char)); [done|].
  destruct (prec c) as [pc|]; [|done].
  rewrite pop_ops_bottom. by destruct (pop_ops pc out st).
Qed.

Lemma to_postfix_fold_bottom l out st :
  ")"%char ∉ l →
  fold_left to_postfix_step l (out, st ++ ["("%char]) =
  ((fold_left to_postfix_step l (out, st)).1,
   (fold_left to_postfix_step l (out, st)).2 ++ ["("%char]).
Proof.
  revert out st. induction l as [|c l IH]; intros out st Hl; [done|].
  apply not_elem_of_cons in Hl as [Hc Hl]. cbn [fold_left].
  rewrite to_postfix_step_bottom by congruence.
  destruct (to_postfix_step (out, st) c) as [o1 s1]. cbn [fst snd]. by apply IH.
Qed.

Lemma to_postfix_open (s : string) :
  ")"%char ∉ String.list_ascii_of_string s →
  to_postfix (String "(" s) = to_postfix s +:+ "(".
Proof.
  intros Hs. unfold to_postfix. cbn [String.list_ascii_of_string fold_left].
  change (to_postfix_step ([], []) "("%char) with (@nil ascii, [] ++ ["("%char]).
  rewrite to_postfix_fold_bottom by done.
  destruct (fold_left to_postfix_step (String.list_ascii_of_string s) ([], []))
    as [out st]. cbn [fst snd].
  by rewrite app_assoc, string_of_list_ascii_app.
Qed.

(** A symbol after a postfix sequence that builds is a fragment on top of
    the stack, which the final [stack[0]] does not see. *)
Lemma build_trailing_symbol (postfix : string) (t : ascii) (nfa : fragment) :
  is_operand t → build postfix = Ok nfa →
  build (postfix +:+ String t "") = Ok nfa.
Proof.
  intros Ht. unfold build. rewrite list_ascii_of_string_app, build_loop_app.
  destruct (build_loop (0, []) (String.list_ascii_of_string postfix))
    as [[gen stack]|]; [|done].
  cbn [mbind result_bind String.list_ascii_of_string build_loop].
  rewrite build_step_operand by done. cbn [mbind result_bind].
  rewrite last_cons. by destruct (last stack).
Qed.

Lemma compile_open (r : string) (nfa : fragment) :
  ")"%char ∉ String.list_ascii_of_string r →
  compile r = Ok nfa → compile (String "(" r) = Ok nfa.
Proof.
  intros Hr Hnfa. unfold compile. rewrite add_concat_open, to_postfix_open.
  - by apply build_trailing_symbol.
  - unfold add_concat. rewrite String.list_ascii_of_string_of_list_ascii.
    apply add_concat_fold_no_close; [by intros ?%elem_of_nil | done].
Qed.

End unbalanced_facts.

(** C2, amended. Normalization reports neither pattern as an error.
    In [to_postfix] a [')'] that finds no ['('] on the operator stack moves
    every pending operator to the output and is itself dropped, so that the
    part of the pattern before it and the part after it are converted one
    after the other; a leading [')'] is just dropped, and [")a"] normalizes to
    ["a."].  A ['('] still on the stack at the end of the input is flushed to
    the output like an operator, the only way a ['('] gets there, and ["(a"]
    normalizes to ["a("]; [build] takes it for a symbol and returns the bottom
    of its stack, so a pattern without [')'] that compiles gives the same
    automaton with a ['('] in front of it: compiling ["(a"] raises nothing and
    returns the automaton of ["a"]. *)
Theorem normalization_reports_nothing :
  (∀ out st, "("%char ∉ st → to_postfix_step (out, st) ")" = (out ++ st, [])) ∧
  (∀ r1 r2,
     "("%char ∉
       (fold_left to_postfix_step (String.list_ascii_of_string r1) ([], [])).2 →
     to_postfix (r1 +:+ String ")" r2) = to_postfix r1 +:+ to_postfix r2) ∧
  (∀ r, to_postfix (String ")" r) = to_postfix r) ∧
  to_postfix (add_concat ")a") = "a." ∧
  (∀ r,
     "("%char ∈ String.list_ascii_of_string (to_postfix r) ↔
     "("%char ∈
       (fold_left to_postfix_step (String.list_ascii_of_string r) ([], [])).2) ∧
  to_postfix (add_concat "(a") = "a(" ∧
  (∀ r nfa,
     ")"%char ∉ String.list_ascii_of_string r →
     compile r = Ok nfa → compile (String "(" r) = Ok nfa) ∧
  compile "(a" = compile "a" ∧
  ¬ raises (compile "(a") ∧
  run "(a" "a" = Ok true.
Proof.
  split_and!.
  - apply to_postfix_step_unmatched.
  - apply to_postfix_unmatched.
  - apply to_postfix_leading_close.
  - vm_compute. reflexivity.
  - apply to_postfix_open_iff.
  - vm_compute. reflexivity.
  - apply compile_open.
  - vm_compute. reflexivity.
  - intros [e He]. vm_compute in He. discriminate He.
  - vm_compute. reflexivity.
Qed.

Lemma normalization_reports_nothing_witness :
  to_postfix "a|b).c" = "ab|c." ∧ compile "(a|b" = compile "a|b".
Proof.
  destruct normalization_reports_nothing
    as (_ & Hclose & _ & _ & _ & _ & Hopen & _).
  split.
  - apply (Hclose "a|b" ".c"). vm_compute.
    intros [H|H]%elem_of_cons; [discriminate H | by apply elem_of_nil in H].
  - assert (∃ nfa, compile "a|b" = Ok nfa) as [nfa Hnfa]
      by (eexists; vm_compute; reflexivity).
    rewrite Hnfa. apply (Hopen "a|b" nfa); [|done]. vm_compute.
    intros H. repeat (apply elem_of_cons in H as [H|H]; [discriminate H|]).
    by apply elem_of_nil in H.
Defined.
